(** * GEMM kernels: a shallow embedding and its verification

    The development follows the C++ sources of the library:

    - [cpu/gemm_naive.cpp], [cpu/gemm_blocked.cpp], [cpu/gemm_packed.cpp],
      [cpu/gemm_mk_avx2.cpp]: the four drivers;
    - [cpu/microkernels/mk_avx2.cpp]: the 8x8 kernels and their scalar
      fallbacks;
    - [cpu/gemm_dispatcher.cpp], [baselines/openblas.cpp]: the dispatcher
      and the external backend stub;
    - [bench/bench_main.cpp], [tests/test_correctness.cpp],
      [tests/test_avx2_microkernel.cpp]: the helpers of the programs that
      call the library (Part VI).

    Modelling conventions.

    - A C++ [int] is a [Z].  Signed overflow is undefined in C++, so the
      model speaks about the executions in which every [int] stays in
      range.  Integer division is partial (division by zero is undefined).
    - A [float] is a value of an abstract type [F] with the rounded
      operations [fadd], [fmul] (the scalar [+] and [*]) and [fmadd] (one
      lane of [_mm256_fmadd_ps]).  No algebraic law is assumed for them.
      A scalar [c += a * b] is evaluated as written, a rounded product
      and then a rounded sum; a compiler that contracts it into a fused
      multiply-add is not modelled.
    - A [float*] is a buffer (a list of floats) together with an element
      offset.  The three matrices are distinct buffers, as their
      [__restrict] qualifiers promise.  Every access is bounds checked: an
      access outside the buffer is undefined behaviour ([None]).  Where
      the code depends on the address itself (the aligned load of
      [mk8x8_avx2]), the buffer comes with the byte address of its first
      float.
    - The OpenMP pragmas are ignored: the loops run in program order on one
      thread, which is one of the schedules the pragmas allow, and an
      exception thrown inside a parallel region reaches the caller, as it
      does in a build without OpenMP.
    - Prefetch instructions are hints without effect and are left out. *)

From Stdlib Require Import ZArith Lia String QArith Lqa SpecFloat.
From stdpp Require Import base option list list_numbers.

Local Open Scope Z_scope.

(** ** Outcomes of an entry point *)

(** What the caller of a GEMM entry point observes: a normal return, a
    C++ exception that reaches the caller, or undefined behaviour.  The
    first two carry the contents of the output buffer at that moment. *)
Inductive outcome (A : Type) : Type :=
| Returns (c : A)
| Throws (what : string) (c : A)
| Undefined.
Arguments Returns {A} c.
Arguments Throws {A} what c.
Arguments Undefined {A}.

Definition of_option {A} (o : option A) : outcome A :=
  match o with
  | Some c => Returns c
  | None => Undefined
  end.

(** ** Loops *)

(** [for (; k < hi; k += step) body], started at [k], on a state of type
    [S]; the result is the value of [k] on exit together with the state.
    The recursion is on [fuel]; running out of fuel is [None]. *)
Fixpoint for_lt {S : Type} (fuel : nat) (k hi step : Z)
    (body : Z → S → option S) (s : S) : option (Z * S) :=
  if decide (k < hi) then
    match fuel with
    | O => None
    | Datatypes.S fuel' =>
        match body k s with
        | Some s' => for_lt fuel' (k + step) hi step body s'
        | None => None
        end
    end
  else Some (k, s).

(** [hi - lo] iterations are enough for every positive [step].  With a
    non-positive [step] and [lo < hi] the C++ loop never leaves (or
    overflows its counter), and the model answers [None]. *)
Definition for_from {S : Type} (lo hi step : Z)
    (body : Z → S → option S) (s : S) : option (Z * S) :=
  for_lt (Z.to_nat (hi - lo)) lo hi step body s.

(** [for (int k = lo; k < hi; k += step) body]: the counter is local. *)
Definition for_loop {S : Type} (lo hi step : Z)
    (body : Z → S → option S) (s : S) : option S :=
  snd <$> for_from lo hi step body s.

(** C++ [a / b] and [a % b] on [int]: truncating, undefined for [b = 0]. *)
Definition idiv (a b : Z) : option Z :=
  if decide (b = 0) then None else Some (Z.quot a b).
Definition imod (a b : Z) : option Z :=
  if decide (b = 0) then None else Some (Z.rem a b).

(** ** Floats, buffers and vector registers *)

(** The rounded arithmetic of [float]. *)
Class FloatOps (F : Type) : Type := {
  fadd : F → F → F;
  fmul : F → F → F;
  fmadd : F → F → F → F
}.

(** The allocator behind [posix_memalign]: whether a request of so many
    bytes is granted, and the (indeterminate) float found at each index of
    a fresh block. *)
Class Allocator (F : Type) : Type := {
  posix_memalign_ok : Z → bool;
  uninit : Z → F
}.

(** [struct Block { int MB = 256, NB = 256, KB = 256; }] *)
Record Block : Type := { MB : Z; NB : Z; KB : Z }.
Definition default_Block : Block := {| MB := 256; NB := 256; KB := 256 |}.

Section Model.
Context {F : Type} `{!FloatOps F} `{!Allocator F}.

(** [m[p]] as an rvalue. *)
Definition load (m : list F) (p : Z) : option F :=
  if decide (0 ≤ p) then m !! Z.to_nat p else None.

(** [m[p] = v]. *)
Definition store (m : list F) (p : Z) (v : F) : option (list F) :=
  if decide (0 ≤ p < Z.of_nat (length m))
  then Some (<[Z.to_nat p := v]> m) else None.

(** [n] consecutive floats read from [m + p]. *)
Fixpoint load_n (m : list F) (p : Z) (n : nat) : option (list F) :=
  match n with
  | O => Some []
  | Datatypes.S n' =>
      v ← load m p; vs ← load_n m (p + 1) n'; Some (v :: vs)
  end.

(** The floats [vs] written to [m + p]. *)
Fixpoint store_n (m : list F) (p : Z) (vs : list F) : option (list F) :=
  match vs with
  | [] => Some m
  | v :: vs' => m' ← store m p v; store_n m' (p + 1) vs'
  end.

(** A [__m256] register is the list of its eight lanes.  The aligned load
    [_mm256_load_ps] requires an address that is a multiple of 32 bytes
    and is undefined otherwise; [base] is the byte address of the first
    float of the buffer.  [_mm256_loadu_ps] has no such requirement. *)
Definition mm256_loadu_ps (m : list F) (p : Z) : option (list F) :=
  load_n m p 8.
Definition mm256_load_ps (base : Z) (m : list F) (p : Z)
    : option (list F) :=
  if decide ((base + 4 * p) mod 32 = 0) then load_n m p 8 else None.
Definition mm256_storeu_ps (m : list F) (p : Z) (v : list F)
    : option (list F) :=
  store_n m p v.
Definition mm256_set1_ps (a : F) : list F := replicate 8 a.
Definition mm256_broadcast_ss (m : list F) (p : Z) : option (list F) :=
  a ← load m p; Some (replicate 8 a).
(** [_mm256_fmadd_ps(a, b, c)]: [a * b + c] in every lane, rounded once. *)
Definition mm256_fmadd_ps (a b c : list F) : list F :=
  zip_with (fun ab c => fmadd ab.1 ab.2 c) (zip a b) c.

(** A row-major [rows x cols] matrix of leading dimension [ld] lies
    inside the buffer. *)
Definition fits (m : list F) (rows cols ld : Z) : Prop :=
  0 < rows → 0 < cols → (rows - 1) * ld + cols ≤ Z.of_nat (length m).

(** The [rows x cols] block that starts at offset [off] lies inside the
    buffer. *)
Definition block_inside (m : list F) (off rows cols ld : Z) : Prop :=
  ∀ i j, 0 ≤ i < rows → 0 ≤ j < cols →
    0 ≤ off + i * ld + j < Z.of_nat (length m).

(** *** [cpu/gemm_naive.cpp] *)

Definition gemm_naive (M N K : Z) (A B C : list F) (lda ldb ldc : Z)
    : outcome (list F) :=
  of_option (
    for_loop 0 M 1 (fun i C =>
      for_loop 0 K 1 (fun k C =>
        a ← load A (i * lda + k);
        for_loop 0 N 1 (fun j C =>
          c ← load C (i * ldc + j);
          b ← load B (k * ldb + j);
          store C (i * ldc + j) (fadd c (fmul a b))) C) C) C).

(** *** [cpu/gemm_blocked.cpp] *)

(** The row update shared by [gemm_blocked] and [micro_kernel_packed]:
    eight columns at a time with a fused multiply-add while eight are
    left, then the scalar tail.  [c_row], [b_row] are the offsets of the
    two rows; the columns are [jlo <= j < jhi]. *)
Definition row_fma_tail (a : F) (B : list F) (b_row : Z) (C : list F)
    (c_row : Z) (jlo jhi : Z) : option (list F) :=
  let a8 := mm256_set1_ps a in
  '(j, C) ← for_from jlo (jhi - 8 + 1) 8 (fun j C =>
      b8 ← mm256_loadu_ps B (b_row + j);
      c8 ← mm256_loadu_ps C (c_row + j);
      let c8 := mm256_fmadd_ps a8 b8 c8 in
      mm256_storeu_ps C (c_row + j) c8) C;
  snd <$> for_from j jhi 1 (fun j C =>
      c ← load C (c_row + j);
      b ← load B (b_row + j);
      store C (c_row + j) (fadd c (fmul a b))) C.

(** The tile of the flattened index [t]: [(ii, iMax, jj, jMax)]. *)
Definition tile_bounds (M N MB NB nJ t : Z) : option (Z * Z * Z * Z) :=
  ti ← idiv t nJ;
  tj ← imod t nJ;
  let ii := ti * MB in
  let iMax := Z.min (ii + MB) M in
  let jj := tj * NB in
  let jMax := Z.min (jj + NB) N in
  Some (ii, iMax, jj, jMax).

Definition gemm_blocked (M N K : Z) (A B C : list F) (lda ldb ldc : Z)
    (block_sizes : Block) : outcome (list F) :=
  let MB := block_sizes.(MB) in
  let NB := block_sizes.(NB) in
  let KB := block_sizes.(KB) in
  of_option (
    nI ← idiv (M + MB - 1) MB;
    nJ ← idiv (N + NB - 1) NB;
    let nTiles := nI * nJ in
    for_loop 0 nTiles 1 (fun t C =>
      '(ii, iMax, jj, jMax) ← tile_bounds M N MB NB nJ t;
      for_loop 0 K KB (fun kk C =>
        let kMax := Z.min (kk + KB) K in
        for_loop ii iMax 1 (fun i C =>
          for_loop kk kMax 1 (fun k C =>
            a ← load A (i * lda + k);
            row_fma_tail a B (k * ldb) C (i * ldc) jj jMax) C) C) C) C).

(** *** [cpu/gemm_packed.cpp] *)

(** [alloc_aligned_panel(size_t elements)]: the [int] argument is
    converted to [size_t], the byte count wraps in 64 bits; a refused
    request throws.  The result is the message of the exception or the
    fresh buffer. *)
Definition alloc_aligned_panel (elements : Z) : string + list F :=
  let elements := elements mod 2 ^ 64 in
  let bytes := (elements * 4) mod 2 ^ 64 in
  if posix_memalign_ok bytes
  then inr (uninit <$> seqZ 0 (bytes / 4))
  else inl "Failed to allocate aligned panel memory"%string.

(** [pack_A_panel(MB, KB, A + a0, lda, A_packed)] *)
Definition pack_A_panel (MB KB : Z) (A : list F) (a0 : Z) (lda : Z)
    (A_packed : list F) : option (list F) :=
  for_loop 0 MB 1 (fun i A_packed =>
    for_loop 0 KB 1 (fun k A_packed =>
      v ← load A (a0 + i * lda + k);
      store A_packed (i * KB + k) v) A_packed) A_packed.

(** [pack_B_panel(KB, NB, B + b0, ldb, B_packed)] *)
Definition pack_B_panel (KB NB : Z) (B : list F) (b0 : Z) (ldb : Z)
    (B_packed : list F) : option (list F) :=
  for_loop 0 KB 1 (fun k B_packed =>
    for_loop 0 NB 1 (fun j B_packed =>
      v ← load B (b0 + k * ldb + j);
      store B_packed (k * NB + j) v) B_packed) B_packed.

(** [micro_kernel_packed(MB, NB, KB, A_packed, B_packed, C + c0, ldc)] *)
Definition micro_kernel_packed (MB NB KB : Z) (A_packed B_packed : list F)
    (C : list F) (c0 : Z) (ldc : Z) : option (list F) :=
  for_loop 0 MB 1 (fun i C =>
    for_loop 0 KB 1 (fun k C =>
      a ← load A_packed (i * KB + k);
      row_fma_tail a B_packed (k * NB) C (c0 + i * ldc) 0 NB) C) C.

Definition gemm_packed (M N K : Z) (A B C : list F) (lda ldb ldc : Z)
    (block_sizes : Block) : outcome (list F) :=
  let MB := block_sizes.(MB) in
  let NB := block_sizes.(NB) in
  let KB := block_sizes.(KB) in
  match idiv (M + MB - 1) MB with
  | None => Undefined
  | Some nI =>
  match idiv (N + NB - 1) NB with
  | None => Undefined
  | Some nJ =>
  let nTiles := nI * nJ in
  match alloc_aligned_panel (MB * KB) with
  | inl what => Throws what C
  | inr A_packed =>
  match alloc_aligned_panel (KB * NB) with
  | inl what => Throws what C
  | inr B_packed =>
  of_option (snd <$>
    for_loop 0 nTiles 1 (fun t '(A_packed, B_packed, C) =>
      '(ii, iMax, jj, jMax) ← tile_bounds M N MB NB nJ t;
      let actual_MB := iMax - ii in
      let actual_NB := jMax - jj in
      for_loop 0 K KB (fun kk '(A_packed, B_packed, C) =>
        let kMax := Z.min (kk + KB) K in
        let actual_KB := kMax - kk in
        A_packed ← pack_A_panel actual_MB actual_KB A (ii * lda + kk) lda
                     A_packed;
        B_packed ← pack_B_panel actual_KB actual_NB B (kk * ldb + jj) ldb
                     B_packed;
        C ← micro_kernel_packed actual_MB actual_NB actual_KB
               A_packed B_packed C (ii * ldc + jj) ldc;
        Some (A_packed, B_packed, C)) (A_packed, B_packed, C))
      (A_packed, B_packed, C))
  end end end end.

(** *** [cpu/microkernels/mk_avx2.cpp] *)

(** The eight accumulators [c0 .. c7] are the rows of a list of registers;
    a statement repeated for [c0 .. c7] in the source is one traversal of
    the rows [r = 0 .. 7] here. *)
Definition load_rows (C : list F) (c0 ldc : Z) : option (list (list F)) :=
  mapM (fun r => mm256_loadu_ps C (c0 + r * ldc)) (seqZ 0 8).

Fixpoint store_rows (C : list F) (c0 ldc : Z) (r : Z) (acc : list (list F))
    : option (list F) :=
  match acc with
  | [] => Some C
  | c :: acc' =>
      C' ← mm256_storeu_ps C (c0 + r * ldc) c;
      store_rows C' c0 ldc (r + 1) acc'
  end.

(** One depth step of the 8x8 kernels: [b] is the register loaded from
    row [k] of B; every accumulator [c_r] becomes
    [fmadd (broadcast A[r*KC + k]) b c_r]. *)
Definition kstep (KC : Z) (A : list F) (a0 : Z) (b : list F) (k : Z)
    (acc : list (list F)) : option (list (list F)) :=
  a ← mapM (fun r => mm256_broadcast_ss A (a0 + r * KC + k)) (seqZ 0 8);
  Some (zip_with (fun a_r c_r => mm256_fmadd_ps a_r b c_r) a acc).

(** [mk8x8_avx2(KC, A + a0, B + b0, C + c0, ldc)]; the buffer [B] starts
    at the byte address [B_base]. *)
Definition mk8x8_avx2 (KC : Z) (A : list F) (a0 : Z)
    (B : list F) (B_base : Z) (b0 : Z)
    (C : list F) (c0 : Z) (ldc : Z) : option (list F) :=
  acc ← load_rows C c0 ldc;
  '(k, acc) ← for_from 0 (KC - 4 + 1) 4 (fun k acc =>
      b ← mm256_load_ps B_base B (b0 + (k + 0) * 8);
      acc ← kstep KC A a0 b (k + 0) acc;
      b ← mm256_load_ps B_base B (b0 + (k + 1) * 8);
      acc ← kstep KC A a0 b (k + 1) acc;
      b ← mm256_load_ps B_base B (b0 + (k + 2) * 8);
      acc ← kstep KC A a0 b (k + 2) acc;
      b ← mm256_load_ps B_base B (b0 + (k + 3) * 8);
      kstep KC A a0 b (k + 3) acc) acc;
  '(_, acc) ← for_from k KC 1 (fun k acc =>
      b ← mm256_load_ps B_base B (b0 + k * 8);
      kstep KC A a0 b k acc) acc;
  store_rows C c0 ldc 0 acc.

(** [mk8x8_avx2_strided(KC, A + a0, B + b0, ldb, C + c0, ldc)] *)
Definition mk8x8_avx2_strided (KC : Z) (A : list F) (a0 : Z) (B : list F)
    (b0 : Z) (ldb : Z) (C : list F) (c0 : Z) (ldc : Z) : option (list F) :=
  acc ← load_rows C c0 ldc;
  '(k, acc) ← for_from 0 (KC - 4 + 1) 4 (fun k acc =>
      b ← mm256_loadu_ps B (b0 + (k + 0) * ldb);
      acc ← kstep KC A a0 b (k + 0) acc;
      b ← mm256_loadu_ps B (b0 + (k + 1) * ldb);
      acc ← kstep KC A a0 b (k + 1) acc;
      b ← mm256_loadu_ps B (b0 + (k + 2) * ldb);
      acc ← kstep KC A a0 b (k + 2) acc;
      b ← mm256_loadu_ps B (b0 + (k + 3) * ldb);
      kstep KC A a0 b (k + 3) acc) acc;
  '(_, acc) ← for_from k KC 1 (fun k acc =>
      b ← mm256_loadu_ps B (b0 + k * ldb);
      kstep KC A a0 b k acc) acc;
  store_rows C c0 ldc 0 acc.

(** [mk_ref(MR, NR, KC, A_p + a0, B_p + b0, C + c0, ldc)] *)
Definition mk_ref (MR NR KC : Z) (A_p : list F) (a0 : Z) (B_p : list F)
    (b0 : Z) (C : list F) (c0 : Z) (ldc : Z) : option (list F) :=
  for_loop 0 MR 1 (fun i C =>
    for_loop 0 KC 1 (fun k C =>
      a ← load A_p (a0 + i * KC + k);
      let b_row := b0 + k * NR in
      let c_row := c0 + i * ldc in
      for_loop 0 NR 1 (fun j C =>
        c ← load C (c_row + j);
        b ← load B_p (b_row + j);
        store C (c_row + j) (fadd c (fmul a b))) C) C) C.

(** [mk_ref_strided(MR, NR, KC, A_p + a0, B_p + b0, ldb, C + c0, ldc)] *)
Definition mk_ref_strided (MR NR KC : Z) (A_p : list F) (a0 : Z)
    (B_p : list F) (b0 : Z) (ldb : Z) (C : list F) (c0 : Z) (ldc : Z)
    : option (list F) :=
  for_loop 0 MR 1 (fun i C =>
    for_loop 0 KC 1 (fun k C =>
      a ← load A_p (a0 + i * KC + k);
      let b_row := b0 + k * ldb in
      let c_row := c0 + i * ldc in
      for_loop 0 NR 1 (fun j C =>
        c ← load C (c_row + j);
        b ← load B_p (b_row + j);
        store C (c_row + j) (fadd c (fmul a b))) C) C) C.

(** *** [cpu/gemm_mk_avx2.cpp] *)

(** [pack_A_panel_mk], [pack_B_panel_mk]: the same loops as above. *)
Definition pack_A_panel_mk (MB KB : Z) (A : list F) (a0 : Z) (lda : Z)
    (A_packed : list F) : option (list F) :=
  for_loop 0 MB 1 (fun i A_packed =>
    for_loop 0 KB 1 (fun k A_packed =>
      v ← load A (a0 + i * lda + k);
      store A_packed (i * KB + k) v) A_packed) A_packed.

Definition pack_B_panel_mk (KB NB : Z) (B : list F) (b0 : Z) (ldb : Z)
    (B_packed : list F) : option (list F) :=
  for_loop 0 KB 1 (fun k B_packed =>
    for_loop 0 NB 1 (fun j B_packed =>
      v ← load B (b0 + k * ldb + j);
      store B_packed (k * NB + j) v) B_packed) B_packed.

(** A record of one micro-kernel invocation: which kernel, the remaining
    row and column counts [mr], [nr] it was chosen for, and its
    arguments (offsets into the packed panels and into C).  The list of
    records is ghost state: nothing in the computation reads it. *)
Inductive kernel_id : Type := Kernel_mk8x8_avx2_strided | Kernel_mk_ref_strided.

Record mk_call : Type := {
  call_kernel : kernel_id;
  call_mr : Z;
  call_nr : Z;
  call_KC : Z;
  call_Ablk : Z;
  call_Bblk : Z;
  call_ldb : Z;
  call_Cblk : Z;
  call_ldc : Z
}.


(** The 8x8 sweep of one packed tile ([actual_MB x actual_NB], depth
    [actual_KB]) of [gemm_mk_avx2]. *)
Definition mk_tile_sweep (actual_MB actual_NB actual_KB : Z)
    (A_packed B_packed : list F) (ii jj ldc : Z)
    (st : list F * list mk_call) : option (list F * list mk_call) :=
  for_loop 0 actual_MB 8 (fun i0 st =>
    for_loop 0 actual_NB 8 (fun j0 '(C, calls) =>
      let mr := Z.min 8 (actual_MB - i0) in
      let nr := Z.min 8 (actual_NB - j0) in
      let Ablk := i0 * actual_KB in
      let Bblk := j0 in
      let Cblk := (ii + i0) * ldc + (jj + j0) in
      if decide (mr = 8 ∧ nr = 8) then
        C ← mk8x8_avx2_strided actual_KB A_packed Ablk B_packed Bblk
               actual_NB C Cblk ldc;
        Some (C, calls ++ [{| call_kernel := Kernel_mk8x8_avx2_strided;
                              call_mr := mr; call_nr := nr;
                              call_KC := actual_KB; call_Ablk := Ablk;
                              call_Bblk := Bblk; call_ldb := actual_NB;
                              call_Cblk := Cblk; call_ldc := ldc |}])
      else
        C ← mk_ref_strided mr nr actual_KB A_packed Ablk B_packed Bblk
               actual_NB C Cblk ldc;
        Some (C, calls ++ [{| call_kernel := Kernel_mk_ref_strided;
                              call_mr := mr; call_nr := nr;
                              call_KC := actual_KB; call_Ablk := Ablk;
                              call_Bblk := Bblk; call_ldb := actual_NB;
                              call_Cblk := Cblk; call_ldc := ldc |}])) st) st.

(** [gemm_mk_avx2] together with the record of its kernel invocations. *)
Definition gemm_mk_avx2_traced (M N K : Z) (A B C : list F)
    (lda ldb ldc : Z) (block_sizes : Block)
    : outcome (list F * list mk_call) :=
  let MB := block_sizes.(MB) in
  let NB := block_sizes.(NB) in
  let KB := block_sizes.(KB) in
  match idiv (M + MB - 1) MB with
  | None => Undefined
  | Some nI =>
  match idiv (N + NB - 1) NB with
  | None => Undefined
  | Some nJ =>
  let nTiles := nI * nJ in
  match alloc_aligned_panel (MB * KB) with
  | inl what => Throws what (C, [])
  | inr A_packed =>
  match alloc_aligned_panel (KB * NB) with
  | inl what => Throws what (C, [])
  | inr B_packed =>
  of_option (snd <$>
    for_loop 0 nTiles 1 (fun t '(A_packed, B_packed, st) =>
      '(ii, iMax, jj, jMax) ← tile_bounds M N MB NB nJ t;
      let actual_MB := iMax - ii in
      let actual_NB := jMax - jj in
      for_loop 0 K KB (fun kk '(A_packed, B_packed, st) =>
        let kMax := Z.min (kk + KB) K in
        let actual_KB := kMax - kk in
        A_packed ← pack_A_panel_mk actual_MB actual_KB A (ii * lda + kk)
                     lda A_packed;
        B_packed ← pack_B_panel_mk actual_KB actual_NB B (kk * ldb + jj)
                     ldb B_packed;
        st ← mk_tile_sweep actual_MB actual_NB actual_KB A_packed B_packed
               ii jj ldc st;
        Some (A_packed, B_packed, st)) (A_packed, B_packed, st))
      (A_packed, B_packed, (C, [])))
  end end end end.

Definition gemm_mk_avx2 (M N K : Z) (A B C : list F) (lda ldb ldc : Z)
    (block_sizes : Block) : outcome (list F) :=
  match gemm_mk_avx2_traced M N K A B C lda ldb ldc block_sizes with
  | Returns st => Returns st.1
  | Throws what st => Throws what st.1
  | Undefined => Undefined
  end.

(** *** [baselines/openblas.cpp] and [cpu/gemm_dispatcher.cpp] *)

Definition gemm_openblas (M N K : Z) (A B C : list F) (lda ldb ldc : Z)
    (block_sizes : Block) : outcome (list F) :=
  Throws "OpenBLAS not available - install via vcpkg install openblas:x64-windows" C.

Definition run_gemm (impl : string) (M N K : Z) (A B C : list F)
    (lda ldb ldc : Z) (block_sizes : Block) : outcome (list F) :=
  if String.eqb impl "naive" then
    gemm_naive M N K A B C lda ldb ldc
  else if String.eqb impl "blocked" then
    gemm_blocked M N K A B C lda ldb ldc block_sizes
  else if String.eqb impl "packed" then
    gemm_packed M N K A B C lda ldb ldc block_sizes
  else if String.eqb impl "mk_avx2" then
    gemm_mk_avx2 M N K A B C lda ldb ldc block_sizes
  else if String.eqb impl "openblas" then
    gemm_openblas M N K A B C lda ldb ldc block_sizes
  else
    Throws ("Unknown implementation: " ++ impl) C.

End Model.

(** ** Vocabulary of the specifications *)

Section Spec.
Context {F : Type} `{!FloatOps F} `{!Inhabited F}.

(** Entry [(i, j)] of the row-major matrix stored in [m] with leading
    dimension [ld] (an arbitrary float outside the buffer). *)
Definition entry (m : list F) (ld i j : Z) : F :=
  default inhabitant (load m (i * ld + j)).

(** [c] plus the products [A[i][k] * B[k][j]] for [k = 0 .. K - 1],
    added one after the other in this order, each product and each sum
    rounded: what the scalar statement [c += a * b] computes. *)
Definition dot_acc (A B : list F) (lda ldb i j K : Z) (c : F) : F :=
  fold_left (fun c k => fadd c (fmul (entry A lda i k) (entry B ldb k j)))
    (seqZ 0 K) c.


End Spec.

(** The two scratch panels of a blocked call can be allocated: their
    sizes do not wrap and the allocator grants both requests. *)
Definition panels_granted `{!Allocator F} (bs : Block) : Prop :=
  MB bs * KB bs < 2 ^ 62 ∧ KB bs * NB bs < 2 ^ 62 ∧
  posix_memalign_ok (F := F) (4 * (MB bs * KB bs)) = true ∧
  posix_memalign_ok (F := F) (4 * (KB bs * NB bs)) = true.

(** ** The error metric of the specification *)

Section Frobenius.
Context {F : Type} `{!Inhabited F}.
(** The real number a float stands for. *)
Variable val : F → Q.




End Frobenius.

(** ** IEEE 754 binary32 *)

(** Single precision as the standard library specifies it ([SpecFloat],
    24 bits of precision, exponent bound 128, rounding to nearest even).
    The scalar [+] and [*] are [SFadd] and [SFmul].  The library has no
    fused multiply-add; it is defined here as the library defines the
    addition, with the exact product as first operand: the product is
    not rounded, the sum is rounded once. *)
Module Binary32.

Definition prec : Z := 24.
Definition emax : Z := 128.

Definition SFfma (x y z : spec_float) : spec_float :=
  match x, y with
  | S754_nan, _ | _, S754_nan => S754_nan
  | S754_infinity _, S754_zero _ | S754_zero _, S754_infinity _ => S754_nan
  | S754_infinity sx, S754_infinity sy
  | S754_infinity sx, S754_finite sy _ _
  | S754_finite sx _ _, S754_infinity sy =>
      match z with
      | S754_nan => S754_nan
      | S754_infinity sz =>
          if Bool.eqb (xorb sx sy) sz then z else S754_nan
      | _ => S754_infinity (xorb sx sy)
      end
  | S754_finite sx _ _, S754_zero sy
  | S754_zero sx, S754_finite sy _ _
  | S754_zero sx, S754_zero sy =>
      match z with
      | S754_nan => S754_nan
      | S754_zero sz =>
          S754_zero (if Bool.eqb (xorb sx sy) sz then sz else false)
      | _ => z
      end
  | S754_finite sx mx ex, S754_finite sy my ey =>
      match z with
      | S754_nan => S754_nan
      | S754_infinity _ => z
      | S754_zero _ =>
          binary_normalize prec emax
            (cond_Zopp (xorb sx sy) (Zpos (mx * my))) (ex + ey) false
      | S754_finite sz mz ez =>
          let ep := ex + ey in
          let e := Z.min ep ez in
          binary_normalize prec emax
            (cond_Zopp (xorb sx sy) (Zpos (fst (shl_align (mx * my) ep e)))
             + cond_Zopp sz (Zpos (fst (shl_align mz ez e))))
            e false
      end
  end.

#[export] Instance ops : FloatOps spec_float := {|
  fadd := SFadd prec emax;
  fmul := SFmul prec emax;
  fmadd := SFfma
|}.

#[export] Instance inhabited : Inhabited spec_float :=
  populate (S754_zero false).

(** An allocator that grants every request; fresh memory reads as NaN. *)
#[export] Instance allocator : Allocator spec_float := {|
  posix_memalign_ok := fun _ => true;
  uninit := fun _ => S754_nan
|}.



End Binary32.

(** ** Exact integer arithmetic *)

(** The integers as an instance of the float interface: no rounding, so
    the fused multiply-add equals the multiplication followed by the
    addition. *)
Module Exact.

#[export] Instance ops : FloatOps Z := {|
  fadd := Z.add;
  fmul := Z.mul;
  fmadd := fun a b c => a * b + c
|}.

#[export] Instance allocator : Allocator Z := {|
  posix_memalign_ok := fun _ => true;
  uninit := fun _ => 0
|}.

End Exact.

(** * Part II: verification *)

(** ** Buffers *)

Section BufferFacts.
Context {F : Type}.
Implicit Types (m : list F) (p q : Z) (v : F).

Lemma load_Some m p v :
  load m p = Some v → 0 ≤ p < Z.of_nat (length m).
Proof.
  unfold load. case_decide; [|done].
  intros Hl. apply lookup_lt_Some in Hl. lia.
Qed.

Lemma load_is_Some m p :
  0 ≤ p < Z.of_nat (length m) → ∃ v, load m p = Some v.
Proof.
  intros Hp. unfold load. rewrite decide_True by lia.
  destruct (lookup_lt_is_Some_2 m (Z.to_nat p)) as [v Hv]; [lia|eauto].
Qed.

Lemma load_None m p :
  ¬ (0 ≤ p < Z.of_nat (length m)) → load m p = None.
Proof.
  intros Hp. destruct (load m p) as [v|] eqn:E; [|done].
  apply load_Some in E. lia.
Qed.

Lemma store_Some m p v :
  0 ≤ p < Z.of_nat (length m) → ∃ m', store m p v = Some m'.
Proof. intros Hp. unfold store. rewrite decide_True by lia. eauto. Qed.

Lemma store_inv m p v m' :
  store m p v = Some m' →
  length m' = length m ∧ load m' p = Some v ∧
  ∀ q, q ≠ p → load m' q = load m q.
Proof.
  unfold store. case_decide as Hp; [|done]. intros [= <-].
  split; [by rewrite length_insert|]. split.
  - unfold load. rewrite decide_True by lia.
    apply list_lookup_insert_eq. lia.
  - intros q Hq. unfold load. case_decide; [|done].
    apply list_lookup_insert_ne. lia.
Qed.

Lemma load_ext m m' : (∀ p, load m p = load m' p) → m = m'.
Proof.
  intros Hl. apply list_eq. intros i.
  specialize (Hl (Z.of_nat i)). unfold load in Hl.
  rewrite !decide_True, !Nat2Z.id in Hl by lia. done.
Qed.

Lemma load_length_eq m m' :
  (∀ p, load m p = load m' p) → length m = length m'.
Proof. intros Hl. by rewrite (load_ext m m' Hl). Qed.

(** [load_n] and [store_n]: a contiguous segment. *)
Lemma load_n_Some m p n :
  0 ≤ p → p + Z.of_nat n ≤ Z.of_nat (length m) →
  ∃ vs, load_n m p n = Some vs.
Proof.
  revert p. induction n as [|n IH]; intros p Hp Hn; simpl; [eauto|].
  destruct (load_is_Some m p) as [v ->]; [lia|]. simpl.
  destruct (IH (p + 1)) as [vs ->]; [lia..|]. simpl. eauto.
Qed.

Lemma load_n_inv m p n vs :
  load_n m p n = Some vs →
  length vs = n ∧
  ∀ d, (d < n)%nat → vs !! d = load m (p + Z.of_nat d).
Proof.
  revert p vs. induction n as [|n IH]; intros p vs; simpl.
  - intros [= <-]. split; [done|]. intros d Hd. lia.
  - destruct (load m p) as [v|] eqn:Ev; [|done]. simpl.
    destruct (load_n m (p + 1) n) as [ws|] eqn:Ews; [|done]. simpl.
    intros [= <-]. destruct (IH _ _ Ews) as [Hlen Hlk].
    split; [simpl; lia|]. intros [|d] Hd; simpl.
    + by rewrite Z.add_0_r.
    + rewrite Hlk by lia. f_equal. lia.
Qed.

Lemma store_n_Some m p vs :
  0 ≤ p → p + Z.of_nat (length vs) ≤ Z.of_nat (length m) →
  ∃ m', store_n m p vs = Some m'.
Proof.
  revert m p. induction vs as [|v vs IH]; intros m p Hp Hn; simpl in *;
    [eauto|].
  destruct (store_Some m p v) as [m1 Hm1]; [lia|]. rewrite Hm1. simpl.
  apply store_inv in Hm1 as (Hlen & _ & _).
  apply IH; lia.
Qed.

Lemma store_n_inv m p vs m' :
  store_n m p vs = Some m' →
  length m' = length m ∧
  (∀ d, (d < length vs)%nat → load m' (p + Z.of_nat d) = vs !! d) ∧
  (∀ q, ¬ (p ≤ q < p + Z.of_nat (length vs)) → load m' q = load m q).
Proof.
  revert m p. induction vs as [|v vs IH]; intros m p; simpl.
  - intros [= <-]. split; [done|]. split; [intros; lia|done].
  - destruct (store m p v) as [m1|] eqn:Em1; [|done]. simpl.
    intros Hst. destruct (IH _ _ Hst) as (Hlen & Hin & Hout).
    apply store_inv in Em1 as (Hlen1 & Hp1 & Hq1).
    split; [congruence|]. split.
    + intros [|d] Hd; simpl.
      * rewrite Z.add_0_r, Hout by lia. done.
      * rewrite <- (Hin d) by lia. f_equal. lia.
    + intros q Hq. rewrite Hout by lia. apply Hq1. lia.
Qed.

End BufferFacts.

(** ** Loop rules *)

Section LoopFacts.
Context {S : Type}.
Implicit Types (body : Z → S → option S) (I : Z → S → Prop).

(** Total correctness of a counted loop with a positive step: the
    invariant holds at the exit value of the counter. *)
Lemma for_lt_rule I lo0 hi step body :
  0 < step →
  (∀ k s, lo0 ≤ k < hi → I k s → ∃ s', body k s = Some s' ∧ I (k + step) s') →
  ∀ fuel lo s, lo0 ≤ lo → hi - lo ≤ Z.of_nat fuel → I lo s →
  ∃ kf s', for_lt fuel lo hi step body s = Some (kf, s') ∧ I kf s' ∧
           hi ≤ kf ∧ lo ≤ kf ∧ (kf = lo ∨ kf < hi + step).
Proof.
  intros Hstep Hbody fuel. induction fuel as [|fuel IH]; intros lo s Hlo Hf HI;
    simpl; case_decide as Hlt.
  - lia.
  - exists lo, s. repeat split; auto; lia.
  - destruct (Hbody lo s) as (s1 & -> & HI1); [lia|done|].
    destruct (IH (lo + step) s1) as (kf & s' & -> & HI' & H1 & H2 & H3);
      [lia|lia|done|].
    exists kf, s'. repeat split; auto; lia.
  - exists lo, s. repeat split; auto; lia.
Qed.

Lemma for_from_rule I lo hi step body s :
  0 < step →
  (∀ k s, lo ≤ k < hi → I k s → ∃ s', body k s = Some s' ∧ I (k + step) s') →
  I lo s →
  ∃ kf s', for_from lo hi step body s = Some (kf, s') ∧ I kf s' ∧
           hi ≤ kf ∧ lo ≤ kf ∧ (kf = lo ∨ kf < hi + step).
Proof.
  intros Hstep Hbody HI. unfold for_from.
  eapply for_lt_rule; eauto; lia.
Qed.


Lemma for_loop_rule I lo hi body s :
  lo ≤ hi →
  (∀ k s, lo ≤ k < hi → I k s → ∃ s', body k s = Some s' ∧ I (k + 1) s') →
  I lo s →
  ∃ s', for_loop lo hi 1 body s = Some s' ∧ I hi s'.
Proof.
  intros Hle Hbody HI. unfold for_loop.
  destruct (for_from_rule I lo hi 1 body s) as (kf & s' & -> & ? & ? & ? & ?);
    auto; [lia|].
  exists s'. split; [done|]. by replace hi with kf by lia.
Qed.

(** A loop whose range is empty does nothing. *)
Lemma for_from_empty lo hi step body s :
  hi ≤ lo → for_from lo hi step body s = Some (lo, s).
Proof.
  intros Hle. unfold for_from. destruct (Z.to_nat (hi - lo)); simpl;
    by rewrite decide_False by lia.
Qed.

Lemma for_loop_empty lo hi step body s :
  hi ≤ lo → for_loop lo hi step body s = Some s.
Proof. intros Hle. unfold for_loop. by rewrite for_from_empty. Qed.

(** With a non-positive step a loop that is entered is never left. *)
Lemma for_lt_stuck fuel lo hi step body s :
  step ≤ 0 → lo < hi → for_lt fuel lo hi step body s = None.
Proof.
  intros Hstep. revert lo s. induction fuel as [|fuel IH]; intros lo s Hlt;
    simpl; rewrite decide_True by done; [done|].
  destruct (body lo s); [|done]. apply IH. lia.
Qed.

Lemma for_loop_stuck lo hi step body s :
  step ≤ 0 → lo < hi → for_loop lo hi step body s = None.
Proof.
  intros. unfold for_loop, for_from. by rewrite for_lt_stuck.
Qed.

(** Loops with pointwise equal bodies are equal. *)
Lemma for_lt_ext fuel lo hi step body body' s :
  (∀ k s, body k s = body' k s) →
  for_lt fuel lo hi step body s = for_lt fuel lo hi step body' s.
Proof.
  intros Hb. revert lo s. induction fuel as [|fuel IH]; intros lo s; simpl;
    [done|].
  case_decide; [|done]. rewrite Hb. destruct (body' lo s); [apply IH|done].
Qed.

Lemma for_loop_ext lo hi step body body' s :
  (∀ k s, body k s = body' k s) →
  for_loop lo hi step body s = for_loop lo hi step body' s.
Proof.
  intros Hb. unfold for_loop, for_from. by rewrite (for_lt_ext _ _ _ _ body body').
Qed.

(** Partial correctness: what every iteration preserves holds on exit. *)
Lemma for_lt_preserves (I : S → Prop) fuel lo hi step body s kf s' :
  (∀ k s s', I s → body k s = Some s' → I s') →
  I s → for_lt fuel lo hi step body s = Some (kf, s') → I s'.
Proof.
  intros Hb. revert lo s. induction fuel as [|fuel IH]; intros lo s HI; simpl;
    case_decide; try done.
  - by intros [= <- <-].
  - destruct (body lo s) as [s1|] eqn:E; [|done]. apply IH. eauto.
  - by intros [= <- <-].
Qed.

Lemma for_loop_preserves (I : S → Prop) lo hi step body s s' :
  (∀ k s s', I s → body k s = Some s' → I s') →
  I s → for_loop lo hi step body s = Some s' → I s'.
Proof.
  intros Hb HI. unfold for_loop, for_from.
  destruct (for_lt _ lo hi step body s) as [[kf s1]|] eqn:E; [|done].
  intros [= <-]. eapply for_lt_preserves; eauto.
Qed.

(** A depth loop with a non-positive step: empty, or never left. *)
Lemma for_loop_nonpos_step lo hi step body s :
  step ≤ 0 →
  for_loop lo hi step body s = Some s ∨ for_loop lo hi step body s = None.
Proof.
  intros Hstep. destruct (decide (lo < hi)).
  - right. by apply for_loop_stuck.
  - left. apply for_loop_empty. lia.
Qed.

End LoopFacts.

(** Reduction of the option monad's binds, and nothing else. *)
Tactic Notation "osimpl" :=
  cbn [mbind option_bind fmap option_fmap option_map fst snd].
Tactic Notation "osimpl" "in" hyp(H) :=
  cbn [mbind option_bind fmap option_fmap option_map fst snd] in H.

(** ** Index arithmetic of row-major matrices *)

Lemma rowmajor_inj (ld i j i' j' : Z) :
  0 ≤ j < ld → 0 ≤ j' < ld → i * ld + j = i' * ld + j' → i = i' ∧ j = j'.
Proof.
  intros Hj Hj' Heq.
  assert (i = i') as -> by nia. split; [done|lia].
Qed.

Lemma rowmajor_bounds (len rows cols ld i j : Z) :
  (0 < rows → 0 < cols → (rows - 1) * ld + cols ≤ len) →
  cols ≤ ld → 0 ≤ i < rows → 0 ≤ j < cols →
  0 ≤ i * ld + j < len.
Proof. intros Hfit Hld Hi Hj. split; [nia|]. specialize (Hfit ltac:(lia) ltac:(lia)). nia. Qed.


(** ** Panel packing *)

Section Pack.
Context {F : Type}.

(** The copy loop of the four packing routines: afterwards the panel
    holds the [rows x cols] block of the source, densely, and nothing
    else of the panel has changed. *)
Lemma pack_A_panel_spec (rows cols : Z) (src : list F) (s0 ld : Z)
    (dst : list F) :
  0 ≤ rows → 0 ≤ cols →
  (∀ i k, 0 ≤ i < rows → 0 ≤ k < cols →
     0 ≤ s0 + i * ld + k < Z.of_nat (length src)) →
  rows * cols ≤ Z.of_nat (length dst) →
  ∃ dst', pack_A_panel rows cols src s0 ld dst = Some dst' ∧
    length dst' = length dst ∧
    (∀ i k, 0 ≤ i < rows → 0 ≤ k < cols →
       load dst' (i * cols + k) = load src (s0 + i * ld + k)) ∧
    (∀ p, ¬ (0 ≤ p < rows * cols) → load dst' p = load dst p).
Proof.
  intros Hrows Hcols Hsrc Hdst. unfold pack_A_panel.
  set (Inv := fun (q : Z) (d : list F) =>
    length d = length dst ∧
    (∀ i k, 0 ≤ i < rows → 0 ≤ k < cols → i * cols + k < q →
       load d (i * cols + k) = load src (s0 + i * ld + k)) ∧
    (∀ p, ¬ (0 ≤ p < q) → load d p = load dst p)).
  match goal with
  | |- context [for_loop 0 rows 1 ?body dst] =>
      destruct (for_loop_rule (fun i d => Inv (i * cols) d) 0 rows body dst)
        as (d' & Heq & Hlen & Hin & Hout)
  end.
  - done.
  - intros i d Hi HI.
    match goal with
    | |- context [for_loop 0 cols 1 ?body d] =>
        destruct (for_loop_rule (fun k d => Inv (i * cols + k) d)
                    0 cols body d) as (d1 & Heq1 & HI1)
    end.
    + done.
    + intros k d2 Hk (Hlen2 & Hin2 & Hout2).
      destruct (load_is_Some src (s0 + i * ld + k)) as [v Hv]; [by apply Hsrc|].
      rewrite Hv. osimpl.
      destruct (store_Some d2 (i * cols + k) v) as [d3 Hd3]; [nia|].
      exists d3. split; [done|].
      apply store_inv in Hd3 as (Hlen3 & Hnew & Hold).
      split; [congruence|]. split.
      * intros i' k' Hi' Hk' Hlt.
        destruct (decide (i' * cols + k' = i * cols + k)) as [Heq2|Hne].
        -- apply rowmajor_inj in Heq2 as [-> ->]; [|lia..].
           by rewrite Hnew, Hv.
        -- rewrite Hold by done. apply Hin2; auto. lia.
      * intros p Hp. rewrite Hold by lia. apply Hout2. lia.
    + replace (i * cols + 0) with (i * cols) by lia. done.
    + exists d1. split; [done|].
      replace ((i + 1) * cols) with (i * cols + cols) by lia. done.
  - repeat split; auto; intros; lia.
  - exists d'. split; [done|]. split; [done|].
    split; [|intros p Hp; apply Hout; lia].
    intros i k Hi Hk. apply Hin; auto. nia.
Qed.



End Pack.

(** ** The flattened tile decomposition *)









(** ** The accumulation state of the output matrix *)

(** Every driver updates an entry [C[i][j]] only by steps
    [C[i][j] <- C[i][j] + A[i][k] * B[k][j]] taken for [k = 0, 1, 2, ...]
    in this order.  The state of the output during a run is described by
    the number [kd i j] of steps already taken at each entry. *)

Section Rep.
Context {F : Type} `{!FloatOps F} `{!Allocator F}.

(** [okstep a b c v]: [v] is an admitted result of the step [c += a * b].
    Instances: the scalar result only; the scalar or the fused result;
    anything (when only bounds and frames matter). *)
Variable okstep : F → F → F → F → Prop.
(** The entries of A and B, by row and column. *)
Variables aval bval : Z → Z → F.
(** The output matrix, its leading dimension and its initial contents. *)
Variables (M N ldc : Z) (C0 : list F).
Hypothesis HN : N ≤ ldc.

(** [accR i j k0 k1 c v]: [v] results from [c] by the steps
    [k0 <= k < k1] at entry [(i, j)]. *)
Inductive accR (i j k0 : Z) : Z → F → F → Prop :=
| accR_refl c : accR i j k0 k0 c c
| accR_step k c v v' :
    accR i j k0 k c v →
    okstep (aval i k) (bval k j) v v' →
    accR i j k0 (k + 1) c v'.

Lemma accR_le i j k0 k1 c v : accR i j k0 k1 c v → k0 ≤ k1.
Proof. induction 1; lia. Qed.

Lemma accR_trans i j k0 k1 k2 c v w :
  accR i j k0 k1 c v → accR i j k1 k2 v w → accR i j k0 k2 c w.
Proof.
  intros H1 H2. induction H2 as [|k v' w w' H2 IH Hs]; [done|].
  eapply accR_step; eauto.
Qed.

Lemma accR_one i j k c v :
  okstep (aval i k) (bval k j) c v → accR i j k (k + 1) c v.
Proof. intros Hs. eapply accR_step; [apply accR_refl|done]. Qed.

Definition Rep (kd : Z → Z → Z) (C : list F) : Prop :=
  length C = length C0 ∧
  (∀ i j, 0 ≤ i < M → 0 ≤ j < N →
     ∃ c v, load C0 (i * ldc + j) = Some c ∧
            load C (i * ldc + j) = Some v ∧
            accR i j 0 (kd i j) c v) ∧
  (∀ p, (∀ i j, 0 ≤ i < M → 0 ≤ j < N → p ≠ i * ldc + j) →
     load C p = load C0 p).

(** [kd] with the entries of the rectangle
    [i0 <= i < i1], [j0 <= j < j1] set to [v]. *)
Definition kd_set (kd : Z → Z → Z) (i0 i1 j0 j1 v : Z) : Z → Z → Z :=
  fun i j => if decide (i0 ≤ i < i1 ∧ j0 ≤ j < j1) then v else kd i j.

Lemma Rep_init : fits C0 M N ldc → Rep (fun _ _ => 0) C0.
Proof.
  intros Hfit. split; [done|]. split; [|done].
  intros i j Hi Hj.
  destruct (load_is_Some C0 (i * ldc + j)) as [c Hc].
  { apply (rowmajor_bounds _ M N); auto. }
  exists c, c. repeat split; auto. apply accR_refl.
Qed.

Lemma Rep_ext kd kd' C :
  (∀ i j, 0 ≤ i < M → 0 ≤ j < N → kd i j = kd' i j) →
  Rep kd C → Rep kd' C.
Proof.
  intros Heq (Hlen & Hin & Hout). split; [done|]. split; [|done].
  intros i j Hi Hj. destruct (Hin i j Hi Hj) as (c & v & ? & ? & ?).
  exists c, v. rewrite <- Heq by done. auto.
Qed.

Lemma Rep_length kd C : Rep kd C → length C = length C0.
Proof. by intros (? & _). Qed.

Lemma Rep_load kd C i j :
  Rep kd C → 0 ≤ i < M → 0 ≤ j < N → ∃ v, load C (i * ldc + j) = Some v.
Proof.
  intros (_ & Hin & _) Hi Hj. destruct (Hin i j Hi Hj) as (c & v & ? & ? & ?).
  eauto.
Qed.

(** The update of a rectangle of entries by the steps [k0 <= k < k1]. *)
Lemma Rep_rect kd C C' i0 i1 j0 j1 k0 k1 :
  Rep kd C →
  0 ≤ i0 → i1 ≤ M → 0 ≤ j0 → j1 ≤ N →
  (∀ i j, i0 ≤ i < i1 → j0 ≤ j < j1 → kd i j = k0) →
  length C' = length C →
  (∀ i j, i0 ≤ i < i1 → j0 ≤ j < j1 →
     ∃ v v', load C (i * ldc + j) = Some v ∧
             load C' (i * ldc + j) = Some v' ∧
             accR i j k0 k1 v v') →
  (∀ p, (∀ i j, i0 ≤ i < i1 → j0 ≤ j < j1 → p ≠ i * ldc + j) →
     load C' p = load C p) →
  Rep (kd_set kd i0 i1 j0 j1 k1) C'.
Proof.
  intros (Hlen & Hin & Hout) Hi0 Hi1 Hj0 Hj1 Hkd Hlen' Hupd Hframe.
  split; [congruence|]. split.
  - intros i j Hi Hj. unfold kd_set.
    destruct (Hin i j Hi Hj) as (c & v & Hc & Hv & Hacc).
    case_decide as Hr.
    + destruct (Hupd i j) as (v1 & v' & Hv1 & Hv' & Hacc'); [lia..|].
      exists c, v'. repeat split; auto.
      rewrite Hkd in Hacc by lia.
      assert (v1 = v) as -> by congruence.
      eapply accR_trans; eauto.
    + exists c, v. repeat split; auto.
      rewrite Hframe; [done|].
      intros i' j' Hi' Hj' Heq.
      apply rowmajor_inj in Heq; [|lia..]. lia.
  - intros p Hp. rewrite Hframe, Hout; auto.
    intros i j Hi Hj. apply Hp; lia.
Qed.

(** What the representation says about the buffer, without the
    arithmetic: entries outside the matrix are untouched. *)
Lemma Rep_frame kd C p :
  Rep kd C →
  (∀ i j, 0 ≤ i < M → 0 ≤ j < N → p ≠ i * ldc + j) →
  load C p = load C0 p.
Proof. intros (_ & _ & Hout). apply Hout. Qed.

(** *** The scalar row update *)

Definition scalar_ok : Prop := ∀ a b c, okstep a b c (fadd c (fmul a b)).

Ltac kd_solve :=
  intros; unfold kd_set; repeat case_decide; first [lia | done].

(** [c_row] is the offset of entry [(gi, gj)]; the loop runs over the
    columns [gj + jlo <= j < gj + jhi] of row [gi], at depth [k]. *)
Lemma scalar_row_Rep kd C a B b_row c_row gi gj k jlo jhi :
  scalar_ok → Rep kd C →
  0 ≤ gi < M → 0 ≤ gj + jlo → gj + jhi ≤ N → jlo ≤ jhi →
  c_row = gi * ldc + gj →
  a = aval gi k →
  (∀ j, jlo ≤ j < jhi → kd gi (gj + j) = k) →
  (∀ j, jlo ≤ j < jhi → load B (b_row + j) = Some (bval k (gj + j))) →
  ∃ C', for_from jlo jhi 1 (fun j C =>
            c ← load C (c_row + j);
            b ← load B (b_row + j);
            store C (c_row + j) (fadd c (fmul a b))) C = Some (jhi, C') ∧
        Rep (kd_set kd gi (gi + 1) (gj + jlo) (gj + jhi) (k + 1)) C'.
Proof.
  intros Hs HRep Hgi Hlo Hhi Hle -> -> Hkd HB.
  match goal with
  | |- context [for_from ?lo ?hi ?step ?body ?s] =>
      destruct (for_from_rule
        (fun j C => jlo ≤ j ≤ jhi ∧
           Rep (kd_set kd gi (gi + 1) (gj + jlo) (gj + j) (k + 1)) C)
        lo hi step body s) as (kf & C' & Heq & (Hkf & HRep') & H1 & H2 & H3)
  end.
  - lia.
  - simpl. intros j C1 Hj (Hjr & HR).
    replace (gi * ldc + gj + j) with (gi * ldc + (gj + j)) by lia.
    destruct (Rep_load _ _ gi (gj + j) HR) as [v Hv]; [lia..|].
    rewrite Hv. simpl. rewrite HB by lia. simpl.
    destruct (store_Some C1 (gi * ldc + (gj + j))
                (fadd v (fmul (aval gi k) (bval k (gj + j)))))
      as [C2 HC2]; [by eapply load_Some|].
    exists C2. split; [done|]. split; [lia|].
    apply store_inv in HC2 as (Hlen & Hnew & Hold).
    eapply Rep_ext;
      [|eapply (Rep_rect _ C1 C2 gi (gi + 1) (gj + j) (gj + j + 1) k (k + 1));
        eauto; try lia].
    + kd_solve.
    + intros i j' Hi Hj'. unfold kd_set. rewrite decide_False by lia.
      replace i with gi by lia. replace j' with (gj + j) by lia.
      apply Hkd. lia.
    + intros i j' Hi Hj'. replace i with gi by lia.
      replace j' with (gj + j) by lia.
      exists v, (fadd v (fmul (aval gi k) (bval k (gj + j)))).
      repeat split; auto. apply accR_one. apply Hs.
    + intros p Hp. apply Hold. apply Hp; lia.
  - split; [lia|]. eapply Rep_ext; [|exact HRep]. kd_solve.
  - assert (kf = jhi) as -> by lia. eauto.
Qed.

(** *** Rows times depth: the loop nest [for i { for k { row update } }] *)

(** [rowop i k] updates the columns [c1 <= j < c2] of row [gi0 + i] by
    the step at depth [kbase + k]. *)
Lemma ik_loops_Rep (rowop : Z → Z → list F → option (list F))
    gi0 kbase ilo ihi klo khi c1 c2 kd C :
  (∀ i k kd C, ilo ≤ i < ihi → klo ≤ k < khi → Rep kd C →
     (∀ j, c1 ≤ j < c2 → kd (gi0 + i) j = kbase + k) →
     ∃ C', rowop i k C = Some C' ∧
           Rep (kd_set kd (gi0 + i) (gi0 + i + 1) c1 c2 (kbase + k + 1)) C') →
  ilo ≤ ihi → klo ≤ khi →
  Rep kd C →
  (∀ i j, gi0 + ilo ≤ i < gi0 + ihi → c1 ≤ j < c2 → kd i j = kbase + klo) →
  ∃ C', for_loop ilo ihi 1 (fun i C =>
          for_loop klo khi 1 (fun k C => rowop i k C) C) C = Some C' ∧
        Rep (kd_set kd (gi0 + ilo) (gi0 + ihi) c1 c2 (kbase + khi)) C'.
Proof.
  intros Hrow Hi Hk HRep Hkd.
  apply (for_loop_rule
    (fun i C => Rep (kd_set kd (gi0 + ilo) (gi0 + i) c1 c2 (kbase + khi)) C));
    [done| |eapply Rep_ext; [|exact HRep]; kd_solve].
  intros i C1 Hir HR1.
  destruct (for_loop_rule
    (fun k C => Rep (kd_set (kd_set kd (gi0 + ilo) (gi0 + i) c1 c2 (kbase + khi))
                            (gi0 + i) (gi0 + i + 1) c1 c2 (kbase + k)) C)
    klo khi (fun k C => rowop i k C) C1) as (C2 & Heq & HR2); [done| | |].
  - intros k C3 Hkr HR3.
    destruct (Hrow i k _ C3 Hir Hkr HR3) as (C4 & HC4 & HR4); [kd_solve|].
    exists C4. split; [done|]. eapply Rep_ext; [|exact HR4]. kd_solve.
  - eapply Rep_ext; [|exact HR1].
    intros i' j' Hi' Hj'. unfold kd_set. repeat case_decide; try lia.
    rewrite Hkd by lia. done.
  - exists C2. split; [done|]. eapply Rep_ext; [|exact HR2]. kd_solve.
Qed.

(** *** [gemm_naive] *)

Lemma gemm_naive_Rep K A B lda ldb :
  scalar_ok → 0 ≤ M → 0 ≤ N → 0 ≤ K →
  fits C0 M N ldc →
  (∀ i k, 0 ≤ i < M → 0 ≤ k < K → load A (i * lda + k) = Some (aval i k)) →
  (∀ k j, 0 ≤ k < K → 0 ≤ j < N → load B (k * ldb + j) = Some (bval k j)) →
  ∃ C', gemm_naive M N K A B C0 lda ldb ldc = Returns C' ∧
        Rep (fun _ _ => K) C'.
Proof.
  intros Hs HM HN' HK Hfit HA HB. unfold gemm_naive.
  destruct (ik_loops_Rep
    (fun i k C =>
       a ← load A (i * lda + k);
       for_loop 0 N 1 (fun j C =>
         c ← load C (i * ldc + j);
         b ← load B (k * ldb + j);
         store C (i * ldc + j) (fadd c (fmul a b))) C)
    0 0 0 M 0 K 0 N (fun _ _ => 0) C0) as (C' & Heq & HR); try done.
  - intros i k kd C Hi Hk HR Hkd. rewrite HA by lia. simpl.
    destruct (scalar_row_Rep kd C (aval i k) B (k * ldb) (i * ldc) i 0 k 0 N)
      as (C' & Heq & HR'); auto; try lia.
    unfold for_loop. rewrite Heq. simpl. exists C'. split; [done|].
    eapply Rep_ext; [|exact HR']. kd_solve.
  - by apply Rep_init.
  - rewrite Heq. simpl. exists C'. split; [done|].
    eapply Rep_ext; [|exact HR]. kd_solve.
Qed.

(** *** The vectorised row update *)

Lemma mm256_fmadd_ps_lookup (a b c : list F) d x y z :
  a !! d = Some x → b !! d = Some y → c !! d = Some z →
  mm256_fmadd_ps a b c !! d = Some (fmadd x y z).
Proof.
  intros Ha Hb Hc. unfold mm256_fmadd_ps.
  rewrite !lookup_zip_with.
  rewrite Ha, Hb, Hc. done.
Qed.

Lemma mm256_fmadd_ps_length (a b c : list F) n :
  length a = n → length b = n → length c = n →
  length (mm256_fmadd_ps a b c) = n.
Proof.
  intros Ha Hb Hc. unfold mm256_fmadd_ps.
  rewrite !length_zip_with. lia.
Qed.



(** *** Tiles and depth chunks: the outer loops of the blocked drivers *)


(** *** [gemm_blocked] *)


(** *** [gemm_packed] *)





(** *** The scalar micro-kernel *)


(** *** The 8x8 vector micro-kernel *)

Lemma load_rows_spec (C : list F) c0 ld :
  (∀ r, 0 ≤ r < 8 →
     0 ≤ c0 + r * ld ∧ c0 + r * ld + 8 ≤ Z.of_nat (length C)) →
  ∃ acc, load_rows C c0 ld = Some acc ∧ length acc = 8%nat ∧
    ∀ r : nat, (r < 8)%nat →
      ∃ row, acc !! r = Some row ∧ length row = 8%nat ∧
        ∀ l : nat, (l < 8)%nat →
          row !! l = load C (c0 + Z.of_nat r * ld + Z.of_nat l).
Proof.
  intros Hin. unfold load_rows, mm256_loadu_ps.
  destruct (mapM (λ r : Z, load_n C (c0 + r * ld) 8) (seqZ 0 8))
    as [acc|] eqn:E.
  - exists acc. split; [done|].
    pose proof (length_mapM _ _ _ E) as Hlen. rewrite length_seqZ in Hlen.
    split; [lia|]. intros r Hr.
    apply mapM_Some_1 in E.
    destruct (Forall2_lookup_l _ _ _ r (Z.of_nat r) E) as (row & Hrow & Hld).
    { rewrite lookup_seqZ. lia. }
    apply load_n_inv in Hld as [Hl Hld].
    exists row. repeat split; auto.
  - exfalso. assert (is_Some (mapM (λ r : Z, load_n C (c0 + r * ld) 8)
                                (seqZ 0 8))) as [? Hs]; [|congruence].
    apply mapM_is_Some_2. apply Forall_seqZ. intros r Hr. unfold compose.
    destruct (load_n_Some C (c0 + r * ld) 8) as [vs Hvs];
      [apply Hin; lia|destruct (Hin r); lia|].
    rewrite Hvs. done.
Qed.

Lemma kstep_spec KC (A : list F) a0 (b : list F) k (acc : list (list F))
    (ar : nat → F) :
  (∀ r : nat, (r < 8)%nat →
     load A (a0 + Z.of_nat r * KC + k) = Some (ar r)) →
  length acc = 8%nat →
  ∃ acc', kstep KC A a0 b k acc = Some acc' ∧ length acc' = 8%nat ∧
    ∀ (r : nat) row, acc !! r = Some row →
      acc' !! r = Some (mm256_fmadd_ps (replicate 8 (ar r)) b row).
Proof.
  intros HA Hlen. unfold kstep, mm256_broadcast_ss.
  destruct (mapM (λ r : Z, load A (a0 + r * KC + k)
                            ≫= λ a : F, Some (replicate 8 a)) (seqZ 0 8))
    as [a|] eqn:E.
  - osimpl. eexists. split; [done|].
    pose proof (length_mapM _ _ _ E) as Hla. rewrite length_seqZ in Hla.
    split; [rewrite length_zip_with; lia|].
    intros r row Hrow. rewrite lookup_zip_with, Hrow.
    pose proof (lookup_lt_Some _ _ _ Hrow) as Hr.
    apply mapM_Some_1 in E.
    destruct (Forall2_lookup_l _ _ _ r (Z.of_nat r) E) as (a_r & Ha_r & Hld).
    { rewrite lookup_seqZ. lia. }
    rewrite HA in Hld by lia. osimpl in Hld. injection Hld as <-.
    rewrite Ha_r. done.
  - exfalso.
    assert (is_Some (mapM (λ r : Z, load A (a0 + r * KC + k)
                             ≫= λ a : F, Some (replicate 8 a)) (seqZ 0 8)))
      as [? Hs]; [|congruence].
    apply mapM_is_Some_2. apply Forall_seqZ. intros r Hr. unfold compose.
    replace r with (Z.of_nat (Z.to_nat r)) by lia.
    rewrite HA by lia. done.
Qed.



Lemma store_rows_spec (acc : list (list F)) :
  ∀ (C : list F) c0 ld r,
  8 ≤ ld → 0 ≤ r →
  (∀ row, row ∈ acc → length row = 8%nat) →
  0 ≤ c0 →
  (acc ≠ [] →
   c0 + (r + Z.of_nat (length acc) - 1) * ld + 8 ≤ Z.of_nat (length C)) →
  ∃ C', store_rows C c0 ld r acc = Some C' ∧ length C' = length C ∧
    (∀ (q l : nat) row, acc !! q = Some row → (l < 8)%nat →
       load C' (c0 + (r + Z.of_nat q) * ld + Z.of_nat l) = row !! l) ∧
    (∀ p, (∀ q l : nat, (q < length acc)%nat → (l < 8)%nat →
             p ≠ c0 + (r + Z.of_nat q) * ld + Z.of_nat l) →
       load C' p = load C p).
Proof.
  induction acc as [|row acc IH]; intros C c0 ld r Hld Hr Hrows Hc0 Hfit;
    simpl.
  - exists C. repeat split; auto. intros q l row Hq. done.
  - assert (length row = 8%nat) as Hlrow by (apply Hrows; left).
    specialize (Hfit ltac:(done)). simpl in Hfit.
    unfold mm256_storeu_ps.
    destruct (store_n_Some C (c0 + r * ld) row) as [C1 HC1]; [nia..|].
    rewrite HC1. osimpl.
    apply store_n_inv in HC1 as (Hlen1 & Hin1 & Hout1).
    assert (∀ row', row' ∈ acc → length row' = 8%nat) as Hrows'.
    { intros row' Hrow'. apply Hrows. by right. }
    assert (acc ≠ [] →
            c0 + (r + 1 + Z.of_nat (length acc) - 1) * ld + 8
              ≤ Z.of_nat (length C1)) as Hfit'.
    { intros Hne. rewrite Hlen1. nia. }
    destruct (IH C1 c0 ld (r + 1) Hld ltac:(lia) Hrows' Hc0 Hfit')
      as (C' & HC' & Hlen' & Hin' & Hout').
    exists C'. split; [done|]. split; [congruence|]. split.
    + intros [|q] l row' Hq Hl; simpl in Hq.
      * injection Hq as <-. rewrite Hout'.
        -- replace (r + Z.of_nat 0) with r by lia. apply Hin1. lia.
        -- intros q l' Hq' Hl'. nia.
      * replace (r + Z.of_nat (Datatypes.S q)) with (r + 1 + Z.of_nat q)
          by lia. by apply Hin'.
    + intros p Hp. rewrite Hout'.
      * apply Hout1. rewrite Hlrow. intros Hpr.
        apply (Hp 0%nat (Z.to_nat (p - (c0 + r * ld)))); simpl; lia.
      * intros q l Hq Hl. specialize (Hp (Datatypes.S q) l). simpl in Hp.
        replace (r + 1 + Z.of_nat q) with (r + Z.of_nat (Datatypes.S q))
          by lia. apply Hp; lia.
Qed.



(** *** [gemm_mk_avx2] *)




End Rep.

(** * Part III: the properties of the library *)

Section Properties.
Context {F : Type} `{!FloatOps F} `{!Allocator F} `{!Inhabited F}.

(** The three readings of a multiply-accumulate step: the scalar one,
    the scalar or the fused one, and no constraint. *)
Definition scalar_step (a b c v : F) : Prop := v = fadd c (fmul a b).



Lemma entry_load (m : list F) ld i j v :
  load m (i * ld + j) = Some v → entry m ld i j = v.
Proof. unfold entry. by intros ->. Qed.

Lemma fits_load (m : list F) rows cols ld i j :
  fits m rows cols ld → cols ≤ ld → 0 ≤ i < rows → 0 ≤ j < cols →
  load m (i * ld + j) = Some (entry m ld i j).
Proof.
  intros Hfit Hld Hi Hj.
  destruct (load_is_Some m (i * ld + j)) as [v Hv].
  { apply (rowmajor_bounds _ rows cols); auto. }
  by rewrite (entry_load _ _ _ _ _ Hv).
Qed.

Lemma accR_scalar_det (aval bval : Z → Z → F) i j k0 k1 c v :
  accR scalar_step aval bval i j k0 k1 c v →
  v = fold_left (fun c k => fadd c (fmul (aval i k) (bval k j)))
        (seqZ k0 (k1 - k0)) c.
Proof.
  induction 1 as [c|k c v v' Hacc IH Hstep].
  - by rewrite Z.sub_diag.
  - pose proof (accR_le _ _ _ _ _ _ _ _ _ Hacc) as Hle.
    replace (k + 1 - k0) with ((k - k0) + 1) by lia.
    rewrite seqZ_app by lia. rewrite fold_left_app, <- IH.
    replace (k0 + (k - k0)) with k by lia.
    rewrite seqZ_cons, seqZ_nil by lia. simpl. exact Hstep.
Qed.


(** What the final representation says in terms of [dot_acc]. *)
Lemma Rep_scalar_final A B lda ldb M N K ldc C0 C' :
  Rep scalar_step (entry A lda) (entry B ldb) M N ldc C0 (fun _ _ => K) C' →
  length C' = length C0 ∧
  (∀ i j, 0 ≤ i < M → 0 ≤ j < N →
     load C' (i * ldc + j)
       = Some (dot_acc A B lda ldb i j K (entry C0 ldc i j))) ∧
  (∀ p, (∀ i j, 0 ≤ i < M → 0 ≤ j < N → p ≠ i * ldc + j) →
     load C' p = load C0 p).
Proof.
  intros (Hlen & Hin & Hout). split; [done|]. split; [|done].
  intros i j Hi Hj. destruct (Hin i j Hi Hj) as (c & v & Hc & -> & Hacc).
  apply accR_scalar_det in Hacc. rewrite Z.sub_0_r in Hacc.
  rewrite (entry_load _ _ _ _ _ Hc). unfold dot_acc. by rewrite Hacc.
Qed.

(** ** C2: [gemm_naive] accumulates in place *)

(** C2.  For all [M, N, K >= 0] and strides [lda >= K], [ldb >= N],
    [ldc >= N] (the three matrices lying inside their buffers),
    [gemm_naive] returns, and on return every entry [C[i*ldc + j]] with
    [i < M], [j < N] holds its previous value plus the products
    [A[i*lda + k] * B[k*ldb + j]] accumulated for [k = 0 .. K-1] in
    increasing order, while every other float of the buffer is as it
    was (A and B are read-only). *)
Theorem gemm_naive_accumulates_in_place
    (M N K : Z) (A B C : list F) (lda ldb ldc : Z) :
  0 ≤ M → 0 ≤ N → 0 ≤ K → K ≤ lda → N ≤ ldb → N ≤ ldc →
  fits A M K lda → fits B K N ldb → fits C M N ldc →
  ∃ C', gemm_naive M N K A B C lda ldb ldc = Returns C' ∧
    length C' = length C ∧
    (∀ i j, 0 ≤ i < M → 0 ≤ j < N →
       load C' (i * ldc + j)
         = Some (dot_acc A B lda ldb i j K (entry C ldc i j))) ∧
    (∀ p, (∀ i j, 0 ≤ i < M → 0 ≤ j < N → p ≠ i * ldc + j) →
       load C' p = load C p).
Proof.
  intros HM HN HK Hlda Hldb Hldc HfA HfB HfC.
  destruct (gemm_naive_Rep scalar_step (entry A lda) (entry B ldb)
              M N ldc C Hldc K A B lda ldb) as (C' & Heq & HR); auto.
  - by intros a b c.
  - intros i k Hi Hk. by apply (fits_load _ M K).
  - intros k j Hk Hj. by apply (fits_load _ K N).
  - exists C'. split; [done|]. by apply Rep_scalar_final.
Qed.

(** ** C1: the blocked, packed and vectorised drivers against [gemm_naive] *)




(** ** C10: zero-extent calls *)





(** ** C6: the choice of the micro-kernel *)








(** ** C5: packing is a lossless copy *)

(** C5.  For all [MB, KB, NB >= 0] (the source blocks lying inside A
    and B, the panels being large enough): after [pack_A_panel] (and
    after [pack_A_panel_mk], which returns the same panel) every
    [A_packed[i*KB + k]] with [i < MB], [k < KB] is the float
    [A[i*lda + k]] of the source, and after [pack_B_panel] (and
    [pack_B_panel_mk]) every [B_packed[k*NB + j]] with [k < KB],
    [j < NB] is the float [B[k*ldb + j]]: the same value, untransformed. *)
Theorem packing_is_a_lossless_copy
    (MB KB NB : Z) (A : list F) (a0 lda : Z) (B : list F) (b0 ldb : Z)
    (A_packed B_packed : list F) :
  0 ≤ MB → 0 ≤ KB → 0 ≤ NB →
  block_inside A a0 MB KB lda → block_inside B b0 KB NB ldb →
  MB * KB ≤ Z.of_nat (length A_packed) →
  KB * NB ≤ Z.of_nat (length B_packed) →
  (∃ A_packed',
     pack_A_panel MB KB A a0 lda A_packed = Some A_packed' ∧
     pack_A_panel_mk MB KB A a0 lda A_packed = Some A_packed' ∧
     ∀ i k, 0 ≤ i < MB → 0 ≤ k < KB →
       ∃ v, load A (a0 + i * lda + k) = Some v ∧
            load A_packed' (i * KB + k) = Some v) ∧
  (∃ B_packed',
     pack_B_panel KB NB B b0 ldb B_packed = Some B_packed' ∧
     pack_B_panel_mk KB NB B b0 ldb B_packed = Some B_packed' ∧
     ∀ k j, 0 ≤ k < KB → 0 ≤ j < NB →
       ∃ v, load B (b0 + k * ldb + j) = Some v ∧
            load B_packed' (k * NB + j) = Some v).
Proof.
  intros HMB HKB HNB HA HB HlA HlB. split.
  - destruct (pack_A_panel_spec MB KB A a0 lda A_packed)
      as (P & Heq & _ & Hin & _); auto.
    exists P. split; [exact Heq|]. split; [exact Heq|].
    intros i k Hi Hk.
    destruct (load_is_Some A (a0 + i * lda + k)) as [v Hv]; [by apply HA|].
    exists v. split; [done|]. by rewrite Hin.
  - destruct (pack_A_panel_spec KB NB B b0 ldb B_packed)
      as (P & Heq & _ & Hin & _); auto.
    exists P. split; [exact Heq|]. split; [exact Heq|].
    intros k j Hk Hj.
    destruct (load_is_Some B (b0 + k * ldb + j)) as [v Hv]; [by apply HB|].
    exists v. split; [done|]. by rewrite Hin.
Qed.

(** ** C7: the tiles partition the output *)


(** ** C8: the packed and the strided kernels *)

Lemma mm256_load_ps_aligned base (B : list F) b0 k :
  (base + 4 * b0) mod 32 = 0 →
  mm256_load_ps base B (b0 + k * 8) = mm256_loadu_ps B (b0 + k * 8).
Proof.
  intros Hal. unfold mm256_load_ps, mm256_loadu_ps.
  rewrite decide_True; [done|].
  replace (base + 4 * (b0 + k * 8)) with (base + 4 * b0 + k * 32) by lia.
  by rewrite Z_mod_plus_full.
Qed.


(** ** C9 and C3: the errors of the dispatcher *)

(** C9.  For every input, [gemm_openblas] and [run_gemm] with the name
    ["openblas"] throw the backend-unavailable error, the output buffer
    being still what the caller passed. *)
Theorem openblas_backend_is_unavailable
    (M N K : Z) (A B C : list F) (lda ldb ldc : Z) (bs : Block) :
  gemm_openblas M N K A B C lda ldb ldc bs
    = Throws "OpenBLAS not available - install via vcpkg install openblas:x64-windows" C ∧
  run_gemm "openblas" M N K A B C lda ldb ldc bs
    = Throws "OpenBLAS not available - install via vcpkg install openblas:x64-windows" C.
Proof. split; reflexivity. Qed.

(** C3.  For every name other than ["naive"], ["blocked"], ["packed"],
    ["mk_avx2"] and ["openblas"], and for all other arguments,
    [run_gemm] throws the unknown-implementation error: the outcome is
    the exception alone, no implementation has been entered, and the
    output buffer is still what the caller passed. *)
Theorem unknown_implementation_is_rejected
    (impl : string) (M N K : Z) (A B C : list F) (lda ldb ldc : Z)
    (bs : Block) :
  impl ≠ "naive"%string → impl ≠ "blocked"%string →
  impl ≠ "packed"%string → impl ≠ "mk_avx2"%string →
  impl ≠ "openblas"%string →
  run_gemm impl M N K A B C lda ldb ldc bs
    = Throws ("Unknown implementation: " ++ impl) C.
Proof.
  intros H1 H2 H3 H4 H5. unfold run_gemm.
  apply String.eqb_neq in H1, H2, H3, H4, H5.
  by rewrite H1, H2, H3, H4, H5.
Qed.

(** ** C4: non-positive tile sizes *)

Lemma tile_bounds_inv M N MB NB nJ t ii iMax jj jMax :
  tile_bounds M N MB NB nJ t = Some (ii, iMax, jj, jMax) →
  iMax = Z.min (ii + MB) M ∧ jMax = Z.min (jj + NB) N.
Proof.
  unfold tile_bounds, idiv, imod. case_decide; [done|]. osimpl.
  by intros [= <- <- <- <-].
Qed.

Lemma row_fma_tail_empty (a : F) B b_row C c_row jlo jhi :
  jhi ≤ jlo → row_fma_tail a B b_row C c_row jlo jhi = Some C.
Proof.
  intros Hle. unfold row_fma_tail.
  rewrite for_from_empty by lia. osimpl.
  by rewrite for_from_empty by lia.
Qed.

(** The row-by-depth loop nests change nothing when there is no row or
    no column to update. *)
Lemma ik_rows_noop (rowload : Z → Z → option F)
    (rowop : Z → Z → F → list F → option (list F)) ilo ihi klo khi C C' :
  (ihi ≤ ilo ∨ ∀ i k a C, rowop i k a C = Some C) →
  for_loop ilo ihi 1 (fun i C =>
    for_loop klo khi 1 (fun k C => a ← rowload i k; rowop i k a C) C) C
    = Some C' →
  C' = C.
Proof.
  intros [Hrows|Hcols].
  - rewrite for_loop_empty by lia. by intros [= <-].
  - intros Hrun.
    apply (for_loop_preserves (fun C1 => C1 = C)) in Hrun; [done| |done].
    intros i C1 C2 -> Hrun2.
    apply (for_loop_preserves (fun C1 => C1 = C)) in Hrun2; [done| |done].
    intros k C3 C4 ->. destruct (rowload i k) as [a|]; [|done]. osimpl.
    rewrite Hcols. by intros [= <-].
Qed.

Lemma micro_kernel_packed_noop mb nb kb (Ap Bp C : list F) c0 ldc C' :
  mb ≤ 0 ∨ nb ≤ 0 →
  micro_kernel_packed mb nb kb Ap Bp C c0 ldc = Some C' → C' = C.
Proof.
  intros Hz. unfold micro_kernel_packed.
  apply (ik_rows_noop (fun i k => load Ap (i * kb + k))
           (fun i k a C => row_fma_tail a Bp (k * nb) C (c0 + i * ldc) 0 nb)).
  destruct Hz as [Hmb|Hnb]; [by left|right].
  intros i k a C1. by apply row_fma_tail_empty.
Qed.

Lemma mk_tile_sweep_noop mb nb kb (Ap Bp : list F) ii jj ldc st st' :
  mb ≤ 0 ∨ nb ≤ 0 →
  mk_tile_sweep mb nb kb Ap Bp ii jj ldc st = Some st' → st' = st.
Proof.
  intros [Hmb|Hnb]; unfold mk_tile_sweep.
  - rewrite for_loop_empty by lia. by intros [= <-].
  - intros Hrun.
    apply (for_loop_preserves (fun s => s = st)) in Hrun; [done| |done].
    intros i0 s1 s2 ->. rewrite for_loop_empty by lia. by intros [= <-].
Qed.

Definition alloc_failure : string :=
  "Failed to allocate aligned panel memory".

(** C4, as amended.  The drivers do not validate the tile sizes and no
    configuration error exists.  With a non-positive tile size,
    [gemm_blocked], [gemm_packed] and [gemm_mk_avx2] (called directly
    or through [run_gemm]) never change the output buffer: the call
    returns normally with the buffer as it was, or its behaviour is
    undefined (a division by zero, a depth loop that is never left, an
    access outside a buffer), or, in [gemm_packed] and [gemm_mk_avx2],
    the allocation of a scratch panel throws its own error. *)
Theorem tile_sizes_are_not_validated
    (M N K : Z) (A B C : list F) (lda ldb ldc : Z) (bs : Block) :
  MB bs ≤ 0 ∨ NB bs ≤ 0 ∨ KB bs ≤ 0 →
  (gemm_blocked M N K A B C lda ldb ldc bs = Returns C ∨
   gemm_blocked M N K A B C lda ldb ldc bs = Undefined) ∧
  (gemm_packed M N K A B C lda ldb ldc bs = Returns C ∨
   gemm_packed M N K A B C lda ldb ldc bs = Undefined ∨
   gemm_packed M N K A B C lda ldb ldc bs = Throws alloc_failure C) ∧
  (gemm_mk_avx2 M N K A B C lda ldb ldc bs = Returns C ∨
   gemm_mk_avx2 M N K A B C lda ldb ldc bs = Undefined ∨
   gemm_mk_avx2 M N K A B C lda ldb ldc bs = Throws alloc_failure C) ∧
  run_gemm "blocked" M N K A B C lda ldb ldc bs
    = gemm_blocked M N K A B C lda ldb ldc bs ∧
  run_gemm "packed" M N K A B C lda ldb ldc bs
    = gemm_packed M N K A B C lda ldb ldc bs ∧
  run_gemm "mk_avx2" M N K A B C lda ldb ldc bs
    = gemm_mk_avx2 M N K A B C lda ldb ldc bs.
Proof.
  intros Hbad. split; [|split; [|split; [|by repeat split]]].
  - (* gemm_blocked *)
    unfold gemm_blocked.
    destruct (idiv (M + MB bs - 1) (MB bs)) as [nI|]; [|by right].
    destruct (idiv (N + NB bs - 1) (NB bs)) as [nJ|]; [|by right].
    osimpl.
    match goal with
    | |- context [for_loop 0 ?n 1 ?body C] =>
        destruct (for_loop 0 n 1 body C) as [C'|] eqn:Hrun; [left|by right]
    end.
    apply (for_loop_preserves (fun C1 => C1 = C)) in Hrun;
      [by rewrite Hrun| |done].
    intros t C1 C2 ->.
    destruct (tile_bounds M N (MB bs) (NB bs) nJ t)
      as [[[[ii iMax] jj] jMax]|] eqn:Htb; [|done].
    apply tile_bounds_inv in Htb as [-> ->]. osimpl.
    destruct (decide (KB bs ≤ 0)) as [HKB|HKB].
    + match goal with
      | |- for_loop 0 K (KB bs) ?body C = _ → _ =>
          destruct (for_loop_nonpos_step 0 K (KB bs) body C HKB) as [-> | ->]
      end; [by intros [= <-]|done].
    + intros Hkk.
      apply (for_loop_preserves (fun C1 => C1 = C)) in Hkk; [done| |done].
      intros kk C3 C4 ->.
      apply (ik_rows_noop (fun i k => load A (i * lda + k))
               (fun i k a C =>
                  row_fma_tail a B (k * ldb) C (i * ldc) jj
                    (Z.min (jj + NB bs) N))).
      destruct (decide (MB bs ≤ 0)); [left; lia|right].
      intros i k a C5. apply row_fma_tail_empty. lia.
  - (* gemm_packed *)
    unfold gemm_packed.
    destruct (idiv (M + MB bs - 1) (MB bs)) as [nI|]; [|by right; left].
    destruct (idiv (N + NB bs - 1) (NB bs)) as [nJ|]; [|by right; left].
    unfold alloc_aligned_panel.
    destruct (posix_memalign_ok _); [|by right; right].
    destruct (posix_memalign_ok _); [|by right; right].
    match goal with
    | |- context [for_loop 0 ?n 1 ?body ?s0] =>
        destruct (for_loop 0 n 1 body s0) as [s'|] eqn:Hrun;
          [left|by right; left]
    end.
    apply (for_loop_preserves (fun s => s.2 = C)) in Hrun;
      [simpl; by rewrite Hrun| |done].
    intros t [[Ap Bp] C1] s2 HC1. simpl in HC1. subst C1.
    destruct (tile_bounds M N (MB bs) (NB bs) nJ t)
      as [[[[ii iMax] jj] jMax]|] eqn:Htb; [|done].
    apply tile_bounds_inv in Htb as [-> ->]. osimpl.
    destruct (decide (KB bs ≤ 0)) as [HKB|HKB].
    + match goal with
      | |- for_loop 0 K (KB bs) ?body ?s = _ → _ =>
          destruct (for_loop_nonpos_step 0 K (KB bs) body s HKB) as [-> | ->]
      end; [by intros [= <-]|done].
    + intros Hkk.
      apply (for_loop_preserves (fun s => s.2 = C)) in Hkk; [done| |done].
      intros kk [[Ap1 Bp1] C3] s4 HC3. simpl in HC3. subst C3.
      destruct (pack_A_panel _ _ _ _ _ _) as [Ap2|]; [|done]. osimpl.
      destruct (pack_B_panel _ _ _ _ _ _) as [Bp2|]; [|done]. osimpl.
      destruct (micro_kernel_packed _ _ _ _ _ _ _ _) as [C5|] eqn:Hmk;
        [|done]. osimpl.
      apply micro_kernel_packed_noop in Hmk; [|lia].
      intros [= <-]. done.
  - (* gemm_mk_avx2 *)
    unfold gemm_mk_avx2, gemm_mk_avx2_traced.
    destruct (idiv (M + MB bs - 1) (MB bs)) as [nI|]; [|by right; left].
    destruct (idiv (N + NB bs - 1) (NB bs)) as [nJ|]; [|by right; left].
    unfold alloc_aligned_panel.
    destruct (posix_memalign_ok _); [|by right; right].
    destruct (posix_memalign_ok _); [|by right; right].
    match goal with
    | |- context [for_loop 0 ?n 1 ?body ?s0] =>
        destruct (for_loop 0 n 1 body s0) as [s'|] eqn:Hrun;
          [left|by right; left]
    end.
    apply (for_loop_preserves (fun s => s.2.1 = C)) in Hrun;
      [simpl; by rewrite Hrun| |done].
    intros t [[Ap Bp] [C1 calls]] s2 HC1. simpl in HC1. subst C1.
    destruct (tile_bounds M N (MB bs) (NB bs) nJ t)
      as [[[[ii iMax] jj] jMax]|] eqn:Htb; [|done].
    apply tile_bounds_inv in Htb as [-> ->]. osimpl.
    destruct (decide (KB bs ≤ 0)) as [HKB|HKB].
    + match goal with
      | |- for_loop 0 K (KB bs) ?body ?s = _ → _ =>
          destruct (for_loop_nonpos_step 0 K (KB bs) body s HKB) as [-> | ->]
      end; [by intros [= <-]|done].
    + intros Hkk.
      apply (for_loop_preserves (fun s => s.2.1 = C)) in Hkk;
        [done| |done].
      intros kk [[Ap1 Bp1] [C3 calls3]] s4 HC3. simpl in HC3. subst C3.
      destruct (pack_A_panel_mk _ _ _ _ _ _) as [Ap2|]; [|done]. osimpl.
      destruct (pack_B_panel_mk _ _ _ _ _ _) as [Bp2|]; [|done]. osimpl.
      destruct (mk_tile_sweep _ _ _ _ _ _ _ _ _) as [st5|] eqn:Hmk;
        [|done]. osimpl.
      apply mk_tile_sweep_noop in Hmk; [|lia].
      intros [= <-]. by subst st5.
Qed.

End Properties.

(** * Part IV: concrete runs *)

(** ** Runs in exact arithmetic *)

Section ExactRuns.
Import Exact.


Lemma exact_panels_granted (bs : Block) :
  MB bs * KB bs < 2 ^ 62 → KB bs * NB bs < 2 ^ 62 →
  panels_granted (F := Z) bs.
Proof. intros H1 H2. by repeat split. Qed.

(** C2 at a 2x2x2 problem. *)
Lemma gemm_naive_accumulates_in_place_witness :
  ∃ C', gemm_naive 2 2 2 [1; 2; 3; 4] [5; 6; 7; 8] [1; 1; 1; 1] 2 2 2
          = Returns C' ∧
    length C' = length [1; 1; 1; 1] ∧
    (∀ i j, 0 ≤ i < 2 → 0 ≤ j < 2 →
       load C' (i * 2 + j)
         = Some (dot_acc [1; 2; 3; 4] [5; 6; 7; 8] 2 2 i j 2
                   (entry [1; 1; 1; 1] 2 i j))) ∧
    (∀ p, (∀ i j, 0 ≤ i < 2 → 0 ≤ j < 2 → p ≠ i * 2 + j) →
       load C' p = load [1; 1; 1; 1] p).
Proof.
  apply (gemm_naive_accumulates_in_place 2 2 2 [1; 2; 3; 4] [5; 6; 7; 8]
           [1; 1; 1; 1] 2 2 2); unfold fits; simpl; lia.
Defined.




(** The record of such a run with 8x16x2 blocks: the vector kernel on
    the full 8x8 tile, the scalar kernel on the 8x1 edge. *)
Example kernel_calls_of_an_8x9_run :
  gemm_mk_avx2_traced 8 9 2 (replicate 16 3) (replicate 18 5)
    (replicate 72 1) 2 9 9 {| MB := 8; NB := 16; KB := 2 |}
  = Returns (replicate 72 31,
      [ {| call_kernel := Kernel_mk8x8_avx2_strided;
           call_mr := 8; call_nr := 8; call_KC := 2;
           call_Ablk := 0; call_Bblk := 0; call_ldb := 9;
           call_Cblk := 0; call_ldc := 9 |};
        {| call_kernel := Kernel_mk_ref_strided;
           call_mr := 8; call_nr := 1; call_KC := 2;
           call_Ablk := 0; call_Bblk := 8; call_ldb := 9;
           call_Cblk := 8; call_ldc := 9 |} ]).
Proof. vm_compute. reflexivity. Qed.

(** C5 at a 2x2 block of a 2x3 matrix A and of a 2x3 matrix B. *)
Lemma packing_is_a_lossless_copy_witness :
  (∃ A_packed',
     pack_A_panel 2 2 [1; 2; 3; 4; 5; 6] 1 3 [0; 0; 0; 0] = Some A_packed' ∧
     pack_A_panel_mk 2 2 [1; 2; 3; 4; 5; 6] 1 3 [0; 0; 0; 0]
       = Some A_packed' ∧
     ∀ i k, 0 ≤ i < 2 → 0 ≤ k < 2 →
       ∃ v, load [1; 2; 3; 4; 5; 6] (1 + i * 3 + k) = Some v ∧
            load A_packed' (i * 2 + k) = Some v) ∧
  (∃ B_packed',
     pack_B_panel 2 2 [7; 8; 9; 10; 11; 12] 0 3 [0; 0; 0; 0]
       = Some B_packed' ∧
     pack_B_panel_mk 2 2 [7; 8; 9; 10; 11; 12] 0 3 [0; 0; 0; 0]
       = Some B_packed' ∧
     ∀ k j, 0 ≤ k < 2 → 0 ≤ j < 2 →
       ∃ v, load [7; 8; 9; 10; 11; 12] (0 + k * 3 + j) = Some v ∧
            load B_packed' (k * 2 + j) = Some v).
Proof.
  apply (packing_is_a_lossless_copy 2 2 2 [1; 2; 3; 4; 5; 6] 1 3
           [7; 8; 9; 10; 11; 12] 0 3 [0; 0; 0; 0] [0; 0; 0; 0]);
    first [lia | unfold block_inside; simpl; lia | simpl; lia].
Defined.

Example packed_panel_of_a_block :
  pack_A_panel 2 2 [1; 2; 3; 4; 5; 6] 1 3 [0; 0; 0; 0] = Some [2; 3; 5; 6].
Proof. reflexivity. Qed.



(** On a pointer that is not 32-byte aligned the two 8x8 kernels differ:
    the strided one returns, the packed one is undefined. *)
Example mk8x8_avx2_on_a_misaligned_panel :
  mk8x8_avx2_strided 1 (replicate 8 2) 0 (replicate 8 3) 0 8
    (replicate 64 1) 0 8 = Some (replicate 64 7) ∧
  mk8x8_avx2 1 (replicate 8 2) 0 (replicate 8 3) 64 0
    (replicate 64 1) 0 8 = Some (replicate 64 7) ∧
  mk8x8_avx2 1 (replicate 8 2) 0 (replicate 8 3) 4 0
    (replicate 64 1) 0 8 = None.
Proof. repeat split. Qed.

(** C3 at the name ["bogus"]. *)
Lemma unknown_implementation_is_rejected_witness :
  run_gemm "bogus" 2 2 2 [1; 2; 3; 4] [5; 6; 7; 8] [1; 1; 1; 1] 2 2 2
    default_Block
    = Throws ("Unknown implementation: " ++ "bogus") [1; 1; 1; 1].
Proof.
  apply (unknown_implementation_is_rejected "bogus" 2 2 2 [1; 2; 3; 4]
           [5; 6; 7; 8] [1; 1; 1; 1] 2 2 2 default_Block);
    discriminate.
Defined.

(** C4 (amended) at the row tile size [-1]. *)
Lemma tile_sizes_are_not_validated_witness :
  (gemm_blocked 2 2 2 [1; 2; 3; 4] [5; 6; 7; 8] [1; 1; 1; 1] 2 2 2
     {| MB := -1; NB := 256; KB := 256 |} = Returns [1; 1; 1; 1] ∨
   gemm_blocked 2 2 2 [1; 2; 3; 4] [5; 6; 7; 8] [1; 1; 1; 1] 2 2 2
     {| MB := -1; NB := 256; KB := 256 |} = Undefined) ∧
  (gemm_packed 2 2 2 [1; 2; 3; 4] [5; 6; 7; 8] [1; 1; 1; 1] 2 2 2
     {| MB := -1; NB := 256; KB := 256 |} = Returns [1; 1; 1; 1] ∨
   gemm_packed 2 2 2 [1; 2; 3; 4] [5; 6; 7; 8] [1; 1; 1; 1] 2 2 2
     {| MB := -1; NB := 256; KB := 256 |} = Undefined ∨
   gemm_packed 2 2 2 [1; 2; 3; 4] [5; 6; 7; 8] [1; 1; 1; 1] 2 2 2
     {| MB := -1; NB := 256; KB := 256 |}
     = Throws alloc_failure [1; 1; 1; 1]) ∧
  (gemm_mk_avx2 2 2 2 [1; 2; 3; 4] [5; 6; 7; 8] [1; 1; 1; 1] 2 2 2
     {| MB := -1; NB := 256; KB := 256 |} = Returns [1; 1; 1; 1] ∨
   gemm_mk_avx2 2 2 2 [1; 2; 3; 4] [5; 6; 7; 8] [1; 1; 1; 1] 2 2 2
     {| MB := -1; NB := 256; KB := 256 |} = Undefined ∨
   gemm_mk_avx2 2 2 2 [1; 2; 3; 4] [5; 6; 7; 8] [1; 1; 1; 1] 2 2 2
     {| MB := -1; NB := 256; KB := 256 |}
     = Throws alloc_failure [1; 1; 1; 1]) ∧
  run_gemm "blocked" 2 2 2 [1; 2; 3; 4] [5; 6; 7; 8] [1; 1; 1; 1] 2 2 2
    {| MB := -1; NB := 256; KB := 256 |}
    = gemm_blocked 2 2 2 [1; 2; 3; 4] [5; 6; 7; 8] [1; 1; 1; 1] 2 2 2
        {| MB := -1; NB := 256; KB := 256 |} ∧
  run_gemm "packed" 2 2 2 [1; 2; 3; 4] [5; 6; 7; 8] [1; 1; 1; 1] 2 2 2
    {| MB := -1; NB := 256; KB := 256 |}
    = gemm_packed 2 2 2 [1; 2; 3; 4] [5; 6; 7; 8] [1; 1; 1; 1] 2 2 2
        {| MB := -1; NB := 256; KB := 256 |} ∧
  run_gemm "mk_avx2" 2 2 2 [1; 2; 3; 4] [5; 6; 7; 8] [1; 1; 1; 1] 2 2 2
    {| MB := -1; NB := 256; KB := 256 |}
    = gemm_mk_avx2 2 2 2 [1; 2; 3; 4] [5; 6; 7; 8] [1; 1; 1; 1] 2 2 2
        {| MB := -1; NB := 256; KB := 256 |}.
Proof.
  apply (tile_sizes_are_not_validated 2 2 2 [1; 2; 3; 4] [5; 6; 7; 8]
           [1; 1; 1; 1] 2 2 2 {| MB := -1; NB := 256; KB := 256 |}).
  simpl. lia.
Defined.

(** C4 as stated fails: with the row tile size [-1] the dispatcher and
    [gemm_blocked] return normally, no error reaches the caller; with
    the row tile size 0 the call divides by zero. *)
Lemma configuration_error_counterexample :
  MB {| MB := -1; NB := 256; KB := 256 |} ≤ 0 ∧
  run_gemm "blocked" 2 2 2 [1; 2; 3; 4] [5; 6; 7; 8] [1; 1; 1; 1] 2 2 2
    {| MB := -1; NB := 256; KB := 256 |} = Returns [1; 1; 1; 1] ∧
  gemm_blocked 2 2 2 [1; 2; 3; 4] [5; 6; 7; 8] [1; 1; 1; 1] 2 2 2
    {| MB := -1; NB := 256; KB := 256 |} = Returns [1; 1; 1; 1] ∧
  run_gemm "blocked" 2 2 2 [1; 2; 3; 4] [5; 6; 7; 8] [1; 1; 1; 1] 2 2 2
    {| MB := 0; NB := 256; KB := 256 |} = Undefined.
Proof. repeat split; vm_compute; congruence. Qed.


End ExactRuns.

(** ** A run in binary32 *)

Section Binary32Runs.
Import Binary32.

(** [1 + 2^-12], its opposite, [1], [2^-30] and [+0]. *)
Definition x32 : spec_float := S754_finite false 8390656 (-23).
Definition nx32 : spec_float := S754_finite true 8390656 (-23).
Definition one32 : spec_float := S754_finite false 8388608 (-23).
Definition t32 : spec_float := S754_finite false 8388608 (-53).
Definition zero32 : spec_float := S754_zero false.

Definition B32 : list spec_float :=
  replicate 8 x32 ++ replicate 8 x32 ++ replicate 8 one32.
Definition block32 : Block := {| MB := 8; NB := 8; KB := 4 |}.



End Binary32Runs.

(** * Part V: the rounding of every entry *)

(** Part II bounds what a driver may do at an entry by a relation on
    values.  Which of the two roundings an entry receives depends on
    where it lies in its tile.  This part repeats the analysis with the
    admitted steps indexed by the entry, and with the output matrix
    starting at an offset [cb] of its buffer, as the micro-kernels see
    it. *)

(** ** Where the fused step is taken *)



Section At.
Context {F : Type} `{!FloatOps F} `{!Allocator F}.

(** [stepok i j a b c v]: [v] is an admitted result of the step
    [c += a * b] at entry [(i, j)]. *)
Variable stepok : Z → Z → F → F → F → F → Prop.
Variables aval bval : Z → Z → F.
Variables (M N ldc cb : Z) (C0 : list F).
Hypothesis HN : N ≤ ldc.

Inductive accAt (i j k0 : Z) : Z → F → F → Prop :=
| accAt_refl c : accAt i j k0 k0 c c
| accAt_step k c v v' :
    accAt i j k0 k c v →
    stepok i j (aval i k) (bval k j) v v' →
    accAt i j k0 (k + 1) c v'.

Lemma accAt_le i j k0 k1 c v : accAt i j k0 k1 c v → k0 ≤ k1.
Proof. induction 1; lia. Qed.

Lemma accAt_trans i j k0 k1 k2 c v w :
  accAt i j k0 k1 c v → accAt i j k1 k2 v w → accAt i j k0 k2 c w.
Proof.
  intros H1 H2. induction H2 as [|k v' w w' H2 IH Hs]; [done|].
  eapply accAt_step; eauto.
Qed.

Lemma accAt_one i j k c v :
  stepok i j (aval i k) (bval k j) c v → accAt i j k (k + 1) c v.
Proof. intros Hs. eapply accAt_step; [apply accAt_refl|done]. Qed.

(** Entry [(i, j)] of the matrix is the float [cb + i * ldc + j] of the
    buffer. *)
Definition RepAt (kd : Z → Z → Z) (C : list F) : Prop :=
  length C = length C0 ∧
  (∀ i j, 0 ≤ i < M → 0 ≤ j < N →
     ∃ c v, load C0 (cb + i * ldc + j) = Some c ∧
            load C (cb + i * ldc + j) = Some v ∧
            accAt i j 0 (kd i j) c v) ∧
  (∀ p, (∀ i j, 0 ≤ i < M → 0 ≤ j < N → p ≠ cb + i * ldc + j) →
     load C p = load C0 p).

Lemma RepAt_init : block_inside C0 cb M N ldc → RepAt (fun _ _ => 0) C0.
Proof.
  intros Hfit. split; [done|]. split; [|done].
  intros i j Hi Hj.
  destruct (load_is_Some C0 (cb + i * ldc + j)) as [c Hc].
  { by apply Hfit. }
  exists c, c. repeat split; auto. apply accAt_refl.
Qed.

Lemma RepAt_ext kd kd' C :
  (∀ i j, 0 ≤ i < M → 0 ≤ j < N → kd i j = kd' i j) →
  RepAt kd C → RepAt kd' C.
Proof.
  intros Heq (Hlen & Hin & Hout). split; [done|]. split; [|done].
  intros i j Hi Hj. destruct (Hin i j Hi Hj) as (c & v & ? & ? & ?).
  exists c, v. rewrite <- Heq by done. auto.
Qed.

Lemma RepAt_load kd C i j :
  RepAt kd C → 0 ≤ i < M → 0 ≤ j < N →
  ∃ v, load C (cb + i * ldc + j) = Some v.
Proof.
  intros (_ & Hin & _) Hi Hj. destruct (Hin i j Hi Hj) as (c & v & ? & ? & ?).
  eauto.
Qed.

Lemma RepAt_rect kd C C' i0 i1 j0 j1 k0 k1 :
  RepAt kd C →
  0 ≤ i0 → i1 ≤ M → 0 ≤ j0 → j1 ≤ N →
  (∀ i j, i0 ≤ i < i1 → j0 ≤ j < j1 → kd i j = k0) →
  length C' = length C →
  (∀ i j, i0 ≤ i < i1 → j0 ≤ j < j1 →
     ∃ v v', load C (cb + i * ldc + j) = Some v ∧
             load C' (cb + i * ldc + j) = Some v' ∧
             accAt i j k0 k1 v v') →
  (∀ p, (∀ i j, i0 ≤ i < i1 → j0 ≤ j < j1 → p ≠ cb + i * ldc + j) →
     load C' p = load C p) →
  RepAt (kd_set kd i0 i1 j0 j1 k1) C'.
Proof.
  intros (Hlen & Hin & Hout) Hi0 Hi1 Hj0 Hj1 Hkd Hlen' Hupd Hframe.
  split; [congruence|]. split.
  - intros i j Hi Hj. unfold kd_set.
    destruct (Hin i j Hi Hj) as (c & v & Hc & Hv & Hacc).
    case_decide as Hr.
    + destruct (Hupd i j) as (v1 & v' & Hv1 & Hv' & Hacc'); [lia..|].
      exists c, v'. repeat split; auto.
      rewrite Hkd in Hacc by lia.
      assert (v1 = v) as -> by congruence.
      eapply accAt_trans; eauto.
    + exists c, v. repeat split; auto.
      rewrite Hframe; [done|].
      intros i' j' Hi' Hj' Heq.
      assert (i * ldc + j = i' * ldc + j') as Heq' by lia.
      apply rowmajor_inj in Heq'; [|lia..]. lia.
  - intros p Hp. rewrite Hframe, Hout; auto.
    intros i j Hi Hj. apply Hp; lia.
Qed.

(** The entries at which the scalar, or the fused, step is admitted. *)
Definition scalar_at (i j : Z) : Prop :=
  ∀ a b c, stepok i j a b c (fadd c (fmul a b)).
Definition fused_at (i j : Z) : Prop :=
  ∀ a b c, stepok i j a b c (fmadd a b c).

Ltac kd_solve :=
  intros; unfold kd_set; repeat case_decide; first [lia | done].

Lemma scalar_row_at kd C a B b_row c_row gi gj k jlo jhi :
  RepAt kd C →
  0 ≤ gi < M → 0 ≤ gj + jlo → gj + jhi ≤ N → jlo ≤ jhi →
  c_row = cb + gi * ldc + gj →
  a = aval gi k →
  (∀ j, jlo ≤ j < jhi → scalar_at gi (gj + j)) →
  (∀ j, jlo ≤ j < jhi → kd gi (gj + j) = k) →
  (∀ j, jlo ≤ j < jhi → load B (b_row + j) = Some (bval k (gj + j))) →
  ∃ C', for_from jlo jhi 1 (fun j C =>
            c ← load C (c_row + j);
            b ← load B (b_row + j);
            store C (c_row + j) (fadd c (fmul a b))) C = Some (jhi, C') ∧
        RepAt (kd_set kd gi (gi + 1) (gj + jlo) (gj + jhi) (k + 1)) C'.
Proof.
  intros HRep Hgi Hlo Hhi Hle -> -> Hs Hkd HB.
  match goal with
  | |- context [for_from ?lo ?hi ?step ?body ?s] =>
      destruct (for_from_rule
        (fun j C => jlo ≤ j ≤ jhi ∧
           RepAt (kd_set kd gi (gi + 1) (gj + jlo) (gj + j) (k + 1)) C)
        lo hi step body s) as (kf & C' & Heq & (Hkf & HRep') & H1 & H2 & H3)
  end.
  - lia.
  - simpl. intros j C1 Hj (Hjr & HR).
    replace (cb + gi * ldc + gj + j) with (cb + gi * ldc + (gj + j)) by lia.
    destruct (RepAt_load _ _ gi (gj + j) HR) as [v Hv]; [lia..|].
    rewrite Hv. simpl. rewrite HB by lia. simpl.
    destruct (store_Some C1 (cb + gi * ldc + (gj + j))
                (fadd v (fmul (aval gi k) (bval k (gj + j)))))
      as [C2 HC2]; [by eapply load_Some|].
    exists C2. split; [done|]. split; [lia|].
    apply store_inv in HC2 as (Hlen & Hnew & Hold).
    eapply RepAt_ext;
      [|eapply (RepAt_rect _ C1 C2 gi (gi + 1) (gj + j) (gj + j + 1) k (k + 1));
        eauto; try lia].
    + kd_solve.
    + intros i j' Hi Hj'. unfold kd_set. rewrite decide_False by lia.
      replace i with gi by lia. replace j' with (gj + j) by lia.
      apply Hkd. lia.
    + intros i j' Hi Hj'. replace i with gi by lia.
      replace j' with (gj + j) by lia.
      exists v, (fadd v (fmul (aval gi k) (bval k (gj + j)))).
      repeat split; auto. apply accAt_one. apply Hs. lia.
    + intros p Hp. apply Hold. apply Hp; lia.
  - split; [lia|]. eapply RepAt_ext; [|exact HRep]. kd_solve.
  - assert (kf = jhi) as -> by lia. eauto.
Qed.

Lemma ik_loops_at (rowop : Z → Z → list F → option (list F))
    gi0 kbase ilo ihi klo khi c1 c2 kd C :
  (∀ i k kd C, ilo ≤ i < ihi → klo ≤ k < khi → RepAt kd C →
     (∀ j, c1 ≤ j < c2 → kd (gi0 + i) j = kbase + k) →
     ∃ C', rowop i k C = Some C' ∧
           RepAt (kd_set kd (gi0 + i) (gi0 + i + 1) c1 c2 (kbase + k + 1)) C') →
  ilo ≤ ihi → klo ≤ khi →
  RepAt kd C →
  (∀ i j, gi0 + ilo ≤ i < gi0 + ihi → c1 ≤ j < c2 → kd i j = kbase + klo) →
  ∃ C', for_loop ilo ihi 1 (fun i C =>
          for_loop klo khi 1 (fun k C => rowop i k C) C) C = Some C' ∧
        RepAt (kd_set kd (gi0 + ilo) (gi0 + ihi) c1 c2 (kbase + khi)) C'.
Proof.
  intros Hrow Hi Hk HRep Hkd.
  apply (for_loop_rule
    (fun i C => RepAt (kd_set kd (gi0 + ilo) (gi0 + i) c1 c2 (kbase + khi)) C));
    [done| |eapply RepAt_ext; [|exact HRep]; kd_solve].
  intros i C1 Hir HR1.
  destruct (for_loop_rule
    (fun k C => RepAt (kd_set (kd_set kd (gi0 + ilo) (gi0 + i) c1 c2 (kbase + khi))
                            (gi0 + i) (gi0 + i + 1) c1 c2 (kbase + k)) C)
    klo khi (fun k C => rowop i k C) C1) as (C2 & Heq & HR2); [done| | |].
  - intros k C3 Hkr HR3.
    destruct (Hrow i k _ C3 Hir Hkr HR3) as (C4 & HC4 & HR4); [kd_solve|].
    exists C4. split; [done|]. eapply RepAt_ext; [|exact HR4]. kd_solve.
  - eapply RepAt_ext; [|exact HR1].
    intros i' j' Hi' Hj'. unfold kd_set. repeat case_decide; try lia.
    rewrite Hkd by lia. done.
  - exists C2. split; [done|]. eapply RepAt_ext; [|exact HR2]. kd_solve.
Qed.

Lemma vec8_at kd C a B b_row c_row gi gj k j :
  RepAt kd C →
  0 ≤ gi < M → 0 ≤ gj + j → gj + j + 8 ≤ N →
  c_row = cb + gi * ldc + gj →
  a = aval gi k →
  (∀ d, 0 ≤ d < 8 → fused_at gi (gj + j + d)) →
  (∀ d, 0 ≤ d < 8 → kd gi (gj + j + d) = k) →
  (∀ d, 0 ≤ d < 8 → load B (b_row + j + d) = Some (bval k (gj + j + d))) →
  ∃ C', (b8 ← mm256_loadu_ps B (b_row + j);
         c8 ← mm256_loadu_ps C (c_row + j);
         mm256_storeu_ps C (c_row + j)
           (mm256_fmadd_ps (mm256_set1_ps a) b8 c8)) = Some C' ∧
        RepAt (kd_set kd gi (gi + 1) (gj + j) (gj + j + 8) (k + 1)) C'.
Proof.
  intros HR Hgi Hlo Hhi -> -> Hv Hkd HB.
  unfold mm256_loadu_ps, mm256_storeu_ps.
  pose proof (load_Some _ _ _ (HB 0 ltac:(lia))) as HB0.
  pose proof (load_Some _ _ _ (HB 7 ltac:(lia))) as HB7.
  destruct (load_n_Some B (b_row + j) 8) as [b8 Hb8]; [lia..|].
  rewrite Hb8. osimpl.
  destruct (RepAt_load _ _ gi (gj + j) HR) as [v0 Hv0]; [lia..|].
  destruct (RepAt_load _ _ gi (gj + j + 7) HR) as [v7 Hv7]; [lia..|].
  apply load_Some in Hv0, Hv7.
  destruct (load_n_Some C (cb + gi * ldc + gj + j) 8) as [c8 Hc8]; [lia..|].
  rewrite Hc8. osimpl.
  apply load_n_inv in Hb8 as [Hlb Hb8], Hc8 as [Hlc Hc8].
  set (r8 := mm256_fmadd_ps (mm256_set1_ps (aval gi k)) b8 c8).
  assert (length r8 = 8%nat) as Hlr.
  { apply mm256_fmadd_ps_length; [apply length_replicate|done|done]. }
  destruct (store_n_Some C (cb + gi * ldc + gj + j) r8) as [C' HC']; [lia..|].
  rewrite HC'. exists C'. split; [done|].
  apply store_n_inv in HC' as (Hlen & Hin & Hout).
  eapply (RepAt_rect _ C C' gi (gi + 1) (gj + j) (gj + j + 8) k (k + 1));
    eauto; try lia.
  - intros i j' Hi Hj'. replace i with gi by lia.
    replace j' with (gj + j + (j' - (gj + j))) by lia. apply Hkd. lia.
  - intros i j' Hi Hj'. replace i with gi by lia.
    assert (∃ d : nat, (d < 8)%nat ∧ j' = gj + j + Z.of_nat d)
      as (d & Hd & ->) by (exists (Z.to_nat (j' - (gj + j))); lia).
    destruct (RepAt_load _ _ gi (gj + j + Z.of_nat d) HR) as [v Hv']; [lia..|].
    assert (c8 !! d = Some v) as Hcd.
    { rewrite Hc8 by done. rewrite <- Hv'. f_equal; lia. }
    assert (b8 !! d = Some (bval k (gj + j + Z.of_nat d))) as Hbd.
    { rewrite Hb8 by done. rewrite <- HB by lia. f_equal; lia. }
    exists v, (fmadd (aval gi k) (bval k (gj + j + Z.of_nat d)) v).
    split; [done|]. split; [|apply accAt_one, Hv; lia].
    replace (cb + gi * ldc + (gj + j + Z.of_nat d))
      with (cb + gi * ldc + gj + j + Z.of_nat d) by lia.
    rewrite Hin by lia. apply mm256_fmadd_ps_lookup; auto.
    apply lookup_replicate_2. done.
  - intros p Hp. apply Hout. rewrite Hlr. intros Hr.
    apply (Hp gi (p - cb - gi * ldc)); lia.
Qed.

(** The row update of [gemm_blocked] and [micro_kernel_packed] on the
    columns [jlo <= j < jhi]: the first [8 * ((jhi - jlo) / 8)] columns
    take the fused step, the others the scalar one. *)
Lemma row_fma_tail_at kd C a B b_row c_row gi gj k jlo jhi :
  RepAt kd C →
  0 ≤ gi < M → 0 ≤ gj + jlo → gj + jhi ≤ N → jlo ≤ jhi →
  c_row = cb + gi * ldc + gj →
  a = aval gi k →
  (∀ j, jlo ≤ j < jlo + 8 * ((jhi - jlo) / 8) → fused_at gi (gj + j)) →
  (∀ j, jlo + 8 * ((jhi - jlo) / 8) ≤ j < jhi → scalar_at gi (gj + j)) →
  (∀ j, jlo ≤ j < jhi → kd gi (gj + j) = k) →
  (∀ j, jlo ≤ j < jhi → load B (b_row + j) = Some (bval k (gj + j))) →
  ∃ C', row_fma_tail a B b_row C c_row jlo jhi = Some C' ∧
        RepAt (kd_set kd gi (gi + 1) (gj + jlo) (gj + jhi) (k + 1)) C'.
Proof.
  intros HRep Hgi Hlo Hhi Hle Hc Ha Hv Hs Hkd HB. unfold row_fma_tail.
  pose proof (Z.div_mod (jhi - jlo) 8 ltac:(lia)) as Hdm.
  pose proof (Z.mod_pos_bound (jhi - jlo) 8 ltac:(lia)) as Hmod.
  match goal with
  | |- context [for_from jlo ?hi 8 ?body ?s] =>
      destruct (for_from_rule
        (fun j C => jlo ≤ j ≤ jhi ∧ (∃ q, j = jlo + 8 * q) ∧
           RepAt (kd_set kd gi (gi + 1) (gj + jlo) (gj + j) (k + 1)) C)
        jlo hi 8 body s)
        as (kf & C1 & Heq & (Hkf & (q & Hq) & HR1) & H1 & H2 & H3)
  end.
  - lia.
  - intros j C2 Hj (Hjr & (q & Hq) & HR2). cbv zeta.
    destruct (vec8_at _ C2 a B b_row c_row gi gj k j HR2)
      as (C3 & HC3 & HR3); auto; try lia.
    + intros d Hd. replace (gj + j + d) with (gj + (j + d)) by lia.
      apply Hv. lia.
    + intros d Hd. unfold kd_set. rewrite decide_False by lia.
      replace (gj + j + d) with (gj + (j + d)) by lia. apply Hkd. lia.
    + intros d Hd. replace (b_row + j + d) with (b_row + (j + d)) by lia.
      replace (gj + j + d) with (gj + (j + d)) by lia. apply HB. lia.
    + exists C3. split; [exact HC3|]. split; [lia|].
      split; [exists (q + 1); lia|].
      eapply RepAt_ext; [|exact HR3]. kd_solve.
  - split; [lia|]. split; [exists 0; lia|].
    eapply RepAt_ext; [|exact HRep]. kd_solve.
  - rewrite Heq. simpl.
    destruct (scalar_row_at _ C1 a B b_row c_row gi gj k kf jhi HR1)
      as (C4 & HC4 & HR4); auto; try lia.
    + intros j Hj. apply Hs. lia.
    + intros j Hj. unfold kd_set. rewrite decide_False by lia.
      apply Hkd. lia.
    + intros j Hj. apply HB. lia.
    + rewrite HC4. simpl. exists C4. split; [done|].
      eapply RepAt_ext; [|exact HR4]. kd_solve.
Qed.

(** *** Tiles and depth chunks *)



(** *** [gemm_blocked] *)


(** *** [gemm_packed] *)

(** The block of C starts at entry [(ii, jj)]; its first
    [8 * (nb / 8)] columns take the fused step. *)
Lemma micro_kernel_packed_at kd C Apk Bpk ii jj kk mb nb kb :
  RepAt kd C →
  0 ≤ ii → ii + mb ≤ M → 0 ≤ jj → jj + nb ≤ N → 0 ≤ kk →
  0 ≤ mb → 0 ≤ nb → 0 ≤ kb →
  (∀ i l, ii ≤ i < ii + mb → 0 ≤ l < 8 * (nb / 8) → fused_at i (jj + l)) →
  (∀ i l, ii ≤ i < ii + mb → 8 * (nb / 8) ≤ l < nb → scalar_at i (jj + l)) →
  (∀ i k, 0 ≤ i < mb → 0 ≤ k < kb →
     load Apk (i * kb + k) = Some (aval (ii + i) (kk + k))) →
  (∀ k j, 0 ≤ k < kb → 0 ≤ j < nb →
     load Bpk (k * nb + j) = Some (bval (kk + k) (jj + j))) →
  (∀ i j, ii ≤ i < ii + mb → jj ≤ j < jj + nb → kd i j = kk) →
  ∃ C', micro_kernel_packed mb nb kb Apk Bpk C (cb + ii * ldc + jj) ldc
          = Some C' ∧
        RepAt (kd_set kd ii (ii + mb) jj (jj + nb) (kk + kb)) C'.
Proof.
  intros HR Hii HiM Hjj HjM Hkk Hmb Hnb Hkb Hv Hs HA HB Hkd.
  unfold micro_kernel_packed.
  destruct (ik_loops_at
    (fun i k C =>
       a ← load Apk (i * kb + k);
       row_fma_tail a Bpk (k * nb) C (cb + ii * ldc + jj + i * ldc) 0 nb)
    ii kk 0 mb 0 kb jj (jj + nb) kd C) as (C1 & HC1 & HR1); auto; try lia.
  - intros i k kd1 C2 Hi Hk HR2 Hkd2. rewrite HA by lia. osimpl.
    destruct (row_fma_tail_at kd1 C2 (aval (ii + i) (kk + k)) Bpk (k * nb)
                (cb + ii * ldc + jj + i * ldc) (ii + i) jj (kk + k) 0 nb)
      as (C3 & HC3 & HR3); auto; try lia.
    + intros j Hj. apply Hv; [lia|]. by rewrite Z.sub_0_r in Hj.
    + intros j Hj. apply Hs; [lia|]. by rewrite Z.sub_0_r in Hj.
    + intros j Hj. apply Hkd2. lia.
    + exists C3. split; [done|]. eapply RepAt_ext; [|exact HR3]. kd_solve.
  - intros i j Hi Hj. rewrite Hkd by lia. lia.
  - exists C1. split; [exact HC1|]. eapply RepAt_ext; [|exact HR1]. kd_solve.
Qed.


(** *** The scalar micro-kernel *)

Lemma mk_ref_strided_at kd C Ap a0 Bp b0 ldb gi gj kk mr nr kc :
  RepAt kd C →
  0 ≤ gi → gi + mr ≤ M → 0 ≤ gj → gj + nr ≤ N → 0 ≤ kk →
  0 ≤ mr → 0 ≤ nr → 0 ≤ kc →
  (∀ i j, gi ≤ i < gi + mr → gj ≤ j < gj + nr → scalar_at i j) →
  (∀ i k, 0 ≤ i < mr → 0 ≤ k < kc →
     load Ap (a0 + i * kc + k) = Some (aval (gi + i) (kk + k))) →
  (∀ k j, 0 ≤ k < kc → 0 ≤ j < nr →
     load Bp (b0 + k * ldb + j) = Some (bval (kk + k) (gj + j))) →
  (∀ i j, gi ≤ i < gi + mr → gj ≤ j < gj + nr → kd i j = kk) →
  ∃ C', mk_ref_strided mr nr kc Ap a0 Bp b0 ldb C (cb + gi * ldc + gj) ldc
          = Some C' ∧
        RepAt (kd_set kd gi (gi + mr) gj (gj + nr) (kk + kc)) C'.
Proof.
  intros HR Hgi HiM Hgj HjM Hkk Hmr Hnr Hkc Hs HA HB Hkd.
  unfold mk_ref_strided.
  destruct (ik_loops_at
    (fun i k C =>
       a ← load Ap (a0 + i * kc + k);
       for_loop 0 nr 1 (fun j C =>
         c ← load C (cb + gi * ldc + gj + i * ldc + j);
         b ← load Bp (b0 + k * ldb + j);
         store C (cb + gi * ldc + gj + i * ldc + j) (fadd c (fmul a b))) C)
    gi kk 0 mr 0 kc gj (gj + nr) kd C) as (C1 & HC1 & HR1); auto; try lia.
  - intros i k kd1 C2 Hi Hk HR2 Hkd2. rewrite HA by lia. osimpl.
    destruct (scalar_row_at kd1 C2 (aval (gi + i) (kk + k)) Bp
                (b0 + k * ldb) (cb + gi * ldc + gj + i * ldc) (gi + i) gj
                (kk + k) 0 nr) as (C3 & HC3 & HR3); auto; try lia.
    + intros j Hj. apply Hs; lia.
    + intros j Hj. apply Hkd2. lia.
    + unfold for_loop. rewrite HC3. osimpl.
      exists C3. split; [done|]. eapply RepAt_ext; [|exact HR3]. kd_solve.
  - intros i j Hi Hj. rewrite Hkd by lia. lia.
  - exists C1. split; [exact HC1|]. eapply RepAt_ext; [|exact HR1]. kd_solve.
Qed.

(** *** The 8x8 vector micro-kernel *)

Definition acc_inv_at (C : list F) (gi gj kk k : Z) (acc : list (list F))
    : Prop :=
  length acc = 8%nat ∧
  ∀ r : nat, (r < 8)%nat →
    ∃ row, acc !! r = Some row ∧ length row = 8%nat ∧
      ∀ l : nat, (l < 8)%nat →
        ∃ c v, load C (cb + (gi + Z.of_nat r) * ldc + (gj + Z.of_nat l))
                 = Some c ∧
               row !! l = Some v ∧
               accAt (gi + Z.of_nat r) (gj + Z.of_nat l) kk (kk + k) c v.

Lemma kernel_depth_step_at C gi gj kk KC A a0 B b0 ldb k acc :
  (∀ i j, gi ≤ i < gi + 8 → gj ≤ j < gj + 8 → fused_at i j) →
  acc_inv_at C gi gj kk k acc → 0 ≤ k < KC →
  (∀ r k, 0 ≤ r < 8 → 0 ≤ k < KC →
     load A (a0 + r * KC + k) = Some (aval (gi + r) (kk + k))) →
  (∀ k l, 0 ≤ k < KC → 0 ≤ l < 8 →
     load B (b0 + k * ldb + l) = Some (bval (kk + k) (gj + l))) →
  ∃ b acc', mm256_loadu_ps B (b0 + k * ldb) = Some b ∧
            kstep KC A a0 b k acc = Some acc' ∧
            acc_inv_at C gi gj kk (k + 1) acc'.
Proof.
  intros Hv (Hlen & Hacc) Hk HA HB.
  pose proof (load_Some _ _ _ (HB k 0 Hk ltac:(lia))) as HB0.
  pose proof (load_Some _ _ _ (HB k 7 Hk ltac:(lia))) as HB7.
  destruct (load_n_Some B (b0 + k * ldb) 8) as [b Hb]; [lia..|].
  pose proof (load_n_inv _ _ _ _ Hb) as [Hlb Hbl].
  destruct (kstep_spec KC A a0 b k acc
              (fun r => aval (gi + Z.of_nat r) (kk + k)))
    as (acc' & Hacc' & Hlen' & Hrows); auto.
  { intros r Hr. apply HA; lia. }
  exists b, acc'. split; [exact Hb|]. split; [exact Hacc'|].
  split; [done|]. intros r Hr.
  destruct (Hacc r Hr) as (row & Hrow & Hlrow & Hlanes).
  eexists. split; [by apply Hrows|].
  split; [apply mm256_fmadd_ps_length; auto using length_replicate|].
  intros l Hl. destruct (Hlanes l Hl) as (c & v & Hc & Hvl & HaccR).
  exists c, (fmadd (aval (gi + Z.of_nat r) (kk + k))
                   (bval (kk + k) (gj + Z.of_nat l)) v).
  split; [done|]. split.
  - apply mm256_fmadd_ps_lookup; auto.
    + by apply lookup_replicate_2.
    + rewrite Hbl by done. rewrite <- HB by lia. f_equal; lia.
  - replace (kk + (k + 1)) with (kk + k + 1) by lia.
    eapply accAt_step; [exact HaccR|apply Hv; lia].
Qed.

Lemma acc_inv_at_eq C gi gj kk k k' acc :
  k = k' → acc_inv_at C gi gj kk k acc → acc_inv_at C gi gj kk k' acc.
Proof. by intros ->. Qed.

Lemma mk8x8_avx2_strided_at kd C Ap a0 Bp b0 ldb gi gj kk kc :
  RepAt kd C →
  0 ≤ gi → gi + 8 ≤ M → 0 ≤ gj → gj + 8 ≤ N → 0 ≤ kk → 0 ≤ kc →
  (∀ i j, gi ≤ i < gi + 8 → gj ≤ j < gj + 8 → fused_at i j) →
  (∀ r k, 0 ≤ r < 8 → 0 ≤ k < kc →
     load Ap (a0 + r * kc + k) = Some (aval (gi + r) (kk + k))) →
  (∀ k l, 0 ≤ k < kc → 0 ≤ l < 8 →
     load Bp (b0 + k * ldb + l) = Some (bval (kk + k) (gj + l))) →
  (∀ i j, gi ≤ i < gi + 8 → gj ≤ j < gj + 8 → kd i j = kk) →
  ∃ C', mk8x8_avx2_strided kc Ap a0 Bp b0 ldb C (cb + gi * ldc + gj) ldc
          = Some C' ∧
        RepAt (kd_set kd gi (gi + 8) gj (gj + 8) (kk + kc)) C'.
Proof.
  intros HR Hgi HiM Hgj HjM Hkk Hkc Hv HA HB Hkd.
  unfold mk8x8_avx2_strided.
  assert (∀ r, 0 ≤ r < 8 →
            0 ≤ cb + gi * ldc + gj + r * ldc ∧
            cb + gi * ldc + gj + r * ldc + 8 ≤ Z.of_nat (length C)) as Hrowb.
  { intros r Hr.
    destruct (RepAt_load _ _ (gi + r) gj HR) as [v Hv0]; [lia..|].
    destruct (RepAt_load _ _ (gi + r) (gj + 7) HR) as [v' Hv7]; [lia..|].
    apply load_Some in Hv0, Hv7. lia. }
  destruct (load_rows_spec C (cb + gi * ldc + gj) ldc Hrowb)
    as (acc0 & Hacc0 & Hlen0 & Hrows0).
  rewrite Hacc0. osimpl.
  assert (acc_inv_at C gi gj kk 0 acc0) as Hinv0.
  { split; [done|]. intros r Hr.
    destruct (Hrows0 r Hr) as (row & Hrow & Hl & Hlanes).
    exists row. split; [done|]. split; [done|]. intros l Hl'.
    destruct (RepAt_load _ _ (gi + Z.of_nat r) (gj + Z.of_nat l) HR)
      as [c Hc]; [lia..|].
    exists c, c. split; [done|]. split.
    - rewrite Hlanes by done. rewrite <- Hc. f_equal. lia.
    - replace (kk + 0) with kk by lia. apply accAt_refl. }
  match goal with
  | |- context [for_from 0 ?hi 4 ?body acc0] =>
      destruct (for_from_rule
        (fun k acc => 0 ≤ k ≤ kc ∧ acc_inv_at C gi gj kk k acc)
        0 hi 4 body acc0) as (k1 & acc1 & Heq1 & (Hk1 & Hinv1) & H1 & H2 & H3)
  end.
  - lia.
  - intros k acc Hk (Hkr & Hinv).
    destruct (kernel_depth_step_at C gi gj kk kc Ap a0 Bp b0 ldb (k + 0) acc)
      as (b1 & a1 & Hb1 & Ha1 & Hi1);
      [done|by apply (acc_inv_at_eq _ _ _ _ k); [lia|]|lia|done|done|].
    rewrite Hb1. osimpl. rewrite Ha1. osimpl.
    destruct (kernel_depth_step_at C gi gj kk kc Ap a0 Bp b0 ldb (k + 1) a1)
      as (b2 & a2 & Hb2 & Ha2 & Hi2);
      [done|by apply (acc_inv_at_eq _ _ _ _ (k + 0 + 1)); [lia|]|lia|done|done|].
    rewrite Hb2. osimpl. rewrite Ha2. osimpl.
    destruct (kernel_depth_step_at C gi gj kk kc Ap a0 Bp b0 ldb (k + 2) a2)
      as (b3 & a3 & Hb3 & Ha3 & Hi3);
      [done|by apply (acc_inv_at_eq _ _ _ _ (k + 1 + 1)); [lia|]|lia|done|done|].
    rewrite Hb3. osimpl. rewrite Ha3. osimpl.
    destruct (kernel_depth_step_at C gi gj kk kc Ap a0 Bp b0 ldb (k + 3) a3)
      as (b4 & a4 & Hb4 & Ha4 & Hi4);
      [done|by apply (acc_inv_at_eq _ _ _ _ (k + 2 + 1)); [lia|]|lia|done|done|].
    rewrite Hb4. osimpl. exists a4. split; [exact Ha4|].
    split; [lia|]. apply (acc_inv_at_eq _ _ _ _ (k + 3 + 1)); [lia|done].
  - split; [lia|done].
  - rewrite Heq1. osimpl.
    match goal with
    | |- context [for_from k1 kc 1 ?body acc1] =>
        destruct (for_from_rule
          (fun k acc => 0 ≤ k ≤ kc ∧ acc_inv_at C gi gj kk k acc)
          k1 kc 1 body acc1)
          as (k2 & acc2 & Heq2 & (Hk2 & Hinv2) & H4 & H5 & H6)
    end.
    + lia.
    + intros k acc Hk (Hkr & Hinv).
      destruct (kernel_depth_step_at C gi gj kk kc Ap a0 Bp b0 ldb k acc)
        as (b1 & a1 & Hb1 & Ha1 & Hi1); [done|done|lia|done|done|].
      rewrite Hb1. osimpl. exists a1. split; [exact Ha1|].
      split; [lia|done].
    + split; [lia|done].
    + rewrite Heq2. osimpl.
      assert (k2 = kc) as -> by lia.
      destruct Hinv2 as (Hlen2 & Hrows2).
      assert (∀ row, row ∈ acc2 → length row = 8%nat) as Hrl.
      { intros row Hrow. apply list_elem_of_lookup in Hrow as [q Hq].
        pose proof (lookup_lt_Some _ _ _ Hq) as Hq8.
        destruct (Hrows2 q ltac:(lia)) as (row' & Hrow' & Hl' & _).
        congruence. }
      assert (0 ≤ cb + gi * ldc + gj) as Hc0 by (destruct (Hrowb 0); lia).
      assert (acc2 ≠ [] →
              cb + gi * ldc + gj + (0 + Z.of_nat (length acc2) - 1) * ldc + 8
                ≤ Z.of_nat (length C)) as Hfit.
      { intros _. rewrite Hlen2. destruct (Hrowb 7); lia. }
      destruct (store_rows_spec acc2 C (cb + gi * ldc + gj) ldc 0
                  ltac:(lia) ltac:(lia) Hrl Hc0 Hfit)
        as (C' & HC' & Hlen' & Hin' & Hout').
      exists C'. split; [exact HC'|].
      eapply (RepAt_rect _ C C' gi (gi + 8) gj (gj + 8) kk (kk + kc));
        eauto; try lia.
      * intros i j Hi Hj.
        assert (∃ r : nat, (r < 8)%nat ∧ i = gi + Z.of_nat r)
          as (r & Hr & ->) by (exists (Z.to_nat (i - gi)); lia).
        assert (∃ l : nat, (l < 8)%nat ∧ j = gj + Z.of_nat l)
          as (l & Hl & ->) by (exists (Z.to_nat (j - gj)); lia).
        destruct (Hrows2 r Hr) as (row & Hrow & Hlrow & Hlanes).
        destruct (Hlanes l Hl) as (c & v & Hc & Hvl & HaccR).
        exists c, v. split; [done|]. split; [|done].
        rewrite <- Hvl, <- (Hin' r l row Hrow Hl). f_equal. lia.
      * intros p Hp. apply Hout'. intros q l Hq Hl.
        rewrite Hlen2 in Hq.
        specialize (Hp (gi + Z.of_nat q) (gj + Z.of_nat l)). lia.
Qed.

(** *** [gemm_mk_avx2] *)




End At.

(** ** The rounding of every entry, driver by driver *)

Section Rounding.
Context {F : Type} `{!FloatOps F} `{!Allocator F} `{!Inhabited F}.


(** The float at offset [p] (an arbitrary float outside the buffer). *)
Definition peek (m : list F) (p : Z) : F := default inhabitant (load m p).

(** The step at entry [(i, j)] is the fused one where [fused i j] holds
    and the scalar one elsewhere. *)
Definition step_at (fused : Z → Z → bool) (i j : Z) (a b c v : F) : Prop :=
  v = if fused i j then fmadd a b c else fadd c (fmul a b).


Lemma accAt_step_det fused (aval bval : Z → Z → F) i j k0 k1 c v :
  accAt (step_at fused) aval bval i j k0 k1 c v →
  v = fold_left (fun c k =>
        if fused i j then fmadd (aval i k) (bval k j) c
        else fadd c (fmul (aval i k) (bval k j)))
        (seqZ k0 (k1 - k0)) c.
Proof.
  induction 1 as [c|k c v v' Hacc IH Hstep].
  - by rewrite Z.sub_diag.
  - pose proof (accAt_le _ _ _ _ _ _ _ _ _ Hacc) as Hle.
    replace (k + 1 - k0) with ((k - k0) + 1) by lia.
    rewrite seqZ_app by lia. rewrite fold_left_app, <- IH.
    replace (k0 + (k - k0)) with k by lia.
    rewrite seqZ_cons, seqZ_nil by lia. simpl. exact Hstep.
Qed.





Section Drivers.
Variables (M N K : Z) (A B C : list F) (lda ldb ldc : Z).
Hypothesis HM : 0 ≤ M.
Hypothesis HNn : 0 ≤ N.
Hypothesis HK : 0 ≤ K.
Hypothesis Hlda : K ≤ lda.
Hypothesis Hldb : N ≤ ldb.
Hypothesis Hldc : N ≤ ldc.
Hypothesis HfA : fits A M K lda.
Hypothesis HfB : fits B K N ldb.
Hypothesis HfC : fits C M N ldc.







End Drivers.

(** *** [gemm_blocked], [gemm_packed] *)



(** *** [gemm_mk_avx2] *)


(** *** Configurations without a vector path *)



(** *** What the result does not depend on *)


(** *** Dimensions and tiles that are multiples of 8 *)







(** *** The micro-kernels on their own *)

(** What the representation of one block says, entry by entry: the
    block is the whole [M x N] matrix at offset [cb], advanced by the
    depths [0 .. K - 1]. *)
Lemma RepAt_block_final (fused : Z → Z → bool) (aval bval : Z → Z → F)
    M N ldc cb C0 K C' :
  RepAt (step_at fused) aval bval M N ldc cb C0
    (kd_set (fun _ _ => 0) 0 (0 + M) 0 (0 + N) (0 + K)) C' →
  length C' = length C0 ∧
  (∀ r l, 0 ≤ r < M → 0 ≤ l < N →
     load C' (cb + r * ldc + l)
       = Some (fold_left (fun c k =>
                 if fused r l then fmadd (aval r k) (bval k l) c
                 else fadd c (fmul (aval r k) (bval k l)))
               (seqZ 0 K) (peek C0 (cb + r * ldc + l)))) ∧
  (∀ p, (∀ r l, 0 ≤ r < M → 0 ≤ l < N → p ≠ cb + r * ldc + l) →
     load C' p = load C0 p).
Proof.
  intros (Hlen & Hin & Hout). split; [done|]. split; [|done].
  intros r l Hr Hl. destruct (Hin r l Hr Hl) as (c & v & Hc & Hv & Hacc).
  unfold kd_set in Hacc. rewrite decide_True in Hacc by lia.
  apply accAt_step_det in Hacc.
  rewrite Z.sub_0_r, Z.add_0_l in Hacc.
  unfold peek. rewrite Hc, Hv. simpl. by rewrite Hacc.
Qed.

Lemma peek_load (m : list F) p :
  0 ≤ p < Z.of_nat (length m) → load m p = Some (peek m p).
Proof.
  intros Hp. unfold peek. by destruct (load_is_Some m p Hp) as [v ->].
Qed.

(** [mk_ref_strided] (and [mk_ref], its instance at the stride [NR]):
    the [MR x NR] block at [C + c0] is advanced by the [KC] products of
    the panels, each multiplied and then added; nothing else of the
    output changes. *)
Theorem scalar_kernel_accumulates_its_block
    (MR NR KC : Z) (A_p : list F) (a0 : Z) (B_p : list F) (b0 ldb : Z)
    (C : list F) (c0 ldc : Z) :
  0 ≤ MR → 0 ≤ NR → 0 ≤ KC → NR ≤ ldc →
  block_inside A_p a0 MR KC KC → block_inside B_p b0 KC NR ldb →
  block_inside C c0 MR NR ldc →
  ∃ C', mk_ref_strided MR NR KC A_p a0 B_p b0 ldb C c0 ldc = Some C' ∧
    (ldb = NR → mk_ref MR NR KC A_p a0 B_p b0 C c0 ldc = Some C') ∧
    length C' = length C ∧
    (∀ r l, 0 ≤ r < MR → 0 ≤ l < NR →
       load C' (c0 + r * ldc + l)
         = Some (fold_left (fun c k =>
                   fadd c (fmul (peek A_p (a0 + r * KC + k))
                                (peek B_p (b0 + k * ldb + l))))
                 (seqZ 0 KC) (peek C (c0 + r * ldc + l)))) ∧
    (∀ p, (∀ r l, 0 ≤ r < MR → 0 ≤ l < NR → p ≠ c0 + r * ldc + l) →
       load C' p = load C p).
Proof.
  intros HMR HNR HKC Hldc HbA HbB HbC.
  destruct (mk_ref_strided_at (step_at (fun _ _ => false))
              (fun r k => peek A_p (a0 + r * KC + k))
              (fun k l => peek B_p (b0 + k * ldb + l))
              MR NR ldc c0 C Hldc (fun _ _ => 0) C A_p a0 B_p b0 ldb
              0 0 0 MR NR KC) as (C' & Heq & HR); auto; try lia.
  - by apply RepAt_init.
  - intros i j _ _ a b c. done.
  - intros i k Hi Hk. rewrite !Z.add_0_l. apply peek_load. by apply HbA.
  - intros k j Hk Hj. rewrite !Z.add_0_l. apply peek_load. by apply HbB.
  - replace (c0 + 0 * ldc + 0) with c0 in Heq by lia.
    exists C'. split; [done|]. split.
    { intros ->. exact Heq. }
    apply (RepAt_block_final (fun _ _ => false)) in HR. done.
Qed.

(** [mk8x8_avx2] with a 32-byte aligned panel B is [mk8x8_avx2_strided]
    at the stride 8. *)
Lemma mk8x8_avx2_aligned_is_strided (KC : Z) (A : list F) (a0 : Z)
    (B : list F) (B_base b0 : Z) (C : list F) (c0 ldc : Z) :
  (0 < KC → (B_base + 4 * b0) mod 32 = 0) →
  mk8x8_avx2 KC A a0 B B_base b0 C c0 ldc
    = mk8x8_avx2_strided KC A a0 B b0 8 C c0 ldc.
Proof.
  intros Hal. unfold mk8x8_avx2_strided, mk8x8_avx2.
  destruct (load_rows C c0 ldc) as [acc|]; [|done]. osimpl.
  destruct (decide (0 < KC)) as [HKC|HKC].
  - specialize (Hal HKC). unfold for_from.
    rewrite (for_lt_ext _ 0 (KC - 4 + 1) 4 _
      (fun k acc =>
         b ← mm256_loadu_ps B (b0 + (k + 0) * 8);
         acc ← kstep KC A a0 b (k + 0) acc;
         b ← mm256_loadu_ps B (b0 + (k + 1) * 8);
         acc ← kstep KC A a0 b (k + 1) acc;
         b ← mm256_loadu_ps B (b0 + (k + 2) * 8);
         acc ← kstep KC A a0 b (k + 2) acc;
         b ← mm256_loadu_ps B (b0 + (k + 3) * 8);
         kstep KC A a0 b (k + 3) acc)).
    2: { intros k s. by rewrite !mm256_load_ps_aligned. }
    match goal with
    | |- context [for_lt ?f 0 ?hi 4 ?body acc] =>
        destruct (for_lt f 0 hi 4 body acc) as [[k acc']|]; [|done]
    end.
    osimpl.
    rewrite (for_lt_ext _ k KC 1 _
      (fun k acc =>
         b ← mm256_loadu_ps B (b0 + k * 8);
         kstep KC A a0 b k acc)); [done|].
    intros k' s. by rewrite mm256_load_ps_aligned.
  - rewrite !for_from_empty by lia. osimpl.
    rewrite !for_from_empty by lia. reflexivity.
Qed.

(** [mk8x8_avx2_strided] (and [mk8x8_avx2], at the stride 8 and with an
    aligned panel B): the 8x8 block at [C + c0] is advanced by the [KC]
    products of the panels, each by one fused multiply-add, for every
    depth [KC >= 0] (the loop unrolled four times and its remainder
    together); nothing else of the output changes. *)
Theorem vector_kernel_accumulates_its_block
    (KC : Z) (A_p : list F) (a0 : Z) (B_p : list F) (B_base b0 ldb : Z)
    (C : list F) (c0 ldc : Z) :
  0 ≤ KC → 8 ≤ ldc →
  block_inside A_p a0 8 KC KC → block_inside B_p b0 KC 8 ldb →
  block_inside C c0 8 8 ldc →
  ∃ C', mk8x8_avx2_strided KC A_p a0 B_p b0 ldb C c0 ldc = Some C' ∧
    (ldb = 8 → (0 < KC → (B_base + 4 * b0) mod 32 = 0) →
     mk8x8_avx2 KC A_p a0 B_p B_base b0 C c0 ldc = Some C') ∧
    length C' = length C ∧
    (∀ r l, 0 ≤ r < 8 → 0 ≤ l < 8 →
       load C' (c0 + r * ldc + l)
         = Some (fold_left (fun c k =>
                   fmadd (peek A_p (a0 + r * KC + k))
                         (peek B_p (b0 + k * ldb + l)) c)
                 (seqZ 0 KC) (peek C (c0 + r * ldc + l)))) ∧
    (∀ p, (∀ r l, 0 ≤ r < 8 → 0 ≤ l < 8 → p ≠ c0 + r * ldc + l) →
       load C' p = load C p).
Proof.
  intros HKC Hldc HbA HbB HbC.
  destruct (mk8x8_avx2_strided_at (step_at (fun _ _ => true))
              (fun r k => peek A_p (a0 + r * KC + k))
              (fun k l => peek B_p (b0 + k * ldb + l))
              8 8 ldc c0 C Hldc (fun _ _ => 0) C A_p a0 B_p b0 ldb
              0 0 0 KC) as (C' & Heq & HR); auto; try lia.
  - by apply RepAt_init.
  - intros i j _ _ a b c. done.
  - intros i k Hi Hk. rewrite !Z.add_0_l. apply peek_load. by apply HbA.
  - intros k j Hk Hj. rewrite !Z.add_0_l. apply peek_load. by apply HbB.
  - replace (c0 + 0 * ldc + 0) with c0 in Heq by lia.
    exists C'. split; [done|]. split.
    { intros -> Hal. by rewrite mk8x8_avx2_aligned_is_strided. }
    apply (RepAt_block_final (fun _ _ => true)) in HR. done.
Qed.

(** [micro_kernel_packed]: the [MB x NB] block at [C + c0] is advanced by
    the [KB] products of the packed panels, by fused multiply-adds in
    its first [8 * (NB / 8)] columns and by the scalar multiplication
    and addition in the others. *)
Theorem micro_kernel_packed_accumulates_its_block
    (MB NB KB : Z) (A_packed B_packed C : list F) (c0 ldc : Z) :
  0 ≤ MB → 0 ≤ NB → 0 ≤ KB → NB ≤ ldc →
  block_inside A_packed 0 MB KB KB → block_inside B_packed 0 KB NB NB →
  block_inside C c0 MB NB ldc →
  ∃ C', micro_kernel_packed MB NB KB A_packed B_packed C c0 ldc = Some C' ∧
    length C' = length C ∧
    (∀ i j, 0 ≤ i < MB → 0 ≤ j < NB →
       load C' (c0 + i * ldc + j)
         = Some (fold_left (fun c k =>
                   if bool_decide (j < 8 * (NB / 8))
                   then fmadd (peek A_packed (i * KB + k))
                              (peek B_packed (k * NB + j)) c
                   else fadd c (fmul (peek A_packed (i * KB + k))
                                     (peek B_packed (k * NB + j))))
                 (seqZ 0 KB) (peek C (c0 + i * ldc + j)))) ∧
    (∀ p, (∀ i j, 0 ≤ i < MB → 0 ≤ j < NB → p ≠ c0 + i * ldc + j) →
       load C' p = load C p).
Proof.
  intros HMB HNB HKB Hldc HbA HbB HbC.
  destruct (micro_kernel_packed_at
              (step_at (fun _ j => bool_decide (j < 8 * (NB / 8))))
              (fun i k => peek A_packed (i * KB + k))
              (fun k j => peek B_packed (k * NB + j))
              MB NB ldc c0 C Hldc (fun _ _ => 0) C A_packed B_packed
              0 0 0 MB NB KB) as (C' & Heq & HR); auto; try lia.
  - by apply RepAt_init.
  - intros i l _ Hl a b c. unfold step_at.
    rewrite bool_decide_eq_true_2 by lia. done.
  - intros i l _ Hl a b c. unfold step_at.
    rewrite bool_decide_eq_false_2 by lia. done.
  - intros i k Hi Hk. rewrite !Z.add_0_l. apply peek_load.
    specialize (HbA i k Hi Hk). lia.
  - intros k j Hk Hj. rewrite !Z.add_0_l. apply peek_load.
    specialize (HbB k j Hk Hj). lia.
  - replace (c0 + 0 * ldc + 0) with c0 in Heq by lia.
    exists C'. split; [done|].
    apply (RepAt_block_final
             (fun _ j => bool_decide (j < 8 * (NB / 8)))) in HR.
    done.
Qed.

End Rounding.

(** ** Runs of the rounding theorems *)

Section RoundingRuns.
Import Exact.


Ltac run_hyps :=
  first [ apply exact_panels_granted; simpl; lia
        | unfold fits; simpl; lia
        | intros ? ? ? ?; simpl; lia
        | simpl; lia
        | reflexivity ].







(** A 2x3 block of depth 2 inside a matrix of leading dimension 4. *)
Lemma scalar_kernel_accumulates_its_block_witness :
  ∃ C', mk_ref_strided 2 3 2 [1; 2; 3; 4] 0 [5; 6; 7; 8; 9; 10] 0 3
          (replicate 8 1) 1 4 = Some C' ∧
    (3 = 3 → mk_ref 2 3 2 [1; 2; 3; 4] 0 [5; 6; 7; 8; 9; 10] 0
               (replicate 8 1) 1 4 = Some C') ∧
    length C' = length (replicate 8 1) ∧
    (∀ r l, 0 ≤ r < 2 → 0 ≤ l < 3 →
       load C' (1 + r * 4 + l)
         = Some (fold_left (fun c k =>
                   fadd c (fmul (peek [1; 2; 3; 4] (0 + r * 2 + k))
                                (peek [5; 6; 7; 8; 9; 10] (0 + k * 3 + l))))
                 (seqZ 0 2) (peek (replicate 8 1) (1 + r * 4 + l)))) ∧
    (∀ p, (∀ r l, 0 ≤ r < 2 → 0 ≤ l < 3 → p ≠ 1 + r * 4 + l) →
       load C' p = load (replicate 8 1) p).
Proof.
  apply (scalar_kernel_accumulates_its_block 2 3 2 [1; 2; 3; 4] 0
           [5; 6; 7; 8; 9; 10] 0 3 (replicate 8 1) 1 4); run_hyps.
Defined.

Example scalar_kernel_run :
  mk_ref_strided 2 3 2 [1; 2; 3; 4] 0 [5; 6; 7; 8; 9; 10] 0 3
    (replicate 8 1) 1 4 = Some [1; 22; 25; 28; 1; 48; 55; 62].
Proof. reflexivity. Qed.

(** An 8x8 block of depth 5 (one unrolled group of four and a
    remainder), the panel B at the byte address 64. *)
Lemma vector_kernel_accumulates_its_block_witness :
  ∃ C', mk8x8_avx2_strided 5 (replicate 40 2) 0 (replicate 40 3) 0 8
          (replicate 64 1) 0 8 = Some C' ∧
    (8 = 8 → (0 < 5 → (64 + 4 * 0) mod 32 = 0) →
     mk8x8_avx2 5 (replicate 40 2) 0 (replicate 40 3) 64 0
       (replicate 64 1) 0 8 = Some C') ∧
    length C' = length (replicate 64 1) ∧
    (∀ r l, 0 ≤ r < 8 → 0 ≤ l < 8 →
       load C' (0 + r * 8 + l)
         = Some (fold_left (fun c k =>
                   fmadd (peek (replicate 40 2) (0 + r * 5 + k))
                         (peek (replicate 40 3) (0 + k * 8 + l)) c)
                 (seqZ 0 5) (peek (replicate 64 1) (0 + r * 8 + l)))) ∧
    (∀ p, (∀ r l, 0 ≤ r < 8 → 0 ≤ l < 8 → p ≠ 0 + r * 8 + l) →
       load C' p = load (replicate 64 1) p).
Proof.
  apply (vector_kernel_accumulates_its_block 5 (replicate 40 2) 0
           (replicate 40 3) 64 0 8 (replicate 64 1) 0 8); run_hyps.
Defined.

Example vector_kernel_run :
  mk8x8_avx2_strided 5 (replicate 40 2) 0 (replicate 40 3) 0 8
    (replicate 64 1) 0 8 = Some (replicate 64 31).
Proof. reflexivity. Qed.

(** A 2x9 block of depth 1: eight fused columns and one scalar. *)
Lemma micro_kernel_packed_accumulates_its_block_witness :
  ∃ C', micro_kernel_packed 2 9 1 [2; 3] (replicate 9 5) (replicate 18 1)
          0 9 = Some C' ∧
    length C' = length (replicate 18 1) ∧
    (∀ i j, 0 ≤ i < 2 → 0 ≤ j < 9 →
       load C' (0 + i * 9 + j)
         = Some (fold_left (fun c k =>
                   if bool_decide (j < 8 * (9 / 8))
                   then fmadd (peek [2; 3] (i * 1 + k))
                              (peek (replicate 9 5) (k * 9 + j)) c
                   else fadd c (fmul (peek [2; 3] (i * 1 + k))
                                     (peek (replicate 9 5) (k * 9 + j))))
                 (seqZ 0 1) (peek (replicate 18 1) (0 + i * 9 + j)))) ∧
    (∀ p, (∀ i j, 0 ≤ i < 2 → 0 ≤ j < 9 → p ≠ 0 + i * 9 + j) →
       load C' p = load (replicate 18 1) p).
Proof.
  apply (micro_kernel_packed_accumulates_its_block 2 9 1 [2; 3]
           (replicate 9 5) (replicate 18 1) 0 9); run_hyps.
Defined.

End RoundingRuns.

(** In binary32 the two roundings are told apart: on a 4x8 problem (a
    partial tile of [gemm_mk_avx2], a full row of eight columns of
    [gemm_blocked]) the former returns what [gemm_naive] returns and
    the latter the fused result. *)
Section RoundingRuns32.
Import Binary32.

Example partial_tile_in_binary32 :
  let A := mjoin (replicate 4 [x32; nx32; t32]) in
  let C := replicate 32 zero32 in
  gemm_naive 4 8 3 A B32 C 3 8 8 = Returns (replicate 32 t32) ∧
  gemm_mk_avx2 4 8 3 A B32 C 3 8 8 block32 = Returns (replicate 32 t32) ∧
  gemm_blocked 4 8 3 A B32 C 3 8 8 block32
    = Returns (replicate 32 (S754_finite true 16515072 (-48))) ∧
  gemm_packed 4 8 3 A B32 C 3 8 8 block32
    = Returns (replicate 32 (S754_finite true 16515072 (-48))).
Proof. repeat split; vm_compute; reflexivity. Qed.

End RoundingRuns32.

(** * Part VI: the test and benchmark programs *)

(** [bench/bench_main.cpp], [tests/test_correctness.cpp] and
    [tests/test_avx2_microkernel.cpp] call the library.  Their helpers
    are embedded here as they are written; what they print is left out
    (only [check_result] keeps the list of the mismatches it reports),
    timing and files are not modelled. *)

(** The arithmetic of the helpers: [float] subtraction, absolute value
    and comparison, the literal [0.0f], the conversion to [double], and the [double] operations of the error metric with its
    literals [0.0], [1e-30] and [1e-6]. *)
Class HarnessOps (F D : Type) : Type := {
  f_zero : F;
  fsub : F → F → F;
  fabs : F → F;
  fgt : F → F → bool;
  to_double : F → D;
  d_zero : D;
  d_1e_30 : D;
  d_1e_6 : D;
  dadd : D → D → D;
  dmul : D → D → D;
  ddiv : D → D → D;
  dsqrt : D → D;
  dgt : D → D → bool;
  dle : D → D → bool
}.

(** [dist(gen)] for [std::uniform_real_distribution<float> dist(-1, 1)]
    and a [std::mt19937 gen]: the float drawn and the next state of the
    generator. *)
Class Generator (G F : Type) : Type := {
  draw : G → F * G
}.

(** What the caller of a helper that returns a value observes. *)
Inductive ran (A : Type) : Type :=
| Done (a : A)
| Raised (what : string)
| Wrong.
Arguments Done {A} a.
Arguments Raised {A} what.
Arguments Wrong {A}.

Section Harness.
Context {F D G : Type} `{!FloatOps F} `{!Allocator F} `{!HarnessOps F D}
  `{!Generator G F}.

(** [alloc_aligned(size_t elements)] of both programs. *)
Definition alloc_aligned (elements : Z) : string + list F :=
  let elements := elements mod 2 ^ 64 in
  let bytes := (elements * 4) mod 2 ^ 64 in
  if posix_memalign_ok bytes
  then inr (uninit <$> seqZ 0 (bytes / 4))
  else inl "Failed to allocate aligned memory"%string.

(** [fill_matrix(matrix, rows, cols, ld, gen)] of the benchmark and
    [fill_random] of the tests: the same loops. *)
Definition fill_matrix (matrix : list F) (rows cols ld : Z) (gen : G)
    : option (list F * G) :=
  for_loop 0 rows 1 (fun i st =>
    for_loop 0 cols 1 (fun j '(matrix, gen) =>
      let '(v, gen) := draw gen in
      matrix ← store matrix (i * ld + j) v;
      Some (matrix, gen)) st) (matrix, gen).

Definition fill_random (matrix : list F) (rows cols ld : Z) (gen : G)
    : option (list F * G) :=
  for_loop 0 rows 1 (fun i st =>
    for_loop 0 cols 1 (fun j '(matrix, gen) =>
      let '(v, gen) := draw gen in
      matrix ← store matrix (i * ld + j) v;
      Some (matrix, gen)) st) (matrix, gen).

(** [zero_matrix(matrix, rows, cols, ld)] of both programs. *)
Definition zero_matrix (matrix : list F) (rows cols ld : Z)
    : option (list F) :=
  for_loop 0 rows 1 (fun i matrix =>
    for_loop 0 cols 1 (fun j matrix =>
      store matrix (i * ld + j) f_zero) matrix) matrix.

(** [copy_matrix(src, dst, rows, cols, ld_src, ld_dst)] *)
Definition copy_matrix (src dst : list F) (rows cols ld_src ld_dst : Z)
    : option (list F) :=
  for_loop 0 rows 1 (fun i dst =>
    for_loop 0 cols 1 (fun j dst =>
      v ← load src (i * ld_src + j);
      store dst (i * ld_dst + j) v) dst) dst.

(** [frobenius_norm(matrix, rows, cols, ld)] *)
Definition frobenius_norm (matrix : list F) (rows cols ld : Z) : option D :=
  norm ← for_loop 0 rows 1 (fun i norm =>
    for_loop 0 cols 1 (fun j norm =>
      val ← load matrix (i * ld + j);
      Some (dadd norm (dmul (to_double val) (to_double val)))) norm) d_zero;
  Some (dsqrt norm).

(** [relative_error(C, C_ref, rows, cols, ld)] of the benchmark: the
    norm of the difference, then the norm of the reference. *)
Definition relative_error (C C_ref : list F) (rows cols ld : Z) : option D :=
  diff_norm ← for_loop 0 rows 1 (fun i diff_norm =>
    for_loop 0 cols 1 (fun j diff_norm =>
      c ← load C (i * ld + j);
      r ← load C_ref (i * ld + j);
      let diff := fsub c r in
      Some (dadd diff_norm (dmul (to_double diff) (to_double diff))))
      diff_norm) d_zero;
  let diff_norm := dsqrt diff_norm in
  ref_norm ← frobenius_norm C_ref rows cols ld;
  Some (ddiv diff_norm (dadd ref_norm d_1e_30)).

(** [relative_error(C1, C2, rows, cols, ld)] of the tests: both sums in
    one pass. *)
Definition relative_error_test (C1 C2 : list F) (rows cols ld : Z)
    : option D :=
  '(diff_norm, ref_norm) ← for_loop 0 rows 1 (fun i st =>
    for_loop 0 cols 1 (fun j '(diff_norm, ref_norm) =>
      c1 ← load C1 (i * ld + j);
      c2 ← load C2 (i * ld + j);
      let diff := fsub c1 c2 in
      ref ← load C2 (i * ld + j);
      Some (dadd diff_norm (dmul (to_double diff) (to_double diff)),
            dadd ref_norm (dmul (to_double ref) (to_double ref)))) st)
    (d_zero, d_zero);
  Some (ddiv (dsqrt diff_norm) (dadd (dsqrt ref_norm) d_1e_30)).

(** The check of a repetition in the benchmark's [main]:
    [if (relerr > 1e-6) { ...; return 1; }]. *)
Definition bench_rejects (relerr : D) : bool := dgt relerr d_1e_6.

(** [check_result(C, C_ref, m, n, ldc, tol)] of the micro-kernel test:
    the flag returned and, for every line printed, the position, the
    two floats and their distance. *)
Definition check_result (C C_ref : list F) (m n ldc : Z) (tol : F)
    : option (bool * list (Z * Z * F * F * F)) :=
  for_loop 0 m 1 (fun i st =>
    for_loop 0 n 1 (fun j '(pass, out) =>
      c ← load C (i * ldc + j);
      r ← load C_ref (i * ldc + j);
      let diff := fabs (fsub c r) in
      if fgt diff tol
      then Some (false, out ++ [(i, j, c, r, diff)])
      else Some (pass, out)) st) (true, []).

(** [test_implementation(impl_name, test, gen, tolerance)]: the four
    buffers are allocated before the [try]; [run_gemm] has a handler of
    its own, which reports the implementation as not available and
    answers [true]; nothing else in the outer [try] throws. *)
Definition test_implementation (impl_name : string) (M N K : Z) (gen : G)
    (tolerance : D) : ran (bool * G) :=
  let lda := K in
  let ldb := N in
  let ldc := N in
  match alloc_aligned (M * K) with
  | inl what => Raised what
  | inr A =>
  match alloc_aligned (K * N) with
  | inl what => Raised what
  | inr B =>
  match alloc_aligned (M * N) with
  | inl what => Raised what
  | inr C_test =>
  match alloc_aligned (M * N) with
  | inl what => Raised what
  | inr C_ref =>
  match fill_random A M K lda gen with
  | None => Wrong
  | Some (A, gen) =>
  match fill_random B K N ldb gen with
  | None => Wrong
  | Some (B, gen) =>
  match zero_matrix C_ref M N ldc with
  | None => Wrong
  | Some C_ref =>
  match gemm_naive M N K A B C_ref lda ldb ldc with
  | Undefined => Wrong
  | Throws _ _ => Done (false, gen)
  | Returns C_ref =>
  match zero_matrix C_test M N ldc with
  | None => Wrong
  | Some C_test =>
  let block_sizes := {| MB := 256; NB := 256; KB := 256 |} in
  match run_gemm impl_name M N K A B C_test lda ldb ldc block_sizes with
  | Undefined => Wrong
  | Throws _ _ => Done (true, gen)
  | Returns C_test =>
  match relative_error_test C_test C_ref M N ldc with
  | None => Wrong
  | Some error =>
      let passed := dle error tolerance in
      Done (passed, gen)
  end end end end end end end end end end end.

End Harness.

(** ** The command line of the benchmark *)

(** [struct Config] with its default member initialisers. *)
Record Config : Type := {
  cfg_M : Z; cfg_N : Z; cfg_K : Z;
  cfg_reps : Z; cfg_threads : Z; cfg_seed : Z;
  cfg_csv_path : string; cfg_impl : string;
  cfg_MB : Z; cfg_NB : Z; cfg_KB : Z
}.

Definition default_Config : Config := {|
  cfg_M := 1024; cfg_N := 1024; cfg_K := 1024;
  cfg_reps := 5; cfg_threads := 1; cfg_seed := 42;
  cfg_csv_path := EmptyString; cfg_impl := "naive";
  cfg_MB := 256; cfg_NB := 256; cfg_KB := 256
|}.

Definition set_M (c : Config) (v : Z) : Config :=
  {| cfg_M := v; cfg_N := cfg_N c; cfg_K := cfg_K c; cfg_reps := cfg_reps c;
     cfg_threads := cfg_threads c; cfg_seed := cfg_seed c;
     cfg_csv_path := cfg_csv_path c; cfg_impl := cfg_impl c;
     cfg_MB := cfg_MB c; cfg_NB := cfg_NB c; cfg_KB := cfg_KB c |}.
Definition set_N (c : Config) (v : Z) : Config :=
  {| cfg_M := cfg_M c; cfg_N := v; cfg_K := cfg_K c; cfg_reps := cfg_reps c;
     cfg_threads := cfg_threads c; cfg_seed := cfg_seed c;
     cfg_csv_path := cfg_csv_path c; cfg_impl := cfg_impl c;
     cfg_MB := cfg_MB c; cfg_NB := cfg_NB c; cfg_KB := cfg_KB c |}.
Definition set_K (c : Config) (v : Z) : Config :=
  {| cfg_M := cfg_M c; cfg_N := cfg_N c; cfg_K := v; cfg_reps := cfg_reps c;
     cfg_threads := cfg_threads c; cfg_seed := cfg_seed c;
     cfg_csv_path := cfg_csv_path c; cfg_impl := cfg_impl c;
     cfg_MB := cfg_MB c; cfg_NB := cfg_NB c; cfg_KB := cfg_KB c |}.
Definition set_reps (c : Config) (v : Z) : Config :=
  {| cfg_M := cfg_M c; cfg_N := cfg_N c; cfg_K := cfg_K c; cfg_reps := v;
     cfg_threads := cfg_threads c; cfg_seed := cfg_seed c;
     cfg_csv_path := cfg_csv_path c; cfg_impl := cfg_impl c;
     cfg_MB := cfg_MB c; cfg_NB := cfg_NB c; cfg_KB := cfg_KB c |}.
Definition set_threads (c : Config) (v : Z) : Config :=
  {| cfg_M := cfg_M c; cfg_N := cfg_N c; cfg_K := cfg_K c;
     cfg_reps := cfg_reps c; cfg_threads := v; cfg_seed := cfg_seed c;
     cfg_csv_path := cfg_csv_path c; cfg_impl := cfg_impl c;
     cfg_MB := cfg_MB c; cfg_NB := cfg_NB c; cfg_KB := cfg_KB c |}.
Definition set_seed (c : Config) (v : Z) : Config :=
  {| cfg_M := cfg_M c; cfg_N := cfg_N c; cfg_K := cfg_K c;
     cfg_reps := cfg_reps c; cfg_threads := cfg_threads c; cfg_seed := v;
     cfg_csv_path := cfg_csv_path c; cfg_impl := cfg_impl c;
     cfg_MB := cfg_MB c; cfg_NB := cfg_NB c; cfg_KB := cfg_KB c |}.
Definition set_csv_path (c : Config) (v : string) : Config :=
  {| cfg_M := cfg_M c; cfg_N := cfg_N c; cfg_K := cfg_K c;
     cfg_reps := cfg_reps c; cfg_threads := cfg_threads c;
     cfg_seed := cfg_seed c; cfg_csv_path := v; cfg_impl := cfg_impl c;
     cfg_MB := cfg_MB c; cfg_NB := cfg_NB c; cfg_KB := cfg_KB c |}.
Definition set_impl (c : Config) (v : string) : Config :=
  {| cfg_M := cfg_M c; cfg_N := cfg_N c; cfg_K := cfg_K c;
     cfg_reps := cfg_reps c; cfg_threads := cfg_threads c;
     cfg_seed := cfg_seed c; cfg_csv_path := cfg_csv_path c; cfg_impl := v;
     cfg_MB := cfg_MB c; cfg_NB := cfg_NB c; cfg_KB := cfg_KB c |}.
Definition set_MB (c : Config) (v : Z) : Config :=
  {| cfg_M := cfg_M c; cfg_N := cfg_N c; cfg_K := cfg_K c;
     cfg_reps := cfg_reps c; cfg_threads := cfg_threads c;
     cfg_seed := cfg_seed c; cfg_csv_path := cfg_csv_path c;
     cfg_impl := cfg_impl c;
     cfg_MB := v; cfg_NB := cfg_NB c; cfg_KB := cfg_KB c |}.
Definition set_NB (c : Config) (v : Z) : Config :=
  {| cfg_M := cfg_M c; cfg_N := cfg_N c; cfg_K := cfg_K c;
     cfg_reps := cfg_reps c; cfg_threads := cfg_threads c;
     cfg_seed := cfg_seed c; cfg_csv_path := cfg_csv_path c;
     cfg_impl := cfg_impl c;
     cfg_MB := cfg_MB c; cfg_NB := v; cfg_KB := cfg_KB c |}.
Definition set_KB (c : Config) (v : Z) : Config :=
  {| cfg_M := cfg_M c; cfg_N := cfg_N c; cfg_K := cfg_K c;
     cfg_reps := cfg_reps c; cfg_threads := cfg_threads c;
     cfg_seed := cfg_seed c; cfg_csv_path := cfg_csv_path c;
     cfg_impl := cfg_impl c;
     cfg_MB := cfg_MB c; cfg_NB := cfg_NB c; cfg_KB := v |}.

(** The options that take a value. *)
Definition flags : list string :=
  ["--M"; "--N"; "--K"; "--reps"; "--threads"; "--seed"; "--csv"; "--impl";
   "--MB"; "--NB"; "--KB"]%string.

Section ParseArgs.

(** [std::stoi]: the [int] a string starts with, or nothing when the
    call throws ([std::invalid_argument], [std::out_of_range]). *)
Variable stoi : string → option Z.

(** The loop of [parse_args] over [argv[i], argv[i + 1], ...]: an option
    followed by another word consumes it; an option that is the last
    word, and every other word, is skipped.  An exception of [std::stoi]
    leaves the function ([None]). *)
Fixpoint parse_loop (args : list string) (config : Config)
    : option Config :=
  match args with
  | [] => Some config
  | arg :: rest =>
      match rest with
      | [] => Some config
      | value :: rest' =>
          if String.eqb arg "--M" then
            v ← stoi value; parse_loop rest' (set_M config v)
          else if String.eqb arg "--N" then
            v ← stoi value; parse_loop rest' (set_N config v)
          else if String.eqb arg "--K" then
            v ← stoi value; parse_loop rest' (set_K config v)
          else if String.eqb arg "--reps" then
            v ← stoi value; parse_loop rest' (set_reps config v)
          else if String.eqb arg "--threads" then
            v ← stoi value; parse_loop rest' (set_threads config v)
          else if String.eqb arg "--seed" then
            v ← stoi value; parse_loop rest' (set_seed config v)
          else if String.eqb arg "--csv" then
            parse_loop rest' (set_csv_path config value)
          else if String.eqb arg "--impl" then
            parse_loop rest' (set_impl config value)
          else if String.eqb arg "--MB" then
            v ← stoi value; parse_loop rest' (set_MB config v)
          else if String.eqb arg "--NB" then
            v ← stoi value; parse_loop rest' (set_NB config v)
          else if String.eqb arg "--KB" then
            v ← stoi value; parse_loop rest' (set_KB config v)
          else parse_loop rest config
      end
  end.

(** [parse_args(argc, argv)]: [argv[0]] is the name of the program. *)
Definition parse_args (argv : list string) : option Config :=
  config ← parse_loop (tail argv) default_Config;
  let config :=
    if decide (cfg_M config = 1024 ∧ cfg_N config ≠ 1024)
    then set_M config (cfg_N config) else config in
  let config :=
    if decide (cfg_K config = 1024 ∧ cfg_N config ≠ 1024)
    then set_K config (cfg_N config) else config in
  Some config.

End ParseArgs.

(** ** IEEE binary64 and the arithmetic of the helpers *)

(** [double] as the binary64 format of the Standard Library's
    [SpecFloat], [float] being [Binary32]'s: the conversion is exact,
    the comparisons are false on NaN. *)
Module Binary64.

Definition prec : Z := 53.
Definition emax : Z := 1024.

(** [static_cast<double>(x)] *)
Definition of_float (x : spec_float) : spec_float :=
  match x with
  | S754_finite s m e =>
      binary_normalize prec emax (cond_Zopp s (Zpos m)) e false
  | _ => x
  end.

#[export] Instance harness : HarnessOps spec_float spec_float := {|
  f_zero := S754_zero false;
  fsub := SFsub Binary32.prec Binary32.emax;
  fabs := SFabs;
  fgt := fun x y => SFltb y x;
  to_double := of_float;
  d_zero := S754_zero false;
  d_1e_30 := S754_finite false 5708990770823840 (-152);
  d_1e_6 := S754_finite false 4722366482869645 (-72);
  dadd := SFadd prec emax;
  dmul := SFmul prec emax;
  ddiv := SFdiv prec emax;
  dsqrt := SFsqrt prec emax;
  dgt := fun x y => SFltb y x;
  dle := SFleb
|}.

(** A generator for the runs: its state counts the draws, which cycle
    through [1], [-1/2] and [0]. *)
#[export] Instance counter : Generator Z spec_float := {|
  draw := fun g =>
    (if decide (g mod 3 = 0) then S754_finite false 8388608 (-23)
     else if decide (g mod 3 = 1) then S754_finite true 8388608 (-24)
     else S754_zero false,
     g + 1)
|}.

End Binary64.

(** ** Facts about the helpers *)

Section LoopVisits.
Context {S : Type}.
Implicit Types (body : Z → S → option S).

(** A loop that is left has run its body, successfully, at every value
    of the counter. *)
Lemma for_lt_visits (I : S → Prop) fuel lo hi body s kf s' :
  (∀ k s s', I s → body k s = Some s' → I s') →
  I s → for_lt fuel lo hi 1 body s = Some (kf, s') →
  ∀ k, lo ≤ k < hi → ∃ s1 s2, I s1 ∧ body k s1 = Some s2.
Proof.
  intros Hb. revert lo s. induction fuel as [|fuel IH]; intros lo s HI; simpl;
    case_decide as Hlt; try done.
  - intros _ k Hk. lia.
  - destruct (body lo s) as [s1|] eqn:E; [|done]. intros Hrun k Hk.
    destruct (decide (k = lo)) as [->|Hne]; [eauto|].
    apply (IH (lo + 1) s1); [eauto|done|lia].
  - intros _ k Hk. lia.
Qed.

Lemma for_loop_visits (I : S → Prop) lo hi body s s' :
  (∀ k s s', I s → body k s = Some s' → I s') →
  I s → for_loop lo hi 1 body s = Some s' →
  ∀ k, lo ≤ k < hi → ∃ s1 s2, I s1 ∧ body k s1 = Some s2.
Proof.
  intros Hb HI. unfold for_loop, for_from.
  destruct (for_lt _ lo hi 1 body s) as [[kf s1]|] eqn:E; [|done].
  intros _. eapply for_lt_visits; eauto.
Qed.

End LoopVisits.

Section PairedLoops.
Context {S T : Type}.

(** One loop over a pair of independent accumulators is two loops, one
    after the other, also when an iteration fails. *)
Lemma for_lt_pair fuel lo hi step (f : Z → S → option S)
    (g : Z → T → option T) (h : Z → S * T → option (S * T)) a b :
  (∀ k a b, h k (a, b) = (a' ← f k a; b' ← g k b; Some (a', b'))) →
  snd <$> for_lt fuel lo hi step h (a, b)
  = (a' ← snd <$> for_lt fuel lo hi step f a;
     b' ← snd <$> for_lt fuel lo hi step g b;
     Some (a', b')).
Proof.
  intros Hh. revert lo a b. induction fuel as [|fuel IH]; intros lo a b;
    simpl; case_decide; try done.
  rewrite Hh. destruct (f lo a) as [a1|] eqn:Ef; osimpl; [|done].
  destruct (g lo b) as [b1|] eqn:Eg; osimpl.
  - apply IH.
  - by destruct (for_lt fuel (lo + step) hi step f a1) as [[? ?]|].
Qed.

Lemma for_loop_pair lo hi step (f : Z → S → option S)
    (g : Z → T → option T) (h : Z → S * T → option (S * T)) a b :
  (∀ k a b, h k (a, b) = (a' ← f k a; b' ← g k b; Some (a', b'))) →
  for_loop lo hi step h (a, b)
  = (a' ← for_loop lo hi step f a;
     b' ← for_loop lo hi step g b;
     Some (a', b')).
Proof. intros Hh. unfold for_loop, for_from. by apply for_lt_pair. Qed.

End PairedLoops.

Section HarnessFacts.
Context {F D G : Type} `{!FloatOps F} `{!Allocator F} `{!HarnessOps F D}
  `{!Generator G F}.


(** *** [zero_matrix] *)

Lemma zero_matrix_spec (m : list F) (rows cols ld : Z) :
  block_inside m 0 rows cols ld →
  ∃ m', zero_matrix m rows cols ld = Some m' ∧
    length m' = length m ∧
    (∀ i j, 0 ≤ i < rows → 0 ≤ j < cols →
       load m' (i * ld + j) = Some f_zero) ∧
    (∀ p, (∀ i j, 0 ≤ i < rows → 0 ≤ j < cols → p ≠ i * ld + j) →
       load m' p = load m p).
Proof.
  intros Hin. unfold zero_matrix.
  destruct (decide (0 ≤ rows)) as [Hrows|Hrows]; cycle 1.
  { rewrite for_loop_empty by lia. exists m. repeat split; auto. lia. }
  destruct (decide (0 ≤ cols)) as [Hcols|Hcols]; cycle 1.
  { exists m. split.
    - destruct (for_loop_rule (fun _ d => d = m) 0 rows
        (fun i matrix => for_loop 0 cols 1
           (fun j matrix => store matrix (i * ld + j) f_zero) matrix) m)
        as (d & -> & ->); auto.
      intros i d _ ->. rewrite for_loop_empty by lia. eauto.
    - repeat split; auto. lia. }
  set (Inv := fun (i1 j1 : Z) (d : list F) =>
    length d = length m ∧
    (∀ i j, 0 ≤ i < rows → 0 ≤ j < cols → i < i1 ∨ i = i1 ∧ j < j1 →
       load d (i * ld + j) = Some f_zero) ∧
    (∀ p, (∀ i j, 0 ≤ i < rows → 0 ≤ j < cols → i < i1 ∨ i = i1 ∧ j < j1 →
             p ≠ i * ld + j) → load d p = load m p)).
  match goal with
  | |- context [for_loop 0 rows 1 ?body m] =>
      destruct (for_loop_rule (fun i d => Inv i 0 d) 0 rows body m)
        as (d' & Heq & Hlen & Hz & Hout)
  end.
  - done.
  - intros i d Hi HI.
    match goal with
    | |- context [for_loop 0 cols 1 ?body d] =>
        destruct (for_loop_rule (fun j d => Inv i j d) 0 cols body d)
          as (d1 & Heq1 & Hlen1 & Hz1 & Hout1)
    end.
    + done.
    + intros j d2 Hj (Hlen2 & Hz2 & Hout2).
      destruct (store_Some d2 (i * ld + j) f_zero) as [d3 Hd3].
      { rewrite Hlen2. specialize (Hin i j Hi Hj). lia. }
      exists d3. split; [done|].
      apply store_inv in Hd3 as (Hlen3 & Hnew & Hold).
      split; [congruence|]. split.
      * intros i' j' Hi' Hj' Hlt.
        destruct (decide (i' * ld + j' = i * ld + j)) as [->|Hne]; [done|].
        rewrite Hold by done. apply Hz2; auto.
        destruct Hlt as [?|[-> ?]]; [lia|].
        destruct (decide (j' = j)) as [->|?]; [done|]. lia.
      * intros p Hp. rewrite Hold.
        -- apply Hout2. intros i' j' Hi' Hj' Hlt. apply Hp; auto. lia.
        -- apply Hp; auto. lia.
    + done.
    + exists d1. split; [done|]. split; [done|]. split.
      * intros i' j' Hi' Hj' Hlt. apply Hz1; auto. lia.
      * intros p Hp. apply Hout1. intros i' j' Hi' Hj' Hlt.
        apply Hp; auto. lia.
  - split; [done|]. split; [intros; lia|done].
  - exists d'. split; [done|]. split; [done|]. split.
    + intros i j Hi Hj. apply Hz; auto. lia.
    + intros p Hp. apply Hout. intros i j Hi Hj _. by apply Hp.
Qed.

Lemma for_loop_keeps_length (lo hi : Z)
    (body : Z → list F → option (list F)) (d d' : list F) :
  (∀ k d d', body k d = Some d' → length d' = length d) →
  for_loop lo hi 1 body d = Some d' → length d' = length d.
Proof.
  intros Hb Hl.
  apply (for_loop_preserves (fun s => length s = length d)) in Hl; auto.
  intros k s1 s2 Hs1 Hs2. rewrite <- Hs1. eauto.
Qed.

Lemma store_length (m : list F) p v m' :
  store m p v = Some m' → length m' = length m.
Proof. intros Hs. by apply store_inv in Hs as (? & _). Qed.

Lemma zero_matrix_bounds (m m' : list F) (rows cols ld : Z) :
  zero_matrix m rows cols ld = Some m' → block_inside m 0 rows cols ld.
Proof.
  unfold zero_matrix. intros Hrun i j Hi Hj.
  eapply (for_loop_visits (fun d => length d = length m)) in Hrun
    as (d1 & d2 & Hd1 & Hinner); [| |done|exact Hi].
  2:{ intros k d d' Hd Hl. rewrite <- Hd.
      apply for_loop_keeps_length in Hl; [done|].
      intros ? ? ?. apply store_length. }
  eapply (for_loop_visits (fun d => length d = length m)) in Hinner
    as (d3 & d4 & Hd3 & Hst); [| |done|exact Hj].
  2:{ intros k d d' Hd Hl. rewrite <- Hd. by apply store_length in Hl. }
  unfold store in Hst. case_decide as Hb; [|done]. lia.
Qed.

(** *** [copy_matrix] *)

Lemma copy_matrix_spec (src dst : list F) (rows cols ld_src ld_dst : Z) :
  cols ≤ ld_dst →
  block_inside src 0 rows cols ld_src →
  block_inside dst 0 rows cols ld_dst →
  ∃ dst', copy_matrix src dst rows cols ld_src ld_dst = Some dst' ∧
    length dst' = length dst ∧
    (∀ i j, 0 ≤ i < rows → 0 ≤ j < cols →
       load dst' (i * ld_dst + j) = load src (i * ld_src + j)) ∧
    (∀ p, (∀ i j, 0 ≤ i < rows → 0 ≤ j < cols → p ≠ i * ld_dst + j) →
       load dst' p = load dst p).
Proof.
  intros Hld Hsrc Hdst. unfold copy_matrix.
  destruct (decide (0 ≤ rows)) as [Hrows|Hrows]; cycle 1.
  { rewrite for_loop_empty by lia. exists dst. repeat split; auto. lia. }
  destruct (decide (0 ≤ cols)) as [Hcols|Hcols]; cycle 1.
  { exists dst. split.
    - match goal with
      | |- for_loop 0 rows 1 ?body dst = _ =>
          destruct (for_loop_rule (fun _ d => d = dst) 0 rows body dst)
            as (d & -> & ->); auto
      end.
      intros i d _ ->. rewrite for_loop_empty by lia. eauto.
    - repeat split; auto. lia. }
  set (Inv := fun (i1 j1 : Z) (d : list F) =>
    length d = length dst ∧
    (∀ i j, 0 ≤ i < rows → 0 ≤ j < cols → i < i1 ∨ i = i1 ∧ j < j1 →
       load d (i * ld_dst + j) = load src (i * ld_src + j)) ∧
    (∀ p, (∀ i j, 0 ≤ i < rows → 0 ≤ j < cols → i < i1 ∨ i = i1 ∧ j < j1 →
             p ≠ i * ld_dst + j) → load d p = load dst p)).
  match goal with
  | |- context [for_loop 0 rows 1 ?body dst] =>
      destruct (for_loop_rule (fun i d => Inv i 0 d) 0 rows body dst)
        as (d' & Heq & Hlen & Hz & Hout)
  end.
  - done.
  - intros i d Hi HI.
    match goal with
    | |- context [for_loop 0 cols 1 ?body d] =>
        destruct (for_loop_rule (fun j d => Inv i j d) 0 cols body d)
          as (d1 & Heq1 & Hlen1 & Hz1 & Hout1)
    end.
    + done.
    + intros j d2 Hj (Hlen2 & Hz2 & Hout2).
      destruct (load_is_Some src (i * ld_src + j)) as [v Hv].
      { specialize (Hsrc i j Hi Hj). lia. }
      rewrite Hv. osimpl.
      destruct (store_Some d2 (i * ld_dst + j) v) as [d3 Hd3].
      { rewrite Hlen2. specialize (Hdst i j Hi Hj). lia. }
      exists d3. split; [done|].
      apply store_inv in Hd3 as (Hlen3 & Hnew & Hold).
      split; [congruence|]. split.
      * intros i' j' Hi' Hj' Hlt.
        destruct (decide (i' * ld_dst + j' = i * ld_dst + j)) as [He|Hne].
        -- apply rowmajor_inj in He as [-> ->]; [|lia..]. congruence.
        -- rewrite Hold by done. apply Hz2; auto.
           destruct Hlt as [?|[-> ?]]; [lia|].
           destruct (decide (j' = j)) as [->|?]; [done|]. lia.
      * intros p Hp. rewrite Hold.
        -- apply Hout2. intros i' j' Hi' Hj' Hlt. apply Hp; auto. lia.
        -- apply Hp; auto. lia.
    + done.
    + exists d1. split; [done|]. split; [done|]. split.
      * intros i' j' Hi' Hj' Hlt. apply Hz1; auto. lia.
      * intros p Hp. apply Hout1. intros i' j' Hi' Hj' Hlt.
        apply Hp; auto. lia.
  - split; [done|]. split; [intros; lia|done].
  - exists d'. split; [done|]. split; [done|]. split.
    + intros i j Hi Hj. apply Hz; auto. lia.
    + intros p Hp. apply Hout. intros i j Hi Hj _. by apply Hp.
Qed.

(** *** [fill_matrix], [fill_random] *)

(** The state of the generator after [n] draws. *)
Definition after_draws (n : nat) (gen : G) : G :=
  Nat.iter n (fun g => (draw g).2) gen.

Lemma after_draws_succ (q : Z) (gen : G) :
  0 ≤ q →
  (draw (after_draws (Z.to_nat q) gen)).2 = after_draws (Z.to_nat (q + 1)) gen.
Proof.
  intros Hq. replace (Z.to_nat (q + 1)) with (Datatypes.S (Z.to_nat q)) by lia.
  done.
Qed.

Lemma fill_random_is_fill_matrix (m : list F) rows cols ld (gen : G) :
  fill_random m rows cols ld gen = fill_matrix m rows cols ld gen.
Proof. done. Qed.

Lemma fill_matrix_spec (m : list F) (rows cols ld : Z) (gen : G) :
  0 ≤ rows → 0 ≤ cols ≤ ld →
  block_inside m 0 rows cols ld →
  ∃ m', fill_matrix m rows cols ld gen
          = Some (m', after_draws (Z.to_nat (rows * cols)) gen) ∧
    length m' = length m ∧
    (∀ i j, 0 ≤ i < rows → 0 ≤ j < cols →
       load m' (i * ld + j)
         = Some (draw (after_draws (Z.to_nat (i * cols + j)) gen)).1) ∧
    (∀ p, (∀ i j, 0 ≤ i < rows → 0 ≤ j < cols → p ≠ i * ld + j) →
       load m' p = load m p).
Proof.
  intros Hrows [Hcols Hld] Hin. unfold fill_matrix.
  set (Inv := fun (q : Z) (st : list F * G) =>
    st.2 = after_draws (Z.to_nat q) gen ∧
    length st.1 = length m ∧
    (∀ i j, 0 ≤ i < rows → 0 ≤ j < cols → i * cols + j < q →
       load st.1 (i * ld + j)
         = Some (draw (after_draws (Z.to_nat (i * cols + j)) gen)).1) ∧
    (∀ p, (∀ i j, 0 ≤ i < rows → 0 ≤ j < cols → i * cols + j < q →
             p ≠ i * ld + j) → load st.1 p = load m p)).
  match goal with
  | |- context [for_loop 0 rows 1 ?body (m, gen)] =>
      destruct (for_loop_rule (fun i st => Inv (i * cols) st) 0 rows body
                  (m, gen)) as ([d' g'] & Heq & Hg & Hlen & Hz & Hout)
  end.
  - done.
  - intros i st Hi HI.
    match goal with
    | |- context [for_loop 0 cols 1 ?body st] =>
        destruct (for_loop_rule (fun j st => Inv (i * cols + j) st)
                    0 cols body st) as (st1 & Heq1 & HI1)
    end.
    + done.
    + intros j [d2 g2] Hj (Hg2 & Hlen2 & Hz2 & Hout2). simpl in *.
      destruct (draw g2) as [v g3] eqn:Hdraw.
      destruct (store_Some d2 (i * ld + j) v) as [d3 Hd3].
      { rewrite Hlen2. specialize (Hin i j Hi Hj). lia. }
      rewrite Hd3. osimpl. eexists. split; [done|].
      apply store_inv in Hd3 as (Hlen3 & Hnew & Hold).
      split; [|split; [|split]]; simpl.
      * replace (i * cols + (j + 1)) with ((i * cols + j) + 1) by lia.
        rewrite <- after_draws_succ by nia. by rewrite <- Hg2, Hdraw.
      * congruence.
      * intros i' j' Hi' Hj' Hlt.
        destruct (decide (i' * ld + j' = i * ld + j)) as [He|Hne].
        -- apply rowmajor_inj in He as [-> ->]; [|lia..].
           by rewrite Hnew, <- Hg2, Hdraw.
        -- rewrite Hold by done. apply Hz2; auto.
           destruct (decide (i' * cols + j' = i * cols + j)) as [He|?];
             [|lia].
           apply rowmajor_inj in He as [-> ->]; [done|lia..].
      * intros p Hp. rewrite Hold.
        -- apply Hout2. intros i' j' Hi' Hj' Hlt. apply Hp; auto. lia.
        -- apply Hp; auto. lia.
    + by replace (i * cols + 0) with (i * cols) by lia.
    + exists st1. split; [done|].
      by replace ((i + 1) * cols) with (i * cols + cols) by lia.
  - split; [done|]. split; [done|]. split; [intros; nia|done].
  - simpl in *. exists d'. rewrite Heq, Hg. split; [done|].
    split; [done|]. split.
    + intros i j Hi Hj. apply Hz; auto. nia.
    + intros p Hp. apply Hout. intros i j Hi Hj _. by apply Hp.
Qed.

(** *** [relative_error] *)

Lemma relative_error_test_is_relative_error (C1 C2 : list F)
    (rows cols ld : Z) :
  relative_error_test C1 C2 rows cols ld = relative_error C1 C2 rows cols ld.
Proof.
  unfold relative_error_test, relative_error, frobenius_norm.
  set (f := fun (i j : Z) (diff_norm : D) =>
    c ← load C1 (i * ld + j);
    r ← load C2 (i * ld + j);
    Some (dadd diff_norm
            (dmul (to_double (fsub c r)) (to_double (fsub c r))))).
  set (g := fun (i j : Z) (norm : D) =>
    val ← load C2 (i * ld + j);
    Some (dadd norm (dmul (to_double val) (to_double val)))).
  rewrite (for_loop_pair 0 rows 1
             (fun i a => for_loop 0 cols 1 (f i) a)
             (fun i b => for_loop 0 cols 1 (g i) b)).
  - unfold f, g.
    repeat match goal with
    | |- context [for_loop 0 rows 1 ?body d_zero] =>
        destruct (for_loop 0 rows 1 body d_zero)
    end; done.
  - intros i a b. apply for_loop_pair. intros j a' b'. unfold f, g.
    destruct (load C1 (i * ld + j)) as [c|]; osimpl; [|done].
    by destruct (load C2 (i * ld + j)) as [r|].
Qed.

(** *** [check_result] *)

Lemma check_result_spec (C C_ref : list F) (m n ldc : Z) (tol : F) :
  block_inside C 0 m n ldc → block_inside C_ref 0 m n ldc →
  ∃ pass out, check_result C C_ref m n ldc tol = Some (pass, out) ∧
    (pass = true ↔ out = []) ∧
    (∀ i j c r d, (i, j, c, r, d) ∈ out ↔
       0 ≤ i < m ∧ 0 ≤ j < n ∧
       load C (i * ldc + j) = Some c ∧ load C_ref (i * ldc + j) = Some r ∧
       d = fabs (fsub c r) ∧ fgt d tol = true).
Proof.
  intros HC HR. unfold check_result.
  set (Inv := fun (i1 j1 : Z) (st : bool * list (Z * Z * F * F * F)) =>
    (st.1 = true ↔ st.2 = []) ∧
    (∀ i j c r d, (i, j, c, r, d) ∈ st.2 ↔
       0 ≤ i < m ∧ 0 ≤ j < n ∧ (i < i1 ∨ i = i1 ∧ j < j1) ∧
       load C (i * ldc + j) = Some c ∧ load C_ref (i * ldc + j) = Some r ∧
       d = fabs (fsub c r) ∧ fgt d tol = true)).
  destruct (decide (0 ≤ m)) as [Hm|Hm]; cycle 1.
  { rewrite for_loop_empty by lia. exists true, []. split; [done|].
    split; [done|]. intros i j c r d. rewrite elem_of_nil. split; [done|lia]. }
  match goal with
  | |- context [for_loop 0 m 1 ?body (true, [])] =>
      destruct (for_loop_rule (fun i st => Inv i 0 st) 0 m body (true, []))
        as ([pass out] & Heq & Hp & Hout)
  end.
  - done.
  - intros i st Hi HI.
    destruct (decide (0 ≤ n)) as [Hn|Hn]; cycle 1.
    { rewrite for_loop_empty by lia. exists st. split; [done|].
      destruct HI as [HI1 HI2]. split; [done|].
      intros i' j' c r d. rewrite HI2.
      split; intros (? & ? & ? & ? & ? & ? & ?); lia. }
    match goal with
    | |- context [for_loop 0 n 1 ?body st] =>
        destruct (for_loop_rule (fun j st => Inv i j st) 0 n body st)
          as (st1 & Heq1 & HI1)
    end.
    + done.
    + intros j [p2 o2] Hj (Hp2 & Ho2). simpl in *.
      destruct (load_is_Some C (i * ldc + j)) as [c Hc].
      { specialize (HC i j Hi Hj). lia. }
      destruct (load_is_Some C_ref (i * ldc + j)) as [r Hr].
      { specialize (HR i j Hi Hj). lia. }
      rewrite Hc, Hr. osimpl.
      destruct (fgt (fabs (fsub c r)) tol) eqn:Hgt.
      * eexists. split; [done|]. split; simpl.
        -- split; [done|]. intros Hnil. by apply app_nil in Hnil as [_ ?].
        -- intros i' j' c' r' d'. rewrite elem_of_app, Ho2, list_elem_of_singleton.
           split.
           ++ intros [(? & ? & ? & ? & ? & ? & ?)|[= -> -> -> -> ->]].
              ** repeat split; auto; lia.
              ** repeat split; auto; lia.
           ++ intros (? & ? & Hlt & Hc' & Hr' & -> & Hgt').
              destruct (decide (i' = i ∧ j' = j)) as [[-> ->]|Hne].
              ** right. congruence.
              ** left. repeat split; auto; lia.
      * eexists. split; [done|]. split; simpl; [done|].
        intros i' j' c' r' d'. rewrite Ho2. split.
        -- intros (? & ? & ? & ? & ? & ? & ?). repeat split; auto; lia.
        -- intros (? & ? & Hlt & Hc' & Hr' & -> & Hgt').
           destruct (decide (i' = i ∧ j' = j)) as [[-> ->]|Hne].
           ++ congruence.
           ++ repeat split; auto; lia.
    + done.
    + exists st1. split; [done|]. destruct HI1 as [HI1 HI2]. split; [done|].
      intros i' j' c r d. rewrite HI2.
      split; intros (? & ? & ? & ? & ? & ? & ?); repeat split; auto; lia.
  - split; [done|]. intros i j c r d. simpl. rewrite elem_of_nil.
    split; [done|]. lia.
  - exists pass, out. split; [done|]. split; [done|].
    intros i j c r d. simpl in Hout. rewrite Hout.
    split; [tauto|]. intros (? & ? & ? & ? & ? & ?). repeat split; auto; lia.
Qed.

End HarnessFacts.

(** *** The reference result and [test_implementation] *)

Section HarnessRuns.
Context {F D G : Type} `{!FloatOps F} `{!Allocator F} `{!HarnessOps F D}
  `{!Generator G F} `{!Inhabited F}.



Lemma block_inside_fits (m : list F) (rows cols ld : Z) :
  block_inside m 0 rows cols ld → fits m rows cols ld.
Proof.
  intros Hin Hr Hc. specialize (Hin (rows - 1) (cols - 1)). lia.
Qed.

Lemma block_inside_length (m m' : list F) (off rows cols ld : Z) :
  length m' = length m →
  block_inside m off rows cols ld → block_inside m' off rows cols ld.
Proof. intros Hl Hin i j Hi Hj. rewrite Hl. by apply Hin. Qed.

Lemma gemm_naive_final (M N K : Z) (A B C : list F) (lda ldb ldc : Z) :
  0 ≤ M → 0 ≤ N → 0 ≤ K → K ≤ lda → N ≤ ldb → N ≤ ldc →
  fits A M K lda → fits B K N ldb → fits C M N ldc →
  ∃ C', gemm_naive M N K A B C lda ldb ldc = Returns C' ∧
    length C' = length C ∧
    (∀ i j, 0 ≤ i < M → 0 ≤ j < N →
       load C' (i * ldc + j)
         = Some (dot_acc A B lda ldb i j K (entry C ldc i j))) ∧
    (∀ p, (∀ i j, 0 ≤ i < M → 0 ≤ j < N → p ≠ i * ldc + j) →
       load C' p = load C p).
Proof.
  intros HM HN HK Hlda Hldb Hldc HfA HfB HfC.
  destruct (gemm_naive_Rep scalar_step (entry A lda) (entry B ldb)
              M N ldc C Hldc K A B lda ldb) as (C' & Heq & HR); auto.
  - by intros a b c.
  - intros i k Hi Hk. by apply (fits_load _ M K).
  - intros k j Hk Hj. by apply (fits_load _ K N).
  - exists C'. split; [done|]. by apply Rep_scalar_final.
Qed.

Lemma reference_spec (M N K : Z) (A B C : list F) (lda ldb ldc : Z) :
  0 ≤ M → 0 ≤ N → 0 ≤ K → K ≤ lda → N ≤ ldb → N ≤ ldc →
  fits A M K lda → fits B K N ldb → block_inside C 0 M N ldc →
  ∃ C0 C', zero_matrix C M N ldc = Some C0 ∧
    gemm_naive M N K A B C0 lda ldb ldc = Returns C' ∧
    length C' = length C ∧
    (∀ i j, 0 ≤ i < M → 0 ≤ j < N →
       load C' (i * ldc + j) = Some (dot_acc A B lda ldb i j K f_zero)) ∧
    (∀ p, (∀ i j, 0 ≤ i < M → 0 ≤ j < N → p ≠ i * ldc + j) →
       load C' p = load C p).
Proof.
  intros HM HN HK Hlda Hldb Hldc HfA HfB HC.
  destruct (zero_matrix_spec C M N ldc HC) as (C0 & Hz & Hl0 & Hin0 & Hout0).
  destruct (gemm_naive_final M N K A B C0 lda ldb ldc)
    as (C' & Hrun & Hl & Hin & Hout); auto.
  { apply block_inside_fits. by apply (block_inside_length C). }
  exists C0, C'. split; [done|]. split; [done|]. split; [congruence|].
  split.
  - intros i j Hi Hj. rewrite Hin by done.
    by rewrite (entry_load _ _ _ _ _ (Hin0 i j Hi Hj)).
  - intros p Hp. rewrite Hout by done. by apply Hout0.
Qed.

(** *** A refused scratch panel *)






End HarnessRuns.

(** *** NaN in the error metric *)

Section NaN.
Import Binary32 Binary64.

Lemma nan_accumulates (term : Z → Z → option spec_float)
    (rows cols i0 j0 : Z) (z : spec_float) :
  (∀ i j, 0 ≤ i < rows → 0 ≤ j < cols → is_Some (term i j)) →
  0 ≤ i0 < rows → 0 ≤ j0 < cols →
  term i0 j0 = Some S754_nan →
  for_loop 0 rows 1 (fun i a =>
    for_loop 0 cols 1 (fun j a =>
      t ← term i j; Some (dadd a t)) a) z = Some S754_nan.
Proof.
  intros Hdef Hi0 Hj0 Hnan.
  set (Inv := fun (i1 j1 : Z) (a : spec_float) =>
    i0 < i1 ∨ i0 = i1 ∧ j0 < j1 → a = S754_nan).
  match goal with
  | |- for_loop 0 rows 1 ?body z = _ =>
      destruct (for_loop_rule (fun i a => Inv i 0 a) 0 rows body z)
        as (a & -> & Ha)
  end.
  - lia.
  - intros i a Hi HI.
    match goal with
    | |- context [for_loop 0 cols 1 ?body a] =>
        destruct (for_loop_rule (fun j a => Inv i j a) 0 cols body a)
          as (a1 & -> & Ha1)
    end.
    + lia.
    + intros j a2 Hj HI2.
      destruct (Hdef i j Hi Hj) as [t Ht]. rewrite Ht. osimpl.
      eexists. split; [done|]. intros Hlt.
      destruct (decide (i0 = i ∧ j0 = j)) as [[-> ->]|Hne].
      * rewrite Hnan in Ht. injection Ht as <-. by destruct a2.
      * rewrite HI2 by lia. done.
    + done.
    + exists a1. split; [done|]. intros Hlt. apply Ha1. lia.
  - intros Hlt. lia.
  - f_equal. apply Ha. lia.
Qed.

Lemma relative_error_nan (C C_ref : list spec_float) (rows cols ld i j : Z) :
  block_inside C 0 rows cols ld → block_inside C_ref 0 rows cols ld →
  0 ≤ i < rows → 0 ≤ j < cols →
  load C (i * ld + j) = Some S754_nan ∨
  load C_ref (i * ld + j) = Some S754_nan →
  relative_error C C_ref rows cols ld = Some S754_nan.
Proof.
  intros HC HR Hi Hj Hnan. unfold relative_error, frobenius_norm.
  set (term := fun (i j : Z) =>
    c ← load C (i * ld + j);
    r ← load C_ref (i * ld + j);
    Some (dmul (to_double (fsub c r)) (to_double (fsub c r)))).
  set (rterm := fun (i j : Z) =>
    val ← load C_ref (i * ld + j);
    Some (dmul (to_double val) (to_double val))).
  assert (∀ i j, 0 ≤ i < rows → 0 ≤ j < cols →
            ∃ c r, load C (i * ld + j) = Some c ∧
                   load C_ref (i * ld + j) = Some r) as Hload.
  { intros i' j' Hi' Hj'.
    destruct (load_is_Some C (i' * ld + j')) as [c Hc].
    { specialize (HC i' j' Hi' Hj'). lia. }
    destruct (load_is_Some C_ref (i' * ld + j')) as [r Hr].
    { specialize (HR i' j' Hi' Hj'). lia. }
    eauto. }
  rewrite (for_loop_ext 0 rows 1
    (fun i a => for_loop 0 cols 1 (fun j a =>
       c ← load C (i * ld + j);
       r ← load C_ref (i * ld + j);
       Some (dadd a (dmul (to_double (fsub c r)) (to_double (fsub c r)))))
       a)
    (fun i a => for_loop 0 cols 1 (fun j a =>
       t ← term i j; Some (dadd a t)) a)); cycle 1.
  { intros i' a. apply for_loop_ext. intros j' a'. unfold term.
    destruct (load C (i' * ld + j')); osimpl; [|done].
    by destruct (load C_ref (i' * ld + j')). }
  rewrite (nan_accumulates term rows cols i j); auto; cycle 1.
  { intros i' j' Hi' Hj'. unfold term.
    destruct (Hload i' j' Hi' Hj') as (c & r & -> & ->). by eexists. }
  { unfold term. destruct (Hload i j Hi Hj) as (c & r & Hc & Hr).
    rewrite Hc, Hr. osimpl. f_equal.
    destruct Hnan as [Hn|Hn]; rewrite Hn in *; simplify_eq.
    - done.
    - by destruct c. }
  osimpl.
  rewrite (for_loop_ext 0 rows 1
    (fun i a => for_loop 0 cols 1 (fun j a =>
       val ← load C_ref (i * ld + j);
       Some (dadd a (dmul (to_double val) (to_double val)))) a)
    (fun i a => for_loop 0 cols 1 (fun j a =>
       t ← rterm i j; Some (dadd a t)) a)); cycle 1.
  { intros i' a. apply for_loop_ext. intros j' a'. unfold rterm.
    by destruct (load C_ref (i' * ld + j')). }
  match goal with
  | |- context [for_loop 0 rows 1 ?body d_zero] =>
      destruct (for_loop_rule (fun _ _ => True) 0 rows body d_zero)
        as (n & -> & _); [lia| |done|]
  end.
  - intros i' a' Hi' _.
    match goal with
    | |- context [for_loop 0 cols 1 ?body a'] =>
        destruct (for_loop_rule (fun _ _ => True) 0 cols body a')
          as (n & -> & _); [lia| |done|by eauto]
    end.
    intros j' a2 Hj' _. unfold rterm.
    destruct (Hload i' j' Hi' Hj') as (c & r & _ & ->). osimpl. eauto.
  - done.
Qed.

Lemma check_result_skips_nan (c r tol : spec_float) :
  c = S754_nan ∨ r = S754_nan → fgt (fabs (fsub c r)) tol = false.
Proof.
  intros [-> | ->]; [by destruct tol|].
  destruct c; by destruct tol.
Qed.

End NaN.

(** *** [parse_args] *)

Section ParseArgsFacts.
Variable stoi : string → option Z.

Lemma parse_loop_skips (arg : string) (rest : list string) (c : Config) :
  arg ∉ flags → parse_loop stoi (arg :: rest) c = parse_loop stoi rest c.
Proof.
  intros Hno. destruct rest as [|value rest]; [done|].
  cbn [parse_loop].
  repeat match goal with
  | |- context [String.eqb arg ?f] =>
      destruct (String.eqb_spec arg f) as [->|_];
        [exfalso; apply Hno; unfold flags;
         repeat first [apply list_elem_of_here | apply list_elem_of_further]|]
  end.
  done.
Qed.

Lemma parse_loop_unrecognised (args : list string) (c : Config) :
  Forall (fun arg => arg ∉ flags) args → parse_loop stoi args c = Some c.
Proof.
  induction 1 as [|arg args Hno _ IH]; [done|].
  by rewrite parse_loop_skips.
Qed.

End ParseArgsFacts.

(** ** Properties of the test and benchmark programs *)

Section HarnessProperties.
Context {F D G : Type} `{!FloatOps F} `{!Allocator F} `{!HarnessOps F D}
  `{!Generator G F} `{!Inhabited F}.


(** [zero_matrix] is defined exactly when the [rows x cols] block with
    leading dimension [ld] lies inside the buffer (otherwise a store
    falls outside it); it then sets every entry of the block to [0.0f]
    and leaves the other floats of the buffer, the padding of the rows
    included, as they were. *)
Theorem zero_matrix_clears_its_block (m : list F) (rows cols ld : Z) :
  (is_Some (zero_matrix m rows cols ld) ↔ block_inside m 0 rows cols ld) ∧
  ∀ m', zero_matrix m rows cols ld = Some m' →
    length m' = length m ∧
    (∀ i j, 0 ≤ i < rows → 0 ≤ j < cols →
       load m' (i * ld + j) = Some f_zero) ∧
    (∀ p, (∀ i j, 0 ≤ i < rows → 0 ≤ j < cols → p ≠ i * ld + j) →
       load m' p = load m p).
Proof.
  split.
  - split.
    + intros [m' Hm']. by apply (zero_matrix_bounds m m').
    + intros Hin. destruct (zero_matrix_spec m rows cols ld Hin)
        as (m' & -> & _). by eexists.
  - intros m' Hm'. pose proof (zero_matrix_bounds _ _ _ _ _ Hm') as Hin.
    destruct (zero_matrix_spec m rows cols ld Hin) as (m2 & Heq & Hspec).
    rewrite Hm' in Heq. by injection Heq as <-.
Qed.

(** [copy_matrix] between two buffers, the blocks lying inside them and
    the rows of the destination not overlapping ([cols <= ld_dst]):
    every entry of the destination block becomes the entry of the
    source block at the same row and column, whatever the two leading
    dimensions; the rest of the destination is unchanged. *)
Theorem copy_matrix_copies_its_block
    (src dst : list F) (rows cols ld_src ld_dst : Z) :
  cols ≤ ld_dst →
  block_inside src 0 rows cols ld_src →
  block_inside dst 0 rows cols ld_dst →
  ∃ dst', copy_matrix src dst rows cols ld_src ld_dst = Some dst' ∧
    length dst' = length dst ∧
    (∀ i j, 0 ≤ i < rows → 0 ≤ j < cols →
       load dst' (i * ld_dst + j) = load src (i * ld_src + j)) ∧
    (∀ p, (∀ i j, 0 ≤ i < rows → 0 ≤ j < cols → p ≠ i * ld_dst + j) →
       load dst' p = load dst p).
Proof. apply copy_matrix_spec. Qed.

(** [fill_matrix] (and [fill_random], the same loops) on a block inside
    the buffer with [0 <= cols <= ld]: entry [(i, j)] receives draw
    number [i * cols + j] of the generator, counted from the state it
    was passed in; the generator is left advanced by [rows * cols]
    draws, none being spent on the padding, which keeps its floats. *)
Theorem fill_matrix_writes_successive_draws
    (m : list F) (rows cols ld : Z) (gen : G) :
  0 ≤ rows → 0 ≤ cols ≤ ld →
  block_inside m 0 rows cols ld →
  ∃ m', fill_matrix m rows cols ld gen
          = Some (m', after_draws (Z.to_nat (rows * cols)) gen) ∧
    fill_random m rows cols ld gen
      = Some (m', after_draws (Z.to_nat (rows * cols)) gen) ∧
    length m' = length m ∧
    (∀ i j, 0 ≤ i < rows → 0 ≤ j < cols →
       load m' (i * ld + j)
         = Some (draw (after_draws (Z.to_nat (i * cols + j)) gen)).1) ∧
    (∀ p, (∀ i j, 0 ≤ i < rows → 0 ≤ j < cols → p ≠ i * ld + j) →
       load m' p = load m p).
Proof.
  intros Hrows Hcols Hin.
  destruct (fill_matrix_spec m rows cols ld gen Hrows Hcols Hin)
    as (m' & Heq & Hspec).
  exists m'. split; [done|]. split; [|done].
  by rewrite fill_random_is_fill_matrix.
Qed.

(** The error metric of the tests, which accumulates the two sums of
    squares in one pass, and the one of the benchmark, which makes two
    passes and calls [frobenius_norm], are the same function: the same
    [double], rounding for rounding, and the same accesses outside the
    buffers, on all arguments. *)
Theorem error_metrics_of_bench_and_tests_coincide
    (C1 C2 : list F) (rows cols ld : Z) :
  relative_error_test C1 C2 rows cols ld = relative_error C1 C2 rows cols ld.
Proof. apply relative_error_test_is_relative_error. Qed.

(** [check_result] on two blocks inside their buffers: the lines it
    prints are exactly the positions [(i, j)] of the block with
    [|C[i*ldc + j] - C_ref[i*ldc + j]| > tol], each with the two floats
    and their distance, and it answers [true] exactly when it printed
    nothing. *)
Theorem check_result_reports_exactly_the_mismatches
    (C C_ref : list F) (m n ldc : Z) (tol : F) :
  block_inside C 0 m n ldc → block_inside C_ref 0 m n ldc →
  ∃ pass out, check_result C C_ref m n ldc tol = Some (pass, out) ∧
    (pass = true ↔ out = []) ∧
    (∀ i j c r d, (i, j, c, r, d) ∈ out ↔
       0 ≤ i < m ∧ 0 ≤ j < n ∧
       load C (i * ldc + j) = Some c ∧ load C_ref (i * ldc + j) = Some r ∧
       d = fabs (fsub c r) ∧ fgt d tol = true).
Proof. apply check_result_spec. Qed.

(** The reference result of both programs, [zero_matrix] followed by
    [gemm_naive] on the same buffer: whatever the buffer held (it comes
    uninitialised from the allocator), every entry of the matrix is the
    sum of the [K] products accumulated from [0.0f] in increasing depth
    order, and the rest of the buffer is untouched. *)
Theorem reference_is_the_product_from_zero
    (M N K : Z) (A B C : list F) (lda ldb ldc : Z) :
  0 ≤ M → 0 ≤ N → 0 ≤ K → K ≤ lda → N ≤ ldb → N ≤ ldc →
  fits A M K lda → fits B K N ldb → block_inside C 0 M N ldc →
  ∃ C0 C', zero_matrix C M N ldc = Some C0 ∧
    gemm_naive M N K A B C0 lda ldb ldc = Returns C' ∧
    length C' = length C ∧
    (∀ i j, 0 ≤ i < M → 0 ≤ j < N →
       load C' (i * ldc + j) = Some (dot_acc A B lda ldb i j K f_zero)) ∧
    (∀ p, (∀ i j, 0 ≤ i < M → 0 ≤ j < N → p ≠ i * ldc + j) →
       load C' p = load C p).
Proof. apply reference_spec. Qed.


End HarnessProperties.

Section NaNProperties.
Import Binary32 Binary64.

(** In IEEE arithmetic a NaN anywhere in the result or in the reference
    makes the relative error NaN, in the benchmark and in the tests.
    The benchmark's check [relerr > 1e-6] is then false, so the
    repetition is accepted, while the tests' [error <= tolerance] is
    false for every tolerance, so the test fails. *)
Theorem nan_escapes_the_benchmark_check
    (C C_ref : list spec_float) (rows cols ld i j : Z)
    (tolerance : spec_float) :
  block_inside C 0 rows cols ld → block_inside C_ref 0 rows cols ld →
  0 ≤ i < rows → 0 ≤ j < cols →
  load C (i * ld + j) = Some S754_nan ∨
  load C_ref (i * ld + j) = Some S754_nan →
  relative_error C C_ref rows cols ld = Some S754_nan ∧
  relative_error_test C C_ref rows cols ld = Some S754_nan ∧
  bench_rejects S754_nan = false ∧
  dle S754_nan tolerance = false.
Proof.
  intros HC HR Hi Hj Hnan.
  pose proof (relative_error_nan C C_ref rows cols ld i j HC HR Hi Hj Hnan)
    as Heq.
  split; [done|]. split; [|done].
  by rewrite relative_error_test_is_relative_error.
Qed.

(** [check_result] in IEEE arithmetic never reports a position at
    which the result or the reference is NaN, since [diff > tol] is
    false there: a result that is NaN at every position of the block
    passes, for every tolerance. *)
Theorem check_result_accepts_nan
    (C C_ref : list spec_float) (m n ldc : Z) (tol : spec_float) :
  block_inside C 0 m n ldc → block_inside C_ref 0 m n ldc →
  ∃ pass out, check_result C C_ref m n ldc tol = Some (pass, out) ∧
    (∀ i j c r d, (i, j, c, r, d) ∈ out →
       c ≠ S754_nan ∧ r ≠ S754_nan) ∧
    ((∀ i j, 0 ≤ i < m → 0 ≤ j < n →
        load C (i * ldc + j) = Some S754_nan ∨
        load C_ref (i * ldc + j) = Some S754_nan) →
     pass = true ∧ out = []).
Proof.
  intros HC HR.
  destruct (check_result_spec C C_ref m n ldc tol HC HR)
    as (pass & out & Heq & Hpass & Hout).
  exists pass, out. split; [done|].
  assert (∀ i j c r d, (i, j, c, r, d) ∈ out →
            c ≠ S754_nan ∧ r ≠ S754_nan) as Hnot.
  { intros i j c r d Hin.
    apply Hout in Hin as (_ & _ & _ & _ & -> & Hgt).
    split; intros ->; by rewrite check_result_skips_nan in Hgt; auto. }
  split; [done|]. intros Hall.
  assert (out = []) as ->; [|by split; [apply Hpass|]].
  destruct out as [|[[[[i j] c] r] d] out]; [done|].
  assert ((i, j, c, r, d) ∈ (i, j, c, r, d) :: out) as Hin
    by apply list_elem_of_here.
  destruct (Hnot _ _ _ _ _ Hin) as [Hc Hr].
  apply Hout in Hin as (Hi & Hj & Hlc & Hlr & _).
  destruct (Hall i j Hi Hj) as [Hn|Hn]; congruence.
Qed.

End NaNProperties.

Section ParseArgsProperties.
Variable stoi : string → option Z.

(** Whatever the command line, [parse_args] never returns [M = 1024]
    or [K = 1024] together with another [N]: a dimension that ends up
    at its default takes the value of [N], also when [1024] was asked
    for explicitly. *)
Theorem parse_args_ties_M_and_K_to_N (argv : list string) (config : Config) :
  parse_args stoi argv = Some config →
  (cfg_M config = 1024 → cfg_N config = 1024) ∧
  (cfg_K config = 1024 → cfg_N config = 1024).
Proof.
  unfold parse_args.
  destruct (parse_loop stoi (tail argv) default_Config) as [c|]; [|done].
  osimpl. intros [= <-].
  repeat case_decide; simpl in *; lia.
Qed.

(** Words that are not options are skipped without a diagnostic: a
    command line that holds none of the eleven options yields the
    default configuration, a 1024 x 1024 x 1024 run of ["naive"]. *)
Theorem parse_args_ignores_unrecognised_words
    (prog : string) (args : list string) :
  Forall (fun arg => arg ∉ flags) args →
  parse_args stoi (prog :: args) = Some default_Config.
Proof.
  intros Hno. unfold parse_args. simpl tail.
  by rewrite parse_loop_unrecognised.
Qed.

End ParseArgsProperties.

(** ** Runs of the programs' helpers *)

Section HarnessWitnesses.
Import Binary32 Binary64.

Definition h32 : spec_float := S754_finite true 8388608 (-24).

Ltac harness_hyps :=
  first [ intros ? ? ? ?; simpl; lia
        | unfold fits; simpl; lia
        | discriminate
        | reflexivity
        | simpl; lia
        | lia ].



(** A 2x2 block with leading dimension 3 needs five floats. *)
Example zero_matrix_run :
  zero_matrix (replicate 6 S754_nan) 2 2 3
    = Some [zero32; zero32; S754_nan; zero32; zero32; S754_nan] ∧
  zero_matrix (replicate 4 S754_nan) 2 2 3 = None.
Proof. split; reflexivity. Qed.

Lemma copy_matrix_copies_its_block_witness :
  ∃ dst', copy_matrix [1; 2; 3; 4; 5; 6] [0; 0; 0; 0] 2 2 3 2 = Some dst' ∧
    length dst' = length [0; 0; 0; 0] ∧
    (∀ i j, 0 ≤ i < 2 → 0 ≤ j < 2 →
       load dst' (i * 2 + j) = load [1; 2; 3; 4; 5; 6] (i * 3 + j)) ∧
    (∀ p, (∀ i j, 0 ≤ i < 2 → 0 ≤ j < 2 → p ≠ i * 2 + j) →
       load dst' p = load [0; 0; 0; 0] p).
Proof.
  apply (copy_matrix_copies_its_block [1; 2; 3; 4; 5; 6] [0; 0; 0; 0]
           2 2 3 2); harness_hyps.
Defined.

Lemma fill_matrix_writes_successive_draws_witness :
  ∃ m', fill_matrix (replicate 6 S754_nan) 2 2 3 (0 : Z)
          = Some (m', after_draws (Z.to_nat (2 * 2)) (0 : Z)) ∧
    fill_random (replicate 6 S754_nan) 2 2 3 (0 : Z)
      = Some (m', after_draws (Z.to_nat (2 * 2)) (0 : Z)) ∧
    length m' = length (replicate 6 S754_nan) ∧
    (∀ i j, 0 ≤ i < 2 → 0 ≤ j < 2 →
       load m' (i * 3 + j)
         = Some (draw (after_draws (Z.to_nat (i * 2 + j)) (0 : Z))).1) ∧
    (∀ p, (∀ i j, 0 ≤ i < 2 → 0 ≤ j < 2 → p ≠ i * 3 + j) →
       load m' p = load (replicate 6 S754_nan) p).
Proof.
  apply (fill_matrix_writes_successive_draws (replicate 6 S754_nan) 2 2 3
           (0 : Z)); harness_hyps.
Defined.

Lemma zero_matrix_clears_its_block_witness :
  (is_Some (zero_matrix (replicate 6 S754_nan) 2 2 3)
   ↔ block_inside (replicate 6 S754_nan) 0 2 2 3) ∧
  ∀ m', zero_matrix (replicate 6 S754_nan) 2 2 3 = Some m' →
    length m' = length (replicate 6 S754_nan) ∧
    (∀ i j, 0 ≤ i < 2 → 0 ≤ j < 2 →
       load m' (i * 3 + j) = Some f_zero) ∧
    (∀ p, (∀ i j, 0 ≤ i < 2 → 0 ≤ j < 2 → p ≠ i * 3 + j) →
       load m' p = load (replicate 6 S754_nan) p).
Proof.
  apply (zero_matrix_clears_its_block (replicate 6 S754_nan) 2 2 3).
Defined.

Example fill_matrix_run :
  fill_matrix (replicate 6 S754_nan) 2 2 3 (0 : Z)
    = Some ([one32; h32; S754_nan; zero32; one32; S754_nan], 4).
Proof. reflexivity. Qed.

Lemma check_result_reports_exactly_the_mismatches_witness :
  ∃ pass out,
    check_result [one32; h32; zero32] [one32; one32; zero32] 1 3 3
      (S754_finite false 10995116 (-40)) = Some (pass, out) ∧
    (pass = true ↔ out = []) ∧
    (∀ i j c r d, (i, j, c, r, d) ∈ out ↔
       0 ≤ i < 1 ∧ 0 ≤ j < 3 ∧
       load [one32; h32; zero32] (i * 3 + j) = Some c ∧
       load [one32; one32; zero32] (i * 3 + j) = Some r ∧
       d = fabs (fsub c r) ∧
       fgt d (S754_finite false 10995116 (-40)) = true).
Proof.
  apply (check_result_reports_exactly_the_mismatches [one32; h32; zero32]
           [one32; one32; zero32] 1 3 3 (S754_finite false 10995116 (-40)));
    harness_hyps.
Defined.

(** The entry [-1/2] against [1] is reported, with the distance [3/2]. *)
Example check_result_run :
  check_result [one32; h32; zero32] [one32; one32; zero32] 1 3 3
    (S754_finite false 10995116 (-40))
  = Some (false, [(0, 1, h32, one32, S754_finite false 12582912 (-23))]).
Proof. reflexivity. Qed.

Lemma reference_is_the_product_from_zero_witness :
  ∃ C0 C', zero_matrix (replicate 4 S754_nan) 2 2 2 = Some C0 ∧
    gemm_naive 2 2 1 [one32; h32] [h32; one32] C0 1 2 2 = Returns C' ∧
    length C' = length (replicate 4 S754_nan) ∧
    (∀ i j, 0 ≤ i < 2 → 0 ≤ j < 2 →
       load C' (i * 2 + j)
         = Some (dot_acc [one32; h32] [h32; one32] 1 2 i j 1 f_zero)) ∧
    (∀ p, (∀ i j, 0 ≤ i < 2 → 0 ≤ j < 2 → p ≠ i * 2 + j) →
       load C' p = load (replicate 4 S754_nan) p).
Proof.
  apply (reference_is_the_product_from_zero 2 2 1 [one32; h32] [h32; one32]
           (replicate 4 S754_nan) 1 2 2); harness_hyps.
Defined.


(** A heap that grants 4 KiB at most: the matrices fit, the panels do
    not. *)
Definition tight_heap : Allocator spec_float := {|
  posix_memalign_ok := fun bytes => bool_decide (bytes ≤ 4096);
  uninit := fun _ => S754_nan
|}.

(** A misspelt name passes, and so does ["packed"] without its panels;
    the implementations that run are compared with the reference. *)
Example test_implementation_runs :
  test_implementation "mk_avx512" 2 2 2 (0 : Z) d_1e_6 = Done (true, 8) ∧
  @test_implementation spec_float spec_float Z Binary32.ops tight_heap
    Binary64.harness Binary64.counter "packed" 2 2 2 0 S754_nan
    = Done (true, 8) ∧
  test_implementation "packed" 2 2 2 (0 : Z) d_1e_6 = Done (true, 8) ∧
  test_implementation "packed" 2 2 2 (0 : Z) S754_nan = Done (false, 8).
Proof. repeat split; vm_compute; reflexivity. Qed.

Lemma nan_escapes_the_benchmark_check_witness :
  relative_error [one32; S754_nan] [one32; one32] 1 2 2 = Some S754_nan ∧
  relative_error_test [one32; S754_nan] [one32; one32] 1 2 2
    = Some S754_nan ∧
  bench_rejects S754_nan = false ∧
  dle S754_nan d_1e_6 = false.
Proof.
  apply (nan_escapes_the_benchmark_check [one32; S754_nan] [one32; one32]
           1 2 2 0 1 d_1e_6); first [by right | by left | harness_hyps].
Defined.

Lemma check_result_accepts_nan_witness :
  ∃ pass out,
    check_result [S754_nan; S754_nan] [one32; one32] 1 2 2
      (S754_finite false 10995116 (-40)) = Some (pass, out) ∧
    (∀ i j c r d, (i, j, c, r, d) ∈ out →
       c ≠ S754_nan ∧ r ≠ S754_nan) ∧
    ((∀ i j, 0 ≤ i < 1 → 0 ≤ j < 2 →
        load [S754_nan; S754_nan] (i * 2 + j) = Some S754_nan ∨
        load [one32; one32] (i * 2 + j) = Some S754_nan) →
     pass = true ∧ out = []).
Proof.
  apply (check_result_accepts_nan [S754_nan; S754_nan] [one32; one32] 1 2 2
           (S754_finite false 10995116 (-40))); harness_hyps.
Defined.

Example check_result_on_nan_run :
  check_result [S754_nan; S754_nan] [one32; one32] 1 2 2
    (S754_finite false 10995116 (-40)) = Some (true, []).
Proof. reflexivity. Qed.

End HarnessWitnesses.

Section ParseArgsWitnesses.

(** [std::stoi] on decimal numerals: white space is skipped, a sign is
    accepted, the digits that follow are read and the rest of the string
    is ignored; there is no result without a digit or outside [int]. *)
Definition is_space (c : Ascii.ascii) : bool :=
  let n := Z.of_nat (Ascii.nat_of_ascii c) in
  bool_decide (n = 32 ∨ 9 ≤ n ≤ 13).

Definition digit_of (c : Ascii.ascii) : option Z :=
  let n := Z.of_nat (Ascii.nat_of_ascii c) in
  if decide (48 ≤ n ≤ 57) then Some (n - 48) else None.

Fixpoint skip_spaces (s : string) : string :=
  match s with
  | String c s' => if is_space c then skip_spaces s' else s
  | EmptyString => s
  end.

Fixpoint digits (s : string) (acc : option Z) : option Z :=
  match s with
  | String c s' =>
      match digit_of c with
      | Some d => digits s' (Some (10 * default 0 acc + d))
      | None => acc
      end
  | EmptyString => acc
  end.

Definition stoi_decimal (s : string) : option Z :=
  let s := skip_spaces s in
  let '(neg, s) :=
    match s with
    | String c s' =>
        let n := Z.of_nat (Ascii.nat_of_ascii c) in
        if decide (n = 45) then (true, s')
        else if decide (n = 43) then (false, s')
        else (false, s)
    | EmptyString => (false, s)
    end in
  v ← digits s None;
  let v := if neg : bool then - v else v in
  if decide (- 2 ^ 31 ≤ v < 2 ^ 31) then Some v else None.

Definition config_512 : Config :=
  set_K (set_N (set_M default_Config 512) 512) 512.

(** [--M 1024 --N 512] runs a 512 x 512 x 512 problem. *)
Example parse_args_run :
  parse_args stoi_decimal ["bench"; "--M"; "1024"; "--N"; "512"]%string
    = Some config_512 ∧
  parse_args stoi_decimal ["bench"; "--N"; "512"; "--impl"]%string
    = Some config_512 ∧
  parse_args stoi_decimal ["bench"; "--N"; "many"]%string = None.
Proof. repeat split; reflexivity. Qed.

Lemma parse_args_ties_M_and_K_to_N_witness :
  (cfg_M config_512 = 1024 → cfg_N config_512 = 1024) ∧
  (cfg_K config_512 = 1024 → cfg_N config_512 = 1024).
Proof.
  apply (parse_args_ties_M_and_K_to_N stoi_decimal
           ["bench"; "--M"; "1024"; "--N"; "512"]%string config_512).
  reflexivity.
Defined.

Lemma parse_args_ignores_unrecognised_words_witness :
  parse_args stoi_decimal ["bench"; "-n"; "512"; "--verbose"]%string
    = Some default_Config.
Proof.
  apply (parse_args_ignores_unrecognised_words stoi_decimal "bench"
           ["-n"; "512"; "--verbose"]%string).
  repeat constructor; intros Hin;
    repeat (apply elem_of_cons in Hin as [Hin|Hin]; [discriminate|]);
    by apply elem_of_nil in Hin.
Defined.

End ParseArgsWitnesses.

(** ** Bounds of [gemm_naive], alignment of [mk8x8_avx2] *)

Section Bounds.
Context {F : Type} `{!FloatOps F}.

Lemma for_from_first_fails {S : Type} (lo hi step : Z)
    (body : Z → S → option S) (s : S) :
  lo < hi → body lo s = None → for_from lo hi step body s = None.
Proof.
  intros Hlt Hb. unfold for_from.
  destruct (Z.to_nat (hi - lo)) as [|fuel] eqn:E; [lia|].
  simpl. rewrite decide_True by done. by rewrite Hb.
Qed.

Lemma mm256_load_ps_misaligned (B : list F) (B_base b0 k : Z) :
  (B_base + 4 * b0) mod 32 ≠ 0 →
  mm256_load_ps B_base B (b0 + k * 8) = None.
Proof.
  intros Hmis. unfold mm256_load_ps. rewrite decide_False; [done|].
  replace (B_base + 4 * (b0 + k * 8)) with (B_base + 4 * b0 + k * 32) by lia.
  by rewrite Z.mod_add by lia.
Qed.

Lemma mk8x8_avx2_misaligned (KC : Z) (A : list F) (a0 : Z) (B : list F)
    (B_base b0 : Z) (C : list F) (c0 ldc : Z) :
  0 < KC → (B_base + 4 * b0) mod 32 ≠ 0 →
  mk8x8_avx2 KC A a0 B B_base b0 C c0 ldc = None.
Proof.
  intros HKC Hmis. unfold mk8x8_avx2.
  destruct (load_rows C c0 ldc) as [acc|]; [|done]. osimpl.
  destruct (decide (4 ≤ KC)) as [Hge|Hlt].
  - rewrite for_from_first_fails; [done|lia|].
    rewrite !(mm256_load_ps_misaligned B B_base b0) by exact Hmis. done.
  - rewrite for_from_empty by lia. osimpl.
    rewrite for_from_first_fails; [done|lia|].
    rewrite !(mm256_load_ps_misaligned B B_base b0) by exact Hmis. done.
Qed.

Lemma naive_row_keeps_length (A B : list F) (lda ldb ldc K N i : Z)
    (C C' : list F) :
  for_loop 0 K 1 (fun k C =>
    a ← load A (i * lda + k);
    for_loop 0 N 1 (fun j C =>
      c ← load C (i * ldc + j);
      b ← load B (k * ldb + j);
      store C (i * ldc + j) (fadd c (fmul a b))) C) C = Some C' →
  length C' = length C.
Proof.
  apply for_loop_keeps_length. intros k d d'.
  destruct (load A (i * lda + k)) as [a|]; [|done]. osimpl.
  apply for_loop_keeps_length. intros j d1 d2.
  destruct (load d1 (i * ldc + j)) as [c|]; [|done]. osimpl.
  destruct (load B (k * ldb + j)) as [b|]; [|done]. osimpl.
  apply store_length.
Qed.

Lemma gemm_naive_in_bounds (M N K : Z) (A B C C' : list F)
    (lda ldb ldc : Z) :
  gemm_naive M N K A B C lda ldb ldc = Returns C' →
  block_inside A 0 M K lda ∧
  (0 < M → block_inside B 0 K N ldb) ∧
  (0 < K → block_inside C 0 M N ldc).
Proof.
  unfold gemm_naive.
  match goal with
  | |- of_option ?o = _ → _ => destruct o as [C1|] eqn:Hrun; [|done]
  end.
  intros _.
  assert (∀ i k, 0 ≤ i < M → 0 ≤ k < K →
    ∃ a d d', length d = length C ∧ load A (i * lda + k) = Some a ∧
      for_loop 0 N 1 (fun j C =>
        c ← load C (i * ldc + j);
        b ← load B (k * ldb + j);
        store C (i * ldc + j) (fadd c (fmul a b))) d = Some d') as Hvis.
  { intros i k Hi Hk.
    eapply (for_loop_visits (fun d => length d = length C)) in Hrun
      as (d1 & d2 & Hd1 & Hrow); [| |done|exact Hi].
    2:{ intros i' d d' Hd Hl. rewrite <- Hd.
        by apply naive_row_keeps_length in Hl. }
    eapply (for_loop_visits (fun d => length d = length C)) in Hrow
      as (d3 & d4 & Hd3 & Hk'); [| |done|exact Hk].
    2:{ intros k' d d' Hd. rewrite <- Hd.
        destruct (load A (i * lda + k')) as [a|]; [|done]. osimpl.
        apply for_loop_keeps_length. intros j e1 e2.
        destruct (load e1 (i * ldc + j)) as [c|]; [|done]. osimpl.
        destruct (load B (k' * ldb + j)) as [b|]; [|done]. osimpl.
        apply store_length. }
    destruct (load A (i * lda + k)) as [a|] eqn:Ha; [|done].
    osimpl in Hk'. eauto 10. }
  assert (∀ i k j, 0 ≤ i < M → 0 ≤ k < K → 0 ≤ j < N →
    0 ≤ k * ldb + j < Z.of_nat (length B) ∧
    0 ≤ i * ldc + j < Z.of_nat (length C)) as Hcell.
  { intros i k j Hi Hk Hj.
    destruct (Hvis i k Hi Hk) as (a & d & d' & Hd & _ & Hrow).
    eapply (for_loop_visits (fun d => length d = length C)) in Hrow
      as (e1 & e2 & He1 & Hj'); [| |done|exact Hj].
    2:{ intros j' e1 e2 He1. rewrite <- He1.
        destruct (load e1 (i * ldc + j')) as [c|]; [|done]. osimpl.
        destruct (load B (k * ldb + j')) as [b|]; [|done]. osimpl.
        apply store_length. }
    destruct (load e1 (i * ldc + j)) as [c|] eqn:Hc; [|done].
    osimpl in Hj'.
    destruct (load B (k * ldb + j)) as [b|] eqn:Hb; [|done].
    apply load_Some in Hc, Hb. lia. }
  split; [|split].
  - intros i k Hi Hk. destruct (Hvis i k Hi Hk) as (a & _ & _ & _ & Ha & _).
    apply load_Some in Ha. lia.
  - intros HM k j Hk Hj. destruct (Hcell 0 k j); lia.
  - intros HK i j Hi Hj. destruct (Hcell i 0 j); lia.
Qed.

Lemma gemm_naive_returns (M N K : Z) (A B C : list F) (lda ldb ldc : Z) :
  block_inside A 0 M K lda →
  (0 < M → block_inside B 0 K N ldb) →
  (0 < K → block_inside C 0 M N ldc) →
  ∃ C', gemm_naive M N K A B C lda ldb ldc = Returns C' ∧
        length C' = length C.
Proof.
  intros HA HB HC. unfold gemm_naive.
  assert (∀ (lo hi : Z) (body : Z → list F → option (list F)) (d : list F),
    length d = length C →
    (∀ k d, lo ≤ k < hi → length d = length C →
       ∃ d', body k d = Some d' ∧ length d' = length C) →
    ∃ d', for_loop lo hi 1 body d = Some d' ∧ length d' = length C)
    as Hloop.
  { intros lo hi body d Hd Hb.
    destruct (decide (lo ≤ hi)) as [Hle|Hgt].
    - destruct (for_loop_rule (fun _ d => length d = length C)
                  lo hi body d) as (d' & ? & ?); eauto.
    - rewrite for_loop_empty by lia. eauto. }
  match goal with
  | |- context [for_loop 0 M 1 ?body C] =>
      destruct (Hloop 0 M body C) as (C' & -> & Hl); [done| |by eauto]
  end.
  intros i d Hi Hd. apply Hloop; [done|]. intros k d1 Hk Hd1.
  destruct (load_is_Some A (i * lda + k)) as [a ->].
  { specialize (HA i k Hi Hk). lia. }
  osimpl. apply Hloop; [done|]. intros j d2 Hj Hd2.
  destruct (load_is_Some d2 (i * ldc + j)) as [c ->].
  { rewrite Hd2. specialize (HC ltac:(lia) i j Hi Hj). lia. }
  destruct (load_is_Some B (k * ldb + j)) as [b ->].
  { specialize (HB ltac:(lia) k j Hk Hj). lia. }
  osimpl.
  destruct (store_Some d2 (i * ldc + j) (fadd c (fmul a b))) as [d3 Hd3].
  { rewrite Hd2. specialize (HC ltac:(lia) i j Hi Hj). lia. }
  exists d3. split; [done|]. apply store_length in Hd3. congruence.
Qed.

(** [gemm_naive] never throws.  It returns exactly when every float it
    accesses exists: the [M x K] block of A, the [K x N] block of B if
    there is a row to compute, the [M x N] block of C if there is a
    product to add; its behaviour is undefined otherwise.  No relation
    between the strides and the widths is needed for that. *)
Theorem gemm_naive_returns_iff_its_accesses_are_in_bounds
    (M N K : Z) (A B C : list F) (lda ldb ldc : Z) :
  ((∃ C', gemm_naive M N K A B C lda ldb ldc = Returns C') ↔
   block_inside A 0 M K lda ∧
   (0 < M → block_inside B 0 K N ldb) ∧
   (0 < K → block_inside C 0 M N ldc)) ∧
  (gemm_naive M N K A B C lda ldb ldc = Undefined ↔
   ¬ (block_inside A 0 M K lda ∧
      (0 < M → block_inside B 0 K N ldb) ∧
      (0 < K → block_inside C 0 M N ldc))).
Proof.
  assert ((∃ C', gemm_naive M N K A B C lda ldb ldc = Returns C') ↔
          block_inside A 0 M K lda ∧
          (0 < M → block_inside B 0 K N ldb) ∧
          (0 < K → block_inside C 0 M N ldc)) as Hiff.
  { split.
    - intros [C' Hrun]. by apply (gemm_naive_in_bounds _ _ _ _ _ _ C').
    - intros (HA & HB & HC).
      destruct (gemm_naive_returns M N K A B C lda ldb ldc HA HB HC)
        as (C' & Hrun & _). eauto. }
  split; [done|]. rewrite <- Hiff. split.
  - intros Hun [C' Hrun]. congruence.
  - intros Hno. unfold gemm_naive in *.
    match goal with
    | |- of_option ?o = _ => destruct o as [C1|]; [|done]
    end.
    exfalso. apply Hno. by eexists.
Qed.

(** [mk8x8_avx2] reads the rows of the packed panel of B with the
    aligned load [_mm256_load_ps]: for every depth [KC > 0], on a panel
    whose first float is not at a multiple of 32 bytes the behaviour of
    the kernel is undefined, whatever the buffers hold. *)
Theorem mk8x8_avx2_needs_an_aligned_panel
    (KC : Z) (A : list F) (a0 : Z) (B : list F) (B_base b0 : Z)
    (C : list F) (c0 ldc : Z) :
  0 < KC → (B_base + 4 * b0) mod 32 ≠ 0 →
  mk8x8_avx2 KC A a0 B B_base b0 C c0 ldc = None.
Proof. apply mk8x8_avx2_misaligned. Qed.

End Bounds.

Section BoundsWitnesses.
Import Exact.

(** A panel of B that starts 16 bytes after a 32-byte boundary. *)
Lemma mk8x8_avx2_needs_an_aligned_panel_witness :
  mk8x8_avx2 8 (replicate 64 2) 0 (replicate 64 3) 16 0
    (replicate 64 0) 0 8 = None.
Proof.
  apply (mk8x8_avx2_needs_an_aligned_panel 8 (replicate 64 2) 0
           (replicate 64 3) 16 0 (replicate 64 0) 0 8); [lia|done].
Defined.

Lemma gemm_naive_returns_iff_its_accesses_are_in_bounds_witness :
  ((∃ C', gemm_naive 2 2 2 [1; 2; 3] [1; 0; 0; 1] [0; 0; 0; 0] 1 2 2
            = Returns C') ↔
   block_inside [1; 2; 3] 0 2 2 1 ∧
   (0 < 2 → block_inside [1; 0; 0; 1] 0 2 2 2) ∧
   (0 < 2 → block_inside [0; 0; 0; 0] 0 2 2 2)) ∧
  (gemm_naive 2 2 2 [1; 2; 3] [1; 0; 0; 1] [0; 0; 0; 0] 1 2 2 = Undefined ↔
   ¬ (block_inside [1; 2; 3] 0 2 2 1 ∧
      (0 < 2 → block_inside [1; 0; 0; 1] 0 2 2 2) ∧
      (0 < 2 → block_inside [0; 0; 0; 0] 0 2 2 2))).
Proof.
  apply (gemm_naive_returns_iff_its_accesses_are_in_bounds 2 2 2 [1; 2; 3]
           [1; 0; 0; 1] [0; 0; 0; 0] 1 2 2).
Defined.

(** With [lda = 1 < K] the rows of A overlap and the call returns; with B
    one float short it is undefined. *)
Example gemm_naive_bounds_run :
  gemm_naive 2 2 2 [1; 2; 3] [1; 0; 0; 1] [0; 0; 0; 0] 1 2 2
    = Returns [1; 2; 2; 3] ∧
  gemm_naive 2 2 2 [1; 2; 3] [1; 0; 0] [0; 0; 0; 0] 1 2 2 = Undefined.
Proof. split; reflexivity. Qed.

End BoundsWitnesses.
